(** * Navigation-menu visual: the filter model of [src/visual.ts]

    A shallow embedding of the data-processing and selection code of the
    Power BI navigation-menu visual, and the properties of it that the
    specification states.

    The visual keeps [FilterValue] objects that are shared: the same
    object is held by a level's [values] array and by its parent's
    [children] array, and every operation mutates it in place.  The
    embedding therefore keeps one heap of [FilterValue]s and lets the
    arrays hold addresses. *)

From Stdlib Require Import Ascii DecimalString.
From stdpp Require Import base option functions list sorting strings gmap.

(** ** Outcomes of a call

    The recursive traversals of the source are given fuel; a call either
    returns, raises a [TypeError] (a property read on [undefined]), or
    runs out of fuel. *)

Inductive outcome (A : Type) : Type :=
  | Ok (a : A)
  | TypeError
  | OutOfFuel.

Arguments Ok {A} a.
Arguments TypeError {A}.
Arguments OutOfFuel {A}.

#[global] Instance outcome_ret : MRet outcome := λ A a, Ok a.
#[global] Instance outcome_bind : MBind outcome := λ A B f m,
  match m with
  | Ok a => f a
  | TypeError => TypeError
  | OutOfFuel => OutOfFuel
  end.

(** [l.forEach(x => body)] where the body may fail. *)
Fixpoint forEachM {A St : Type} (body : A → St → outcome St) (l : list A)
  (s : St) : outcome St :=
  match l with
  | [] => Ok s
  | x :: l' => s' ← body x s; forEachM body l' s'
  end.

(** [l.forEach((x, index) => body)], starting the index at [i]. *)
Fixpoint forEachFrom {A St : Type} (body : St → nat → A → St) (i : nat)
  (l : list A) (s : St) : St :=
  match l with
  | [] => s
  | x :: l' => forEachFrom body (S i) l' (body s i x)
  end.

(** ** JavaScript strings *)

(** Truthiness of a string: only the empty string is falsy. *)
Definition truthy (s : string) : bool := negb (bool_decide (s = "")).

(** [s.split('.')[0]]: the part of [s] before its first dot. *)
Fixpoint splitHead (s : string) : string :=
  match s with
  | EmptyString => EmptyString
  | String c s' => if bool_decide (c = "."%char) then EmptyString
                   else String c (splitHead s')
  end.

(** The decimal rendering of a number inside a template literal. *)
Definition decimal (n : nat) : string := NilEmpty.string_of_uint (Nat.to_uint n).

(** ** JavaScript [Map] with string keys

    Iteration order is insertion order, which the visual relies on, so a
    map is an association list in insertion order. *)

Abbreviation JsMap X := (list (string * X)).

Fixpoint mapGet {X : Type} (k : string) (m : JsMap X) : option X :=
  match m with
  | [] => None
  | (k', x) :: m' => if bool_decide (k = k') then Some x else mapGet k m'
  end.

Definition mapHas {X : Type} (k : string) (m : JsMap X) : bool :=
  bool_decide (is_Some (mapGet k m)).

(** [m.set(k, x)]: a present key keeps its place, a new key goes last. *)
Fixpoint mapSet {X : Type} (k : string) (x : X) (m : JsMap X) : JsMap X :=
  match m with
  | [] => [(k, x)]
  | (k', x') :: m' => if bool_decide (k = k') then (k', x) :: m'
                      else (k', x') :: mapSet k x m'
  end.

(** [Array.from(m.values())] *)
Definition mapValues {X : Type} (m : JsMap X) : list X := m.*2.

(** ** The data model *)

(** [powerbi.DataViewMetadataColumn], the two properties the visual
    reads; both are read defensively ([displayName?.], [!queryName]). *)
Record DataViewMetadataColumn : Type := mkSource {
  src_displayName : option string;
  queryName : option string
}.

(** [powerbi.DataViewCategoryColumn].  A cell is used only through
    [value != null ? String(value) : "(Blank)"], so a cell is [None] for
    [null] or [undefined] and otherwise carries its [String(value)]. *)
Record DataViewCategoryColumn : Type := mkColumn {
  source : DataViewMetadataColumn;
  col_values : list (option string)
}.

(** The host's identity token, opaque to the visual: it is represented
    by the arguments of the builder call that minted it,
    [createSelectionIdBuilder().withCategory(category, index).createSelectionId()]. *)
Record ISelectionId : Type := mkSelectionId {
  sid_category : DataViewCategoryColumn;
  sid_index : nat
}.

Abbreviation Addr := nat (only parsing).

(** [interface FilterValue]; [indeterminate], [children] and
    [parentValue] are optional properties. *)
Record FilterValue : Type := mkFilterValue {
  value : string;
  identity : ISelectionId;
  selected : bool;
  indeterminate : option bool;
  children : option (list Addr);
  parentValue : option string
}.

(** [interface HierarchyLevel] *)
Record HierarchyLevel : Type := mkHierarchyLevel {
  hl_name : string;
  hl_values : list Addr;
  levelIndex : nat
}.

(** [interface FilterCategory] *)
Record FilterCategory : Type := mkFilterCategory {
  name : string;
  displayName : string;
  values : list Addr;
  isHierarchy : bool;
  hierarchyLevels : option (list HierarchyLevel);
  order : nat;
  collapsed : bool
}.

(** The heap of [FilterValue] objects.  Objects are only ever appended
    (by [processData]); an address out of range does not arise in the
    source, and the accessors below read it as an object without
    children or flags and leave the heap unchanged on a write. *)
Abbreviation Heap := (list FilterValue).

(** Calls made on the host: minting an identity token for a row of a
    column, and the two calls on the selection manager. *)
Inductive HostCall : Type :=
  | CreateSelectionId (category : DataViewCategoryColumn) (index : nat)
  | Select (ids : list ISelectionId)
  | Clear.

(** *** Field writes *)

Definition withSelected (b : bool) (v : FilterValue) : FilterValue :=
  mkFilterValue (value v) (identity v) b (indeterminate v) (children v)
    (parentValue v).

Definition withIndeterminate (b : bool) (v : FilterValue) : FilterValue :=
  mkFilterValue (value v) (identity v) (selected v) (Some b) (children v)
    (parentValue v).

Definition withChildren (cs : list Addr) (v : FilterValue) : FilterValue :=
  mkFilterValue (value v) (identity v) (selected v) (indeterminate v) (Some cs)
    (parentValue v).

Definition withParentValue (p : string) (v : FilterValue) : FilterValue :=
  mkFilterValue (value v) (identity v) (selected v) (indeterminate v)
    (children v) (Some p).

(** *** Field reads through an address *)

(** [v.children] where every read in the source is guarded by
    [v.children && v.children.length > 0]. *)
Definition childrenOf (v : FilterValue) : list Addr := default [] (children v).

Definition kids (h : Heap) (a : Addr) : list Addr :=
  from_option childrenOf [] (h !! a).

Definition valueAt (h : Heap) (a : Addr) : option string := value <$> h !! a.

Definition selectedAt (h : Heap) (a : Addr) : bool :=
  from_option selected false (h !! a).

(** [v.indeterminate || false], as the checkbox reads it. *)
Definition isIndeterminate (v : FilterValue) : bool :=
  default false (indeterminate v).

Definition indeterminateAt (h : Heap) (a : Addr) : bool :=
  from_option isIndeterminate false (h !! a).

Definition parentValueAt (h : Heap) (a : Addr) : option string :=
  h !! a ≫= parentValue.

(** ** The selection state machine *)

(** The body of the loop of [cascadeSelectionToDescendants]:
    [child.selected = selected; child.indeterminate = false]. *)
Definition cascadeMark (sel : bool) (v : FilterValue) : FilterValue :=
  withIndeterminate false (withSelected sel v).

(** [cascadeSelectionToDescendants(filterValue, selected)] *)
Fixpoint cascadeSelectionToDescendants (fuel : nat) (filterValue : Addr)
  (sel : bool) (h : Heap) : outcome Heap :=
  match fuel with
  | 0 => OutOfFuel
  | S fuel' =>
      forEachM (λ child h,
          cascadeSelectionToDescendants fuel' child sel
            (alter (cascadeMark sel) child h))
        (kids h filterValue) h
  end.

(** [level.values.find(v => v.value === parentValue)] *)
Definition findValue (h : Heap) (vals : list Addr) (key : string)
  : option Addr :=
  snd <$> list_find (λ a, valueAt h a = Some key) vals.

(** The [for (const level of category.hierarchyLevels)] loop of
    [updateParentSelectionRecursive] up to its [break]: the first level
    whose [find] result has children. *)
Fixpoint findParent (h : Heap) (levels : list HierarchyLevel) (key : string)
  : option Addr :=
  match levels with
  | [] => None
  | level :: rest =>
      match findValue h (hl_values level) key with
      | Some parent =>
          if bool_decide (kids h parent = []) then findParent h rest key
          else Some parent
      | None => findParent h rest key
      end
  end.

(** The three-way recomputation of a parent from its children. *)
Definition recompute (h : Heap) (parent : Addr) (v : FilterValue)
  : FilterValue :=
  let allChildrenSelected := forallb (selectedAt h) (kids h parent) in
  let anyChildSelected :=
    existsb (λ c, selectedAt h c || indeterminateAt h c) (kids h parent) in
  if allChildrenSelected then withIndeterminate false (withSelected true v)
  else if negb anyChildSelected then
    withIndeterminate false (withSelected false v)
  else withIndeterminate true (withSelected false v).

(** [updateParentSelectionRecursive(category, parentValue)] *)
Fixpoint updateParentSelectionRecursive (fuel : nat)
  (levels : list HierarchyLevel) (key : string) (h : Heap) : outcome Heap :=
  match fuel with
  | 0 => OutOfFuel
  | S fuel' =>
      match findParent h levels key with
      | None => Ok h
      | Some parent =>
          let h' := alter (recompute h parent) parent h in
          match parentValueAt h' parent with
          | Some k =>
              if truthy k then updateParentSelectionRecursive fuel' levels k h'
              else Ok h'
          | None => Ok h'
          end
      end
  end.

(** Identities of the selected values among [vals], in order:
    [vals.forEach(val => { if (val.selected) selectedIds.push(val.identity) })] *)
Definition selectedIds (h : Heap) (vals : list Addr) : list ISelectionId :=
  omap (λ a, v ← h !! a; if selected v then Some (identity v) else None) vals.

Definition selectedInLevels (h : Heap) (levels : list HierarchyLevel)
  : list ISelectionId :=
  flat_map (λ level, selectedIds h (hl_values level)) levels.

(** The state of the visual that the model needs: the heap, the field
    [filterCategories], and the calls made on the host so far. *)
Record Visual : Type := mkVisual {
  heap : Heap;
  filterCategories : list FilterCategory;
  hostCalls : list HostCall
}.

(** [if (selectedIds.length > 0) select(selectedIds, false) else clear()] *)
Definition applySelection (ids : list ISelectionId) : HostCall :=
  match ids with
  | [] => Clear
  | _ => Select ids
  end.

(** The heap part of [toggleHierarchyValue]: lines 624 to 633. *)
Definition toggleHierarchyHeap (fuel : nat) (filterValue : Addr)
  (hierarchy : option (list HierarchyLevel)) (h : Heap) : outcome Heap :=
  match h !! filterValue with
  | None => TypeError
  | Some v =>
      let newSelectedState := negb (selected v) in
      let h1 := alter (withSelected newSelectedState) filterValue h in
      h2 ← cascadeSelectionToDescendants fuel filterValue newSelectedState h1;
      match parentValueAt h2 filterValue with
      | Some k =>
          if truthy k then
            match hierarchy with
            | Some levels => updateParentSelectionRecursive fuel levels k h2
            | None => TypeError
            end
          else Ok h2
      | None => Ok h2
      end
  end.

(** [toggleHierarchyValue(filterValue, category, level)]; the final
    [renderFilters()] only rebuilds the DOM. *)
Definition toggleHierarchyValue (fuel : nat) (filterValue : Addr)
  (category : FilterCategory) (vis : Visual)
  : outcome Visual :=
  h ← toggleHierarchyHeap fuel filterValue (hierarchyLevels category) (heap vis);
  match hierarchyLevels category with
  | None => TypeError
  | Some levels =>
      let fromHierarchy := selectedInLevels h levels in
      let fromOthers :=
        flat_map (λ cat,
            if bool_decide (name cat ≠ name category)
            then selectedIds h (values cat) else [])
          (filterCategories vis) in
      Ok (mkVisual h (filterCategories vis)
            (hostCalls vis ++ [applySelection (fromHierarchy ++ fromOthers)]))
  end.

(** [toggleSelection(filterValue, category)] *)
Definition toggleSelection (filterValue : Addr) (category : FilterCategory)
  (vis : Visual) : outcome Visual :=
  match heap vis !! filterValue with
  | None => TypeError
  | Some v =>
      let h := alter (withSelected (negb (selected v))) filterValue (heap vis) in
      let ids :=
        flat_map (λ cat, selectedIds h (values cat)) (filterCategories vis) in
      Ok (mkVisual h (filterCategories vis)
            (hostCalls vis ++ [applySelection ids]))
  end.

(** [vals.forEach(val => val.selected = false)] *)
Definition clearValues (vals : list Addr) (h : Heap) : Heap :=
  foldl (λ h a, alter (withSelected false) a h) h vals.

(** The selected identities of one category as the two [clear]
    operations collect them: its [values], then, when it has
    [hierarchyLevels], the values of every level. *)
Definition selectedInCategory (h : Heap) (cat : FilterCategory)
  : list ISelectionId :=
  selectedIds h (values cat) ++
  match hierarchyLevels cat with
  | Some levels => selectedInLevels h levels
  | None => []
  end.

(** [clearCategorySelection(category)] *)
Definition clearCategorySelection (category : FilterCategory)
  (vis : Visual) : outcome Visual :=
  let h := clearValues (values category) (heap vis) in
  let ids := flat_map (selectedInCategory h) (filterCategories vis) in
  Ok (mkVisual h (filterCategories vis)
        (hostCalls vis ++ [applySelection ids])).

(** [clearHierarchySelection(category)] *)
Definition clearHierarchySelection (category : FilterCategory)
  (vis : Visual) : outcome Visual :=
  match hierarchyLevels category with
  | None => TypeError
  | Some levels =>
      let h :=
        foldl (λ h level, clearValues (hl_values level) h) (heap vis) levels in
      let ids :=
        flat_map (λ cat,
            if bool_decide (name cat ≠ name category)
            then selectedInCategory h cat else [])
          (filterCategories vis) in
      Ok (mkVisual h (filterCategories vis)
            (hostCalls vis ++ [applySelection ids]))
  end.


(** ** Building the filter model: [processData] *)

(** [value != null ? String(value) : "(Blank)"] *)
Definition canonical (value : option string) : string :=
  default "(Blank)" value.

(** An entry of the local array [categoryOrder]. *)
Inductive OrderItem : Type :=
  | Hierarchy (itemName : string) (index : nat)
      (categories : list DataViewCategoryColumn)
  | Single (itemName : option string) (index : nat)
      (category : DataViewCategoryColumn).

(** The inner [categories.forEach((otherCat, otherIdx) => ...)] that
    collects the columns whose query name has the prefix [baseName]. *)
Definition collectRelated (categories : list DataViewCategoryColumn)
  (baseName : string) (processedIndices : gset nat)
  : list DataViewCategoryColumn * gset nat :=
  forEachFrom (λ '(relatedCategories, processedIndices) otherIdx otherCat,
      match queryName (source otherCat) with
      | Some otherQueryName =>
          if truthy otherQueryName
             && bool_decide (splitHead otherQueryName = baseName)
          then (relatedCategories ++ [otherCat], {[otherIdx]} ∪ processedIndices)
          else (relatedCategories, processedIndices)
      | None => (relatedCategories, processedIndices)
      end)
    0 categories ([], processedIndices).

(** [cat.source.displayName?.split('.')[0] || baseName] *)
Definition hierarchyNameOf (cat : DataViewCategoryColumn) (baseName : string)
  : string :=
  match src_displayName (source cat) with
  | Some d => if truthy (splitHead d) then splitHead d else baseName
  | None => baseName
  end.

(** The body of the outer [categories.forEach((cat, idx) => ...)]. *)
Definition groupStep (categories : list DataViewCategoryColumn)
  (st : list OrderItem * gset nat) (idx : nat) (cat : DataViewCategoryColumn)
  : list OrderItem * gset nat :=
  let '(categoryOrder, processedIndices) := st in
  if bool_decide (idx ∈ processedIndices) then st
  else
    let single := Single (src_displayName (source cat)) idx cat in
    match queryName (source cat) with
    | Some q =>
        if truthy q then
          let baseName := splitHead q in
          let '(relatedCategories, processedIndices') :=
            collectRelated categories baseName processedIndices in
          if bool_decide (1 < length relatedCategories) then
            (categoryOrder ++
               [Hierarchy (hierarchyNameOf cat baseName) idx relatedCategories],
             processedIndices')
          else (categoryOrder ++ [single], processedIndices')
        else (categoryOrder ++ [single], {[idx]} ∪ processedIndices)
    | None => (categoryOrder ++ [single], {[idx]} ∪ processedIndices)
    end.

(** Lines 174 to 211: the grouping of the columns. *)
Definition groupCategories (categories : list DataViewCategoryColumn)
  : list OrderItem :=
  fst (forEachFrom (groupStep categories) 0 categories ([], ∅)).

(** The object literal of the first pass. *)
Definition newHierarchyValue (stringValue : string) (identity : ISelectionId)
  : FilterValue :=
  mkFilterValue stringValue identity false None (Some []) None.

(** The object literal of a standalone filter value. *)
Definition newSingleValue (stringValue : string) (identity : ISelectionId)
  : FilterValue :=
  mkFilterValue stringValue identity false None None None.

(** What a build threads through: the heap and the calls on the host. *)
Abbreviation World := (Heap * list HostCall)%type.

(** First pass, the body of [category.values.forEach((value, index) => ...)]. *)
Definition addUniqueValue (category : DataViewCategoryColumn)
  (st : JsMap Addr * World) (index : nat) (value : option string)
  : JsMap Addr * World :=
  let '(uniqueValuesMap, (h, calls)) := st in
  let stringValue := canonical value in
  if mapHas stringValue uniqueValuesMap then st
  else
    let identity := mkSelectionId category index in
    (mapSet stringValue (length h) uniqueValuesMap,
     (h ++ [newHierarchyValue stringValue identity],
      calls ++ [CreateSelectionId category index])).

(** First pass for one level. *)
Definition uniqueValuesOfLevel (category : DataViewCategoryColumn) (w : World)
  : JsMap Addr * World :=
  forEachFrom (addUniqueValue category) 0 (col_values category) ([], w).

(** First pass: [valuesByLevel[levelIdx] = uniqueValuesMap] for each level. *)
Definition firstPass (categories : list DataViewCategoryColumn) (w : World)
  : list (JsMap Addr) * World :=
  foldl (λ '(valuesByLevel, w) category,
      let '(uniqueValuesMap, w') := uniqueValuesOfLevel category w in
      (valuesByLevel ++ [uniqueValuesMap], w'))
    ([], w) categories.

(** [category.values[rowIdx]], [undefined] past the end. *)
Definition cellAt (category : DataViewCategoryColumn) (rowIdx : nat)
  : option string :=
  mjoin (col_values category !! rowIdx).

(** Second pass, the body of the inner loop (lines 254 to 272). *)
Definition linkPair (categories : list DataViewCategoryColumn)
  (valuesByLevel : list (JsMap Addr)) (rowIdx levelIdx : nat) (h : Heap)
  : Heap :=
  match categories !! levelIdx, categories !! (levelIdx + 1),
        valuesByLevel !! levelIdx, valuesByLevel !! (levelIdx + 1) with
  | Some parentCat, Some childCat, Some parentMap, Some childMap =>
      let parentStr := canonical (cellAt parentCat rowIdx) in
      let childStr := canonical (cellAt childCat rowIdx) in
      match mapGet parentStr parentMap, mapGet childStr childMap with
      | Some parent, Some child =>
          match h !! parent, h !! child with
          | Some pv, Some cv =>
              if existsb (λ c, bool_decide (valueAt h c = Some (value cv)))
                   (childrenOf pv)
              then h
              else
                alter (withParentValue (value pv)) child
                  (alter (withChildren (childrenOf pv ++ [child])) parent h)
          | _, _ => h
          end
      | _, _ => h
      end
  | _, _, _, _ => h
  end.

(** Second pass: the two nested [for] loops. *)
Definition secondPass (categories : list DataViewCategoryColumn)
  (valuesByLevel : list (JsMap Addr)) (h : Heap) : Heap :=
  match categories with
  | [] => h
  | first :: _ =>
      let rowCount := length (col_values first) in
      foldl (λ h rowIdx,
          foldl (λ h levelIdx, linkPair categories valuesByLevel rowIdx levelIdx h)
            h (seq 0 (length categories - 1)))
        h (seq 0 rowCount)
  end.

(** [category.source.displayName || "Level"] *)
Definition levelNameOf (category : DataViewCategoryColumn) : string :=
  match src_displayName (source category) with
  | Some d => if truthy d then d else "Level"
  | None => "Level"
  end.

(** Third pass: one [HierarchyLevel] per column. *)
Definition thirdPass (categories : list DataViewCategoryColumn)
  (valuesByLevel : list (JsMap Addr)) : list HierarchyLevel :=
  imap (λ levelIdx category,
      mkHierarchyLevel (levelNameOf category)
        (mapValues (default [] (valuesByLevel !! levelIdx))) levelIdx)
    categories.

(** [collapsedStates], filled from the previous [filterCategories]. *)
Definition collapsedStatesOf (cats : list FilterCategory) : gmap string bool :=
  foldl (λ m cat, <[name cat := collapsed cat]> m) ∅ cats.

(** The [hierarchy] branch of [categoryOrder.forEach]. *)
Definition buildHierarchy (collapsedStates : gmap string bool)
  (itemName : string) (categories : list DataViewCategoryColumn)
  (orderIndex : nat) (vis : Visual) : Visual :=
  let '(valuesByLevel, (h1, calls)) :=
    firstPass categories (heap vis, hostCalls vis) in
  let h2 := secondPass categories valuesByLevel h1 in
  mkVisual h2
    (filterCategories vis ++
       [mkFilterCategory itemName itemName [] true
          (Some (thirdPass categories valuesByLevel)) orderIndex
          (default false (collapsedStates !! itemName))])
    calls.

(** Single column: the map from each key to the index of its first row. *)
Definition firstIndices (category : DataViewCategoryColumn) : JsMap nat :=
  forEachFrom (λ uniqueValuesMap index value,
      let stringValue := canonical value in
      if mapHas stringValue uniqueValuesMap then uniqueValuesMap
      else mapSet stringValue index uniqueValuesMap)
    0 (col_values category) [].

(** Single column: [uniqueValuesMap.forEach((firstIndex, stringValue) => ...)]. *)
Definition singleValues (category : DataViewCategoryColumn)
  (uniqueValuesMap : JsMap nat) (w : World) : list Addr * World :=
  foldl (λ '(vals, (h, calls)) '(stringValue, firstIndex),
      (vals ++ [length h],
       (h ++ [newSingleValue stringValue (mkSelectionId category firstIndex)],
        calls ++ [CreateSelectionId category firstIndex])))
    ([], w) uniqueValuesMap.

(** [category.source.displayName || `Filter ${orderIndex + 1}`] *)
Definition categoryNameOf (category : DataViewCategoryColumn)
  (orderIndex : nat) : string :=
  match src_displayName (source category) with
  | Some d => if truthy d then d else "Filter " +:+ decimal (orderIndex + 1)
  | None => "Filter " +:+ decimal (orderIndex + 1)
  end.

(** The [single] branch of [categoryOrder.forEach]. *)
Definition buildSingle (collapsedStates : gmap string bool)
  (category : DataViewCategoryColumn) (orderIndex : nat) (vis : Visual)
  : Visual :=
  let categoryName := categoryNameOf category orderIndex in
  let '(vals, (h, calls)) :=
    singleValues category (firstIndices category) (heap vis, hostCalls vis) in
  mkVisual h
    (filterCategories vis ++
       [mkFilterCategory categoryName categoryName vals false None orderIndex
          (default false (collapsedStates !! categoryName))])
    calls.

(** [processData(dataView)], given [dataView.categorical.categories]. *)
Definition processData (categories : option (list DataViewCategoryColumn))
  (vis : Visual) : Visual :=
  let collapsedStates := collapsedStatesOf (filterCategories vis) in
  let vis0 := mkVisual (heap vis) [] (hostCalls vis) in
  match categories with
  | None => vis0
  | Some categories =>
      forEachFrom (λ vis orderIndex item,
          match item with
          | Hierarchy itemName _ cats =>
              buildHierarchy collapsedStates itemName cats orderIndex vis
          | Single _ _ category =>
              buildSingle collapsedStates category orderIndex vis
          end)
        0 (groupCategories categories) vis0
  end.


(** ** Well-formed hierarchies

    What [processData] establishes for the levels of a hierarchy, and
    what the selection operations, which only write the two flags,
    keep. *)

(** The addresses held by level [i]. *)
Definition levelValues (levels : list HierarchyLevel) (i : nat) : list Addr :=
  from_option hl_values [] (levels !! i).

(** A node of level [i]: it is allocated, its children are nodes of the
    next level, and its [parentValue], when set, is the key of a node of
    the previous level that has it among its children. *)
Definition wfNode (h : Heap) (levels : list HierarchyLevel) (i : nat)
  (a : Addr) : bool :=
  bool_decide (a < length h)
  && forallb (λ c, bool_decide (c ∈ levelValues levels (S i))) (kids h a)
  && match parentValueAt h a with
     | None => true
     | Some k =>
         match i with
         | 0 => false
         | S j =>
             existsb (λ p, bool_decide (valueAt h p = Some k)
                           && bool_decide (a ∈ kids h p))
               (levelValues levels j)
         end
     end.

(** No node is held twice, keys are unique within a level, and every
    node is well formed. *)
Definition wfHierarchy (h : Heap) (levels : list HierarchyLevel) : bool :=
  bool_decide (NoDup (mjoin (hl_values <$> levels)))
  && forallb (λ i,
         bool_decide (NoDup (valueAt h <$> levelValues levels i))
         && forallb (wfNode h levels i) (levelValues levels i))
       (seq 0 (length levels)).

(** [d] is reached from [a] through [children]. *)
Inductive descendant (h : Heap) : Addr → Addr → Prop :=
  | descendant_child a c : c ∈ kids h a → descendant h a c
  | descendant_step a c d :
      c ∈ kids h a → descendant h c d → descendant h a d.

(** The nodes that [updateParentSelectionRecursive] recomputes, in the
    order it reaches them. *)
Fixpoint parentChain (fuel : nat) (h : Heap) (levels : list HierarchyLevel)
  (key : string) : list Addr :=
  match fuel with
  | 0 => []
  | S fuel' =>
      match findParent h levels key with
      | None => []
      | Some parent =>
          parent ::
          match parentValueAt h parent with
          | Some k => if truthy k then parentChain fuel' h levels k else []
          | None => []
          end
      end
  end.

(** The chain that a toggle of [a] walks. *)
Definition ancestorChain (fuel : nat) (h : Heap) (levels : list HierarchyLevel)
  (a : Addr) : list Addr :=
  match parentValueAt h a with
  | Some k => if truthy k then parentChain fuel h levels k else []
  | None => []
  end.

(** The state the recomputation rule derives for [p] from its children. *)
Definition consistentWithChildren (h : Heap) (p : Addr) : Prop :=
  ∃ v, h !! p = Some v ∧
    let cs := kids h p in
    if forallb (selectedAt h) cs
    then selected v = true ∧ indeterminate v = Some false
    else if negb (existsb (λ c, selectedAt h c || indeterminateAt h c) cs)
    then selected v = false ∧ indeterminate v = Some false
    else selected v = false ∧ indeterminate v = Some true.

(** What is fixed once the model is built. *)
Definition shape (v : FilterValue)
  : string * ISelectionId * option (list Addr) * option string :=
  (value v, identity v, children v, parentValue v).

Definition sameShape (h h' : Heap) : Prop := shape <$> h = shape <$> h'.

(** The two flags as the checkbox shows them. *)
Definition flagsAt (h : Heap) (a : Addr) : bool * bool :=
  (selectedAt h a, indeterminateAt h a).

(** The heap after recomputing the nodes of [chain] in order. *)
Definition recomputeAll (chain : list Addr) (h : Heap) : Heap :=
  foldl (λ h p, alter (recompute h p) p h) h chain.

(** The flags the recomputation rule derives for [p] from its children. *)
Definition derivedFlags (h : Heap) (p : Addr) : bool * bool :=
  let allChildrenSelected := forallb (selectedAt h) (kids h p) in
  let anyChildSelected :=
    existsb (λ c, selectedAt h c || indeterminateAt h c) (kids h p) in
  (allChildrenSelected, negb allChildrenSelected && anyChildSelected).

(** The [indeterminate] property itself, [None] when it is absent. *)
Definition indeterminateField (h : Heap) (a : Addr) : option bool :=
  h !! a ≫= indeterminate.

(** No key is used on two levels of the group. *)
Definition keysApart (h : Heap) (levels : list HierarchyLevel) : Prop :=
  ∀ i j p q, p ∈ levelValues levels i → q ∈ levelValues levels j →
    valueAt h p = valueAt h q → i = j.

(** [chain] climbs from [a] parent by parent. *)
Inductive parentLinked (h : Heap) : Addr → list Addr → Prop :=
  | parentLinked_nil a : parentLinked h a []
  | parentLinked_cons a p rest :
      a ∈ kids h p → parentValueAt h a = valueAt h p →
      parentLinked h p rest → parentLinked h a (p :: rest).

(** No node of the group has the key [key]. *)
Definition unmatched (h : Heap) (levels : list HierarchyLevel) (key : string)
  : Prop :=
  Forall (λ level, Forall (λ a, valueAt h a ≠ Some key) (hl_values level))
    levels.

(** ** Notions used to state the behaviour of the traversals *)

(** [x] is one of [cs] or lies below one of them. *)
Definition reached (h : Heap) (cs : list Addr) (x : Addr) : Prop :=
  x ∈ cs ∨ ∃ c, c ∈ cs ∧ descendant h c x.

(** Exactly the nodes of [D] were marked, every other node is untouched. *)
Definition cascaded (s : bool) (D : Addr → Prop) (h h' : Heap) : Prop :=
  ∀ x, (D x ∧ h' !! x = cascadeMark s <$> h !! x) ∨ (¬ D x ∧ h' !! x = h !! x).

(** Fuel: the cascade returns when the tree below [a] is no deeper than
    the fuel. *)
Fixpoint depthWithin (h : Heap) (n : nat) (a : Addr) : Prop :=
  match n with
  | 0 => False
  | S n' => Forall (depthWithin h n') (kids h a)
  end.

(** The chain climbs: each node lies on a level above the one before. *)
Inductive descending (levels : list HierarchyLevel) : nat → list Addr → Prop :=
  | descending_nil n : descending levels n []
  | descending_cons n j p rest :
      j < n → p ∈ levelValues levels j → descending levels j rest →
      descending levels n (p :: rest).

(** No node of the chain is a child of itself or of an earlier node of
    the chain, and no node occurs twice. *)
Inductive separated (h : Heap) : list Addr → Prop :=
  | separated_nil : separated h []
  | separated_cons p rest :
      is_Some (h !! p) → p ∉ rest → p ∉ kids h p →
      (∀ q, q ∈ rest → q ∉ kids h p) →
      separated h rest → separated h (p :: rest).

(** ** First occurrences

    The rows of a column that hold the first occurrence of their value,
    each with its row index, in row order. *)
Definition firstOccurrences {A : Type} `{EqDecision A} (l : list A)
  : list (A * nat) :=
  omap (λ '(i, x), if bool_decide (x ∈ take i l) then None else Some (x, i))
    (imap pair l).

(** The canonical keys of a column, row by row. *)
Definition canonicalKeys (category : DataViewCategoryColumn) : list string :=
  canonical <$> col_values category.

(** The distinct keys of a column with the row of their first occurrence. *)
Definition levelRows (category : DataViewCategoryColumn) : list (string * nat) :=
  firstOccurrences (canonicalKeys category).

(** The value nodes of a hierarchy level as the first pass creates them. *)
Definition levelNodes (category : DataViewCategoryColumn) : list FilterValue :=
  (λ '(k, i), newHierarchyValue k (mkSelectionId category i))
    <$> levelRows category.

(** The identity tokens minted for a column. *)
Definition levelMints (category : DataViewCategoryColumn) : list HostCall :=
  (λ '(k, i), CreateSelectionId category i) <$> levelRows category.

(** The key and the identity of a node. *)
Definition keyAndIdentity (v : FilterValue) : string * ISelectionId :=
  (value v, identity v).

(** The map of a level whose nodes are allocated from [base] on. *)
Definition levelMap (base : nat) (category : DataViewCategoryColumn)
  : JsMap Addr :=
  zip (levelRows category).*1 (seq base (length (levelRows category))).

(** The maps of the levels of a hierarchy allocated from [base] on. *)
Fixpoint passMaps (base : nat) (categories : list DataViewCategoryColumn)
  : list (JsMap Addr) :=
  match categories with
  | [] => []
  | category :: rest =>
      levelMap base category
      :: passMaps (base + length (levelRows category)) rest
  end.

(** The address of the first node of level [i]. *)
Fixpoint levelBase (base : nat) (categories : list DataViewCategoryColumn)
  (i : nat) : nat :=
  match i, categories with
  | S i', category :: rest =>
      levelBase (base + length (levelRows category)) rest i'
  | _, _ => base
  end.

(** ** Grouping, as the specification words it *)

(** The lineage key of a field: the part of its query name before the
    first dot; a field without a query name has none. *)
Definition lineage (cat : DataViewCategoryColumn) : option string :=
  match queryName (source cat) with
  | Some q => if truthy q then Some (splitHead q) else None
  | None => None
  end.

(** The fields that share the lineage key [b], in their original order. *)
Definition related (categories : list DataViewCategoryColumn) (b : string)
  : list DataViewCategoryColumn :=
  filter (λ c, lineage c = Some b) categories.

(** The group that the field at [idx] opens, if it opens one: a field
    whose lineage key occurred earlier is already consumed. *)
Definition groupOf (categories : list DataViewCategoryColumn) (idx : nat)
  (cat : DataViewCategoryColumn) : option OrderItem :=
  match lineage cat with
  | None => Some (Single (src_displayName (source cat)) idx cat)
  | Some b =>
      if bool_decide (Some b ∈ lineage <$> take idx categories) then None
      else if bool_decide (1 < length (related categories b))
      then Some (Hierarchy (hierarchyNameOf cat b) idx (related categories b))
      else Some (Single (src_displayName (source cat)) idx cat)
  end.

(** The grouper in the words of section 4.1 of the specification, field
    by field in input order. *)
Definition groupsSpec (categories : list DataViewCategoryColumn)
  : list OrderItem :=
  omap (λ '(idx, cat), groupOf categories idx cat) (imap pair categories).

Definition itemIndex (item : OrderItem) : nat :=
  match item with
  | Hierarchy _ index _ => index
  | Single _ index _ => index
  end.

(** The name under which [processData] stores the group of an item. *)
Definition groupName (orderIndex : nat) (item : OrderItem) : string :=
  match item with
  | Hierarchy itemName _ _ => itemName
  | Single _ _ category => categoryNameOf category orderIndex
  end.

(** [p] is the part of [s] before its first dot: [p] holds no dot, and
    [s] is [p] alone or [p] followed by a dot and more. *)
Definition beforeFirstDot (p s : string) : Prop :=
  (∀ l r, p ≠ l +:+ "." +:+ r) ∧ (s = p ∨ ∃ rest, s = p +:+ "." +:+ rest).

(** The name of a group as the amended grouping claim words it, read off
    the fields of the group alone.  A hierarchy: the part of the display
    name of its first field before the first dot, or the lineage key of
    that field when the part is empty or the display name is unset.  A
    standalone group: the display name of its field, or Filter followed
    by its one-based position among the groups when the display name is
    empty or unset. *)
Definition groupNameSpec (position : nat) (item : OrderItem) : string :=
  match item with
  | Hierarchy _ _ fields =>
      match head fields with
      | Some first =>
          let key := default "" (lineage first) in
          match src_displayName (source first) with
          | Some display =>
              if bool_decide (splitHead display = "") then key
              else splitHead display
          | None => key
          end
      | None => ""
      end
  | Single _ _ field =>
      let fallback :=
        "Filter " +:+ NilEmpty.string_of_uint (Nat.to_uint (S position)) in
      match src_displayName (source field) with
      | Some display =>
          if bool_decide (display = "") then fallback else display
      | None => fallback
      end
  end.

(** ** Linking, row by row *)

(** The parent key and the child key that row [r] gives for two
    adjacent levels. *)
Definition rowPair (parentCat childCat : DataViewCategoryColumn) (r : nat)
  : string * string :=
  (canonical (cellAt parentCat r), canonical (cellAt childCat r)).

(** Both keys of the pair name a node of their level. *)
Definition linkable (parentCat childCat : DataViewCategoryColumn)
  (e : string * string) : Prop :=
  e.1 ∈ canonicalKeys parentCat ∧ e.2 ∈ canonicalKeys childCat.

#[global] Instance linkable_dec parentCat childCat e :
  Decision (linkable parentCat childCat e).
Proof. unfold linkable. apply _. Defined.

(** The pairs of the first [n] rows for the levels [i] and [i + 1] whose
    two nodes exist, in row order. *)
Definition linkedPairs (categories : list DataViewCategoryColumn) (i n : nat)
  : list (string * string) :=
  match categories !! i, categories !! S i with
  | Some parentCat, Some childCat =>
      filter (linkable parentCat childCat)
        (rowPair parentCat childCat <$> seq 0 n)
  | _, _ => []
  end.

(** The edges between the levels [i] and [i + 1] after [n] rows: the
    distinct linked pairs in the order of their first row. *)
Definition edges (categories : list DataViewCategoryColumn) (i n : nat)
  : list (string * string) :=
  (firstOccurrences (linkedPairs categories i n)).*1.

(** The child keys of the edges that leave the parent key [pk]. *)
Definition childKeys (E : list (string * string)) (pk : string) : list string :=
  (filter (λ e, e.1 = pk) E).*2.

(** The parent key of the last edge that reaches the child key [ck]. *)
Definition lastParent (E : list (string * string)) (ck : string)
  : option string :=
  fst <$> last (filter (λ e, e.2 = ck) E).

(** The parent key of the last linked row that names the child key
    [ck], whether or not the row added an edge. *)
Definition lastLinkedParent (categories : list DataViewCategoryColumn)
  (i n : nat) (ck : string) : option string :=
  fst <$> last (filter (λ e, e.2 = ck) (linkedPairs categories i n)).

(** What the second pass relies on: every address held by a level map
    is a node with the key it is filed under, no address is held twice,
    and the keys of a level map are the canonical keys of its column. *)
Record Levelled (categories : list DataViewCategoryColumn)
  (valuesByLevel : list (JsMap Addr)) (h : Heap) : Prop := mkLevelled {
  levelled_length : length valuesByLevel = length categories;
  levelled_value : ∀ i m k a,
    valuesByLevel !! i = Some m → mapGet k m = Some a → valueAt h a = Some k;
  levelled_inj : ∀ i i' m m' k k' a,
    valuesByLevel !! i = Some m → valuesByLevel !! i' = Some m' →
    mapGet k m = Some a → mapGet k' m' = Some a → i = i' ∧ k = k';
  levelled_keys : ∀ i m c k,
    valuesByLevel !! i = Some m → categories !! i = Some c →
    is_Some (mapGet k m) ↔ k ∈ canonicalKeys c
}.

(** The addresses that a level map gives for a list of keys. *)
Definition addressesOf (valuesByLevel : list (JsMap Addr)) (i : nat)
  (keys : list string) : list Addr :=
  omap (λ k, valuesByLevel !! i ≫= mapGet k) keys.

(** The state of the links once pair [i] has seen [progress i] rows. *)
Record Linked (categories : list DataViewCategoryColumn)
  (valuesByLevel : list (JsMap Addr)) (progress : nat → nat) (h : Heap)
  : Prop := mkLinked {
  linked_children : ∀ i m k a,
    valuesByLevel !! i = Some m → mapGet k m = Some a →
    kids h a
    = addressesOf valuesByLevel (S i)
        (childKeys (edges categories i (progress i)) k);
  linked_parent : ∀ i m k a,
    valuesByLevel !! S i = Some m → mapGet k m = Some a →
    parentValueAt h a = lastParent (edges categories i (progress i)) k;
  linked_root : ∀ m k a,
    valuesByLevel !! 0 = Some m → mapGet k m = Some a →
    parentValueAt h a = None
}.

(** The number of rows that the second pass scans. *)
Definition rowCount (categories : list DataViewCategoryColumn) : nat :=
  match categories with
  | [] => 0
  | first :: _ => length (col_values first)
  end.

(** The indices that the outer loop has marked once it has visited the
    first [n] fields: the visited fields without lineage key, and every
    field whose lineage key occurs among the visited ones. *)
Definition consumed (categories : list DataViewCategoryColumn) (n j : nat)
  : Prop :=
  ∃ c, categories !! j = Some c ∧
    match lineage c with
    | None => j < n
    | Some b => Some b ∈ lineage <$> take n categories
    end.
(** ** Search, expansion and the rendered tree *)

(** [l.some(x => body)] where the body may fail: the scan ends at the
    first element for which the body returns [true]. *)
Fixpoint someM {A : Type} (body : A → outcome bool) (l : list A)
  : outcome bool :=
  match l with
  | [] => Ok false
  | x :: l' => body x ≫= λ b : bool, if b then Ok true else someM body l'
  end.

(** [s.startsWith(t)] *)
Fixpoint startsWith (s t : string) : bool :=
  match t, s with
  | EmptyString, _ => true
  | String c t', String d s' => bool_decide (c = d) && startsWith s' t'
  | String _ _, EmptyString => false
  end.

(** [s.includes(t)]: [t] occurs in [s] at some position. *)
Fixpoint includes (s t : string) : bool :=
  startsWith s t
  || match s with
     | EmptyString => false
     | String _ s' => includes s' t
     end.

(** The key under which a node is recorded as expanded:
    [`${category.name}_${level}_${value.value}`]. *)
Definition nodeKey (categoryName : string) (level : nat) (key : string)
  : string :=
  categoryName +:+ "_" +:+ decimal level +:+ "_" +:+ key.

(** The field [expandedNodes]: for each group name the set of the keys
    of its expanded nodes. *)
Abbreviation ExpandedNodes := (gmap string (gset string)).

(** Lines 442 to 444: a group seen for the first time gets an empty set. *)
Definition initExpanded (category : FilterCategory)
  (expandedNodes : ExpandedNodes) : ExpandedNodes :=
  match expandedNodes !! name category with
  | Some _ => expandedNodes
  | None => <[name category := ∅]> expandedNodes
  end.

(** The click handler of the expand icon of a node (lines 566 to 575);
    [isExpanded] is the value that the handler captured when the node
    was rendered. *)
Definition expandIconClick (isExpanded : bool) (category : FilterCategory)
  (nodeKey : string) (expandedNodes : ExpandedNodes) : outcome ExpandedNodes :=
  match expandedNodes !! name category with
  | None => TypeError
  | Some expanded =>
      Ok (<[name category :=
             if isExpanded then expanded ∖ {[nodeKey]}
             else {[nodeKey]} ∪ expanded]> expandedNodes)
  end.

Section Search.

(** [String.prototype.toLowerCase] is taken as given. *)
Variable toLowerCase : string → string.

(** [matchesSearchRecursive(value, searchTerm)] *)
Fixpoint matchesSearchRecursive (fuel : nat) (h : Heap) (filterValue : Addr)
  (searchTerm : string) : outcome bool :=
  match fuel with
  | 0 => OutOfFuel
  | S fuel' =>
      if negb (truthy searchTerm) then Ok true
      else
        let term := toLowerCase searchTerm in
        match h !! filterValue with
        | None => TypeError
        | Some v =>
            if includes (toLowerCase (value v)) term then Ok true
            else
              someM (λ child, matchesSearchRecursive fuel' h child searchTerm)
                (childrenOf v)
        end
  end.

(** The test [searchTerm && !this.matchesSearchRecursive(value, searchTerm)]
    that makes the two rendering loops skip a node. *)
Definition skipped (fuel : nat) (h : Heap) (filterValue : Addr)
  (searchTerm : string) : outcome bool :=
  if truthy searchTerm
  then b ← matchesSearchRecursive fuel h filterValue searchTerm; Ok (negb b)
  else Ok false.

(** [createHierarchyNode(category, value, level, searchTerm)].  The
    result stands for the returned element: the nodes it shows, each
    with the level it is indented to, in document order. *)
Fixpoint createHierarchyNode (fuel : nat) (h : Heap)
  (expandedNodes : ExpandedNodes) (category : FilterCategory)
  (filterValue : Addr) (level : nat) (searchTerm : string)
  : outcome (list (nat * Addr)) :=
  match fuel with
  | 0 => OutOfFuel
  | S fuel' =>
      match h !! filterValue with
      | None => TypeError
      | Some v =>
          let nodeKey := nodeKey (name category) level (value v) in
          let isExpanded :=
            match expandedNodes !! name category with
            | Some expanded => bool_decide (nodeKey ∈ expanded)
            | None => false
            end in
          let hasChildren := negb (bool_decide (childrenOf v = [])) in
          childNodes ←
            (if hasChildren && isExpanded then
               forEachM (λ childValue nodes,
                   skipped fuel' h childValue searchTerm ≫= λ skip : bool,
                   if skip then Ok nodes
                   else
                     childNode ←
                       createHierarchyNode fuel' h expandedNodes category
                         childValue (level + 1) searchTerm;
                     Ok (nodes ++ childNode))
                 (childrenOf v) []
             else Ok []);
          Ok ((level, filterValue) :: childNodes)
      end
  end.

(** Lines 499 to 510 of [renderTree]: under a search term every
    matching node of every level is recorded as expanded.  The set
    [expandedSet] is the one that [expandedNodes] holds for the group;
    it is written in place, and adding to it fails when the group has
    none. *)
Definition autoExpand (fuel : nat) (h : Heap) (category : FilterCategory)
  (searchTerm : string) (expandedNodes : ExpandedNodes)
  : outcome ExpandedNodes :=
  if truthy searchTerm then
    match hierarchyLevels category with
    | None => TypeError
    | Some levels =>
        if bool_decide (0 < length levels) then
          forEachM (λ '(idx, level) expandedNodes,
              forEachM (λ filterValue expandedNodes,
                  matchesSearchRecursive fuel h filterValue searchTerm
                  ≫= λ b : bool,
                  if b then
                    match h !! filterValue, expandedNodes !! name category with
                    | Some v, Some expandedSet =>
                        Ok (<[name category :=
                               {[nodeKey (name category) idx (value v)]}
                               ∪ expandedSet]> expandedNodes)
                    | _, _ => TypeError
                    end
                  else Ok expandedNodes)
                (hl_values level) expandedNodes)
            (imap pair levels) expandedNodes
        else Ok expandedNodes
    end
  else Ok expandedNodes.

(** [renderTree(searchTerm)] of the section of [category]: the expanded
    sets it leaves and the nodes it shows. *)
Definition renderTree (fuel : nat) (h : Heap) (category : FilterCategory)
  (searchTerm : string) (expandedNodes : ExpandedNodes)
  : outcome (ExpandedNodes * list (nat * Addr)) :=
  expandedNodes' ← autoExpand fuel h category searchTerm expandedNodes;
  match hierarchyLevels category with
  | None => TypeError
  | Some levels =>
      nodes ←
        match levels with
        | [] => Ok []
        | firstLevel :: _ =>
            forEachM (λ filterValue nodes,
                skipped fuel h filterValue searchTerm ≫= λ skip : bool,
                if skip then Ok nodes
                else
                  nodeItem ←
                    createHierarchyNode fuel h expandedNodes' category
                      filterValue 0 searchTerm;
                  Ok (nodes ++ nodeItem))
              (hl_values firstLevel) []
        end;
      Ok (expandedNodes', nodes)
  end.

(** [createHierarchySection(category)]: a collapsed section shows its
    header only, an open one the tree for the empty search term. *)
Definition createHierarchySection (fuel : nat) (h : Heap)
  (category : FilterCategory) (expandedNodes : ExpandedNodes)
  : outcome (ExpandedNodes * list (nat * Addr)) :=
  let expandedNodes' := initExpanded category expandedNodes in
  if collapsed category then Ok (expandedNodes', [])
  else renderTree fuel h category "" expandedNodes'.

(** [filteredValues] of [renderValues(searchTerm)] in a standalone
    section (lines 780 to 782). *)
Definition filteredValues (h : Heap) (category : FilterCategory)
  (searchTerm : string) : outcome (list Addr) :=
  if truthy searchTerm then
    forEachM (λ a kept,
        match h !! a with
        | None => TypeError
        | Some v =>
            if includes (toLowerCase (value v)) (toLowerCase searchTerm)
            then Ok (kept ++ [a]) else Ok kept
        end)
      (values category) []
  else Ok (values category).

End Search.

(** ** Collapsing a group and refreshing the data *)

Definition withCollapsed (b : bool) (c : FilterCategory) : FilterCategory :=
  mkFilterCategory (name c) (displayName c) (values c) (isHierarchy c)
    (hierarchyLevels c) (order c) b.

(** The click handler of the header of the [i]-th group:
    [category.collapsed = !category.collapsed]. *)
Definition headerClick (i : nat) (vis : Visual) : Visual :=
  mkVisual (heap vis)
    (alter (λ c, withCollapsed (negb (collapsed c)) c) i (filterCategories vis))
    (hostCalls vis).

(** [powerbi.DataView], the part that [update] reads. *)
Record DataViewCategorical : Type := mkCategorical {
  dvc_categories : option (list DataViewCategoryColumn)
}.

Record DataView : Type := mkDataView {
  dv_categorical : option DataViewCategorical
}.

(** What the menu shows after a rendering: the empty state, or one
    section per group. *)
Inductive MenuContent : Type :=
  | EmptyState
  | FilterSections (sections : list FilterCategory).

(** [renderFilters()] *)
Definition renderFilters (vis : Visual) : MenuContent :=
  match filterCategories vis with
  | [] => EmptyState
  | sections => FilterSections sections
  end.

(** [update(options)], given [options.dataViews?.[0]]. *)
Definition update (dataView : option DataView) (vis : Visual)
  : Visual * MenuContent :=
  match dataView with
  | None => (vis, EmptyState)
  | Some dv =>
      match dv_categorical dv with
      | None => (vis, EmptyState)
      | Some categorical =>
          match dvc_categories categorical with
          | None => (vis, EmptyState)
          | Some categories =>
              let vis' := processData (Some categories) vis in
              (vis', renderFilters vis')
          end
      end
  end.

(** ** Notions used to state the behaviour of search and refresh *)

(** The key of the node at [a] contains the search term, case folded. *)
Definition keyMatches (toLowerCase : string → string) (h : Heap)
  (searchTerm : string) (a : Addr) : Prop :=
  ∃ v, h !! a = Some v
       ∧ includes (toLowerCase (value v)) (toLowerCase searchTerm) = true.

(** The node at [a] or a node below it has a matching key. *)
Definition matchesBelow (toLowerCase : string → string) (h : Heap)
  (searchTerm : string) (a : Addr) : Prop :=
  keyMatches toLowerCase h searchTerm a
  ∨ ∃ d, descendant h a d ∧ keyMatches toLowerCase h searchTerm d.

(** [x] is a node of the first level or lies below one. *)
Definition underRoot (h : Heap) (levels : list HierarchyLevel) (x : Addr)
  : Prop :=
  reached h (levelValues levels 0) x.

(** The nodes below [a] that a search shows once it shows [a]: those
    with a match at or below them, each with its level. *)
Definition shownBelow (toLowerCase : string → string) (h : Heap)
  (levels : list HierarchyLevel) (searchTerm : string) (a : Addr)
  (y : nat * Addr) : Prop :=
  descendant h a y.2 ∧ y.2 ∈ levelValues levels y.1
  ∧ matchesBelow toLowerCase h searchTerm y.2.

(** [k] is the expansion key, for level [idx], of a node among [vals]
    that has a match at or below it. *)
Definition matchingKey (toLowerCase : string → string) (h : Heap)
  (searchTerm categoryName : string) (idx : nat) (vals : list Addr)
  (k : string) : Prop :=
  ∃ a v, a ∈ vals ∧ h !! a = Some v
         ∧ matchesBelow toLowerCase h searchTerm a
         ∧ k = nodeKey categoryName idx (value v).

(** Every node with a match at or below it is recorded as expanded. *)
Definition matchesExpanded (toLowerCase : string → string) (h : Heap)
  (levels : list HierarchyLevel) (searchTerm : string)
  (category : FilterCategory) (expandedNodes : ExpandedNodes) : Prop :=
  ∃ s, expandedNodes !! name category = Some s
       ∧ ∀ i a v, a ∈ levelValues levels i → h !! a = Some v →
           matchesBelow toLowerCase h searchTerm a →
           nodeKey (name category) i (value v) ∈ s.

(** The columns that an item of the grouping holds. *)
Definition itemColumns (item : OrderItem) : list DataViewCategoryColumn :=
  match item with
  | Hierarchy _ _ categories => categories
  | Single _ _ category => [category]
  end.

(** The fields that have a lineage key, and one that occurs among the
    keys [seen]. *)
Definition keyed (seen : list (option string)) (c : DataViewCategoryColumn)
  : Prop :=
  is_Some (lineage c) ∧ lineage c ∈ seen.

#[global] Instance keyed_dec seen c : Decision (keyed seen c).
Proof. unfold keyed. apply _. Defined.

(** The value nodes that a group holds: its [values] and the values of
    its levels. *)
Definition groupNodes (cat : FilterCategory) : list Addr :=
  values cat ++ mjoin (hl_values <$> default [] (hierarchyLevels cat)).

(** [id] is the identity of a selected node of one of the groups. *)
Definition selectedNode (h : Heap) (cats : list FilterCategory)
  (id : ISelectionId) : Prop :=
  ∃ cat a v, cat ∈ cats ∧ a ∈ groupNodes cat ∧ h !! a = Some v
             ∧ selected v = true ∧ identity v = id.

(** The nodes allocated from [base] on are unselected, and the groups
    hold nodes allocated from [base] on. *)
Definition freshFrom (base : nat) (vis : Visual) : Prop :=
  base ≤ length (heap vis)
  ∧ (∀ a v, base ≤ a → heap vis !! a = Some v →
       selected v = false ∧ indeterminate v = None)
  ∧ ∀ cat a, cat ∈ filterCategories vis → a ∈ groupNodes cat →
      base ≤ a < length (heap vis).

(** The call mints an identity token. *)
Definition isMint (call : HostCall) : bool :=
  match call with
  | CreateSelectionId _ _ => true
  | _ => false
  end.

(** The columns of a data view, when it carries any. *)
Definition columnsOf (dataView : option DataView)
  : option (list DataViewCategoryColumn) :=
  dv ← dataView; categorical ← dv_categorical dv; dvc_categories categorical.
(** ** Sample data *)

(** The fruit hierarchy of the scenarios, next to a standalone filter. *)
Module Sample.

Definition column (display query : string) (cells : list string)
  : DataViewCategoryColumn :=
  mkColumn (mkSource (Some display) (Some query)) (Some <$> cells).

Definition kind : DataViewCategoryColumn :=
  column "Food.Kind" "Food.Kind" ["Fruit"; "Fruit"; "Veg"].

Definition item : DataViewCategoryColumn :=
  column "Food.Item" "Food.Item" ["Apple"; "Banana"; "Carrot"].

Definition shop : DataViewCategoryColumn :=
  column "Shop" "Shop.Name" ["North"; "South"; "North"].

Definition empty : Visual := mkVisual [] [] [].

(** The heap holds Fruit, Veg, Apple, Banana, Carrot, North, South at
    the addresses 0 to 6. *)
Definition built : Visual := processData (Some [kind; item; shop]) empty.

Definition foodLevels : list HierarchyLevel :=
  [mkHierarchyLevel "Food.Kind" [0; 1] 0;
   mkHierarchyLevel "Food.Item" [2; 3; 4] 1].

Definition food : FilterCategory :=
  mkFilterCategory "Food" "Food" [] true (Some foodLevels) 0 false.

Definition shopFilter : FilterCategory :=
  mkFilterCategory "Shop" "Shop" [5; 6] false None 1 false.

End Sample.

(** Two fields of the lineage Food whose display names start with Menu,
    and a field of the lineage Shop without a display name. *)
Module Naming.

Definition kind : DataViewCategoryColumn :=
  Sample.column "Menu.Kind" "Food.Kind" ["Fruit"; "Fruit"; "Veg"].

Definition item : DataViewCategoryColumn :=
  Sample.column "Menu.Item" "Food.Item" ["Apple"; "Banana"; "Carrot"].

Definition shop : DataViewCategoryColumn :=
  mkColumn (mkSource None (Some "Shop.Name"))
    [Some "North"; Some "South"; Some "North"].

End Naming.

(** Three levels in which the key A names a root and also a node of the
    middle level: rows (A, B, x) and (C, A, y). *)
Module Collision.

Definition top : DataViewCategoryColumn :=
  Sample.column "Tree.Top" "Tree.Top" ["A"; "C"].

Definition middle : DataViewCategoryColumn :=
  Sample.column "Tree.Middle" "Tree.Middle" ["B"; "A"].

Definition leaf : DataViewCategoryColumn :=
  Sample.column "Tree.Leaf" "Tree.Leaf" ["x"; "y"].

(** The heap holds A, C, B, A, x, y at the addresses 0 to 5. *)
Definition built : Visual := processData (Some [top; middle; leaf]) Sample.empty.

Definition treeLevels : list HierarchyLevel :=
  [mkHierarchyLevel "Tree.Top" [0; 1] 0;
   mkHierarchyLevel "Tree.Middle" [2; 3] 1;
   mkHierarchyLevel "Tree.Leaf" [4; 5] 2].

Definition tree : FilterCategory :=
  mkFilterCategory "Tree" "Tree" [] true (Some treeLevels) 0 false.

End Collision.

(** A node whose [parentValue] names no node of its group. *)
Module Stale.

Definition token : ISelectionId := mkSelectionId Sample.kind 0.

Definition store : Heap :=
  [mkFilterValue "Root" token false None (Some []) None;
   mkFilterValue "Orphan" token false None (Some []) (Some "Ghost")].

Definition staleLevels : list HierarchyLevel :=
  [mkHierarchyLevel "Top" [0] 0; mkHierarchyLevel "Bottom" [1] 1].

End Stale.

(** A child that occurs under two parents, the first parent again in
    the last row: rows (P1, C), (P2, C), (P1, C). *)
Module Shared.

Definition parents : DataViewCategoryColumn :=
  Sample.column "Org.Unit" "Org.Unit" ["P1"; "P2"; "P1"].

Definition members : DataViewCategoryColumn :=
  Sample.column "Org.Member" "Org.Member" ["C"; "C"; "C"].

(** The heap holds P1, P2, C at the addresses 0 to 2. *)
Definition built : Visual := processData (Some [parents; members]) Sample.empty.

(** The level maps and the heap that the first pass leaves, and the
    heap after the second pass. *)
Definition maps : list (JsMap Addr) := [[("P1", 0); ("P2", 1)]; [("C", 2)]].

Definition nodes : Heap := levelNodes parents ++ levelNodes members.

Definition linked : Heap := secondPass [parents; members] maps nodes.

End Shared.

(** A parent whose key is the empty string: rows ("", a), ("", b). *)
Module EmptyKey.

Definition top : DataViewCategoryColumn :=
  Sample.column "Tag.Top" "Tag.Top" [""; ""].

Definition leaf : DataViewCategoryColumn :=
  Sample.column "Tag.Leaf" "Tag.Leaf" ["a"; "b"].

(** The heap holds the empty-keyed parent, a, b at the addresses 0 to 2. *)
Definition built : Visual := processData (Some [top; leaf]) Sample.empty.

Definition tagLevels : list HierarchyLevel :=
  [mkHierarchyLevel "Tag.Top" [0] 0; mkHierarchyLevel "Tag.Leaf" [1; 2] 1].

Definition tag : FilterCategory :=
  mkFilterCategory "Tag" "Tag" [] true (Some tagLevels) 0 false.

End EmptyKey.

(** A session on the sample data: case folding for the search box, two
    of the value nodes, and states that the operations are run from. *)
Module Session.

(** [toLowerCase] on the letters A to Z; the sample keys and search
    terms hold no other cased character. *)
Definition lowerChar (c : ascii) : ascii :=
  let n := nat_of_ascii c in
  if (65 <=? n) && (n <=? 90) then ascii_of_nat (n + 32) else c.

Fixpoint lower (s : string) : string :=
  match s with
  | EmptyString => EmptyString
  | String c s' => String (lowerChar c) (lower s')
  end.

(** The node of Apple, at address 2, and the node of North, at
    address 5, as [processData] leaves them. *)
Definition apple : FilterValue :=
  mkFilterValue "Apple" (mkSelectionId Sample.item 0) false None (Some [])
    (Some "Fruit").

Definition north : FilterValue :=
  mkFilterValue "North" (mkSelectionId Sample.shop 0) false None None None.

(** The expanded sets once the section of the fruit hierarchy has been
    created: no node is expanded. *)
Definition nothing : gset string := ∅.

Definition sets : ExpandedNodes := initExpanded Sample.food ∅.

(** The sample with North selected. *)
Definition northSelected : Visual :=
  mkVisual (alter (withSelected true) 5 (heap Sample.built))
    (filterCategories Sample.built) (hostCalls Sample.built).

(** The sample after a clear of the standalone filter. *)
Definition cleared : Visual :=
  mkVisual (clearValues [5; 6] (heap Sample.built))
    (filterCategories Sample.built)
    (hostCalls Sample.built ++ [Clear]).

End Session.

(** * Properties *)

(** ** The heap under flag writes *)

Lemma sameShape_refl h : sameShape h h.
Proof. done. Qed.

Lemma sameShape_trans h1 h2 h3 :
  sameShape h1 h2 → sameShape h2 h3 → sameShape h1 h3.
Proof. unfold sameShape. congruence. Qed.

Lemma sameShape_sym h1 h2 : sameShape h1 h2 → sameShape h2 h1.
Proof. unfold sameShape. congruence. Qed.

Lemma sameShape_lookup h h' a :
  sameShape h h' → shape <$> h !! a = shape <$> h' !! a.
Proof. intros E. rewrite <- !list_lookup_fmap. by rewrite E. Qed.

Lemma sameShape_length h h' : sameShape h h' → length h = length h'.
Proof.
  intros E. rewrite <- (length_fmap shape h), <- (length_fmap shape h').
  by rewrite E.
Qed.

Lemma sameShape_kids h h' a : sameShape h h' → kids h a = kids h' a.
Proof.
  intros E. apply (sameShape_lookup _ _ a) in E. unfold kids.
  destruct (h !! a) as [v|], (h' !! a) as [v'|]; simplify_eq/=; try done.
  unfold childrenOf. congruence.
Qed.

Lemma sameShape_valueAt h h' a : sameShape h h' → valueAt h a = valueAt h' a.
Proof.
  intros E. apply (sameShape_lookup _ _ a) in E. unfold valueAt.
  destruct (h !! a) as [v|], (h' !! a) as [v'|]; simplify_eq/=; try done.
  congruence.
Qed.

Lemma sameShape_parentValueAt h h' a :
  sameShape h h' → parentValueAt h a = parentValueAt h' a.
Proof.
  intros E. apply (sameShape_lookup _ _ a) in E. unfold parentValueAt.
  destruct (h !! a) as [v|], (h' !! a) as [v'|]; simplify_eq/=; try done.
Qed.

Lemma sameShape_alter f a h :
  (∀ v, shape (f v) = shape v) → sameShape h (alter f a h).
Proof.
  intros Hf. unfold sameShape.
  rewrite (list_fmap_alter shape f id)
    by (apply Forall_forall; intros; apply Hf).
  by rewrite list_alter_id.
Qed.

Lemma shape_withSelected b v : shape (withSelected b v) = shape v.
Proof. done. Qed.

Lemma shape_cascadeMark b v : shape (cascadeMark b v) = shape v.
Proof. done. Qed.

Lemma shape_recompute h p v : shape (recompute h p v) = shape v.
Proof. unfold recompute. by repeat case_match. Qed.

Lemma sameShape_findValue h h' vals key :
  sameShape h h' → findValue h vals key = findValue h' vals key.
Proof.
  intros E. unfold findValue. f_equal. apply list_find_ext.
  intros a. by rewrite (sameShape_valueAt h h' a E).
Qed.

Lemma sameShape_findParent h h' levels key :
  sameShape h h' → findParent h levels key = findParent h' levels key.
Proof.
  intros E. induction levels as [|lv levels IH]; [done|]. simpl.
  rewrite (sameShape_findValue h h' _ _ E), IH.
  destruct (findValue h' (hl_values lv) key) as [p|]; [|done].
  by rewrite (sameShape_kids h h' p E).
Qed.

Lemma sameShape_parentChain fuel h h' levels key :
  sameShape h h' → parentChain fuel h levels key = parentChain fuel h' levels key.
Proof.
  intros E. revert key. induction fuel as [|fuel IH]; intros key; [done|].
  simpl. rewrite (sameShape_findParent h h' _ _ E).
  destruct (findParent h' levels key) as [p|]; [|done].
  rewrite (sameShape_parentValueAt h h' p E).
  destruct (parentValueAt h' p) as [k|]; [|done].
  by rewrite IH.
Qed.

Lemma sameShape_descendant h h' a d :
  sameShape h h' → descendant h a d → descendant h' a d.
Proof.
  intros E D. induction D as [a c Hc|a c d Hc _ IH].
  - apply descendant_child. by rewrite <- (sameShape_kids h h' a E).
  - eapply descendant_step; [|done]. by rewrite <- (sameShape_kids h h' a E).
Qed.

Lemma sameShape_wfNode h h' levels i a :
  sameShape h h' → wfNode h levels i a = wfNode h' levels i a.
Proof.
  intros E. unfold wfNode.
  rewrite (sameShape_length h h' E), (sameShape_kids h h' a E),
    (sameShape_parentValueAt h h' a E).
  do 2 f_equal. destruct (parentValueAt h' a) as [k|]; [|done].
  destruct i as [|j]; [done|].
  induction (levelValues levels j) as [|p l IH]; [done|]. simpl.
  by rewrite IH, (sameShape_valueAt h h' p E), (sameShape_kids h h' p E).
Qed.

Lemma sameShape_wfHierarchy h h' levels :
  sameShape h h' → wfHierarchy h levels = wfHierarchy h' levels.
Proof.
  intros E. unfold wfHierarchy. f_equal.
  induction (seq 0 (length levels)) as [|i l IH]; [done|]. simpl.
  rewrite IH. do 2 f_equal.
  - assert (valueAt h <$> levelValues levels i
            = valueAt h' <$> levelValues levels i) as ->; [|done].
    apply list_fmap_ext. intros ???. by apply sameShape_valueAt.
  - induction (levelValues levels i) as [|a l' IH']; [done|]. simpl.
    by rewrite IH', (sameShape_wfNode h h' levels i a E).
Qed.

(** ** The downward cascade *)

Lemma descendant_reached h a x : descendant h a x ↔ reached h (kids h a) x.
Proof.
  split.
  - intros D. inversion D; subst; [by left|right; eauto].
  - intros [Hx|(c & Hc & D)]; [by apply descendant_child|].
    by eapply descendant_step.
Qed.

Lemma cascaded_sameShape s D h h' : cascaded s D h h' → sameShape h h'.
Proof.
  intros C. apply list_eq. intros x. rewrite !list_lookup_fmap.
  destruct (C x) as [[_ ->]|[_ ->]]; [|done]. by destruct (h !! x).
Qed.

Lemma cascadeMark_twice s (o : option FilterValue) :
  cascadeMark s <$> (cascadeMark s <$> o) = cascadeMark s <$> o.
Proof. by destruct o. Qed.

Lemma lookup_alter_mark s a x (h : Heap) :
  alter (cascadeMark s) a h !! x
  = if decide (a = x) then cascadeMark s <$> h !! x else h !! x.
Proof.
  case_decide as E; [subst; apply list_lookup_alter_eq|].
  by apply list_lookup_alter_ne.
Qed.

Section CascadeLoop.

Variables (fuel : nat) (s : bool).

Hypothesis cascade_below : ∀ a h h',
  cascadeSelectionToDescendants fuel a s h = Ok h' →
  cascaded s (descendant h a) h h'.

Lemma cascade_children cs : ∀ h0 h1 h2,
  sameShape h0 h1 →
  forEachM (λ child h,
      cascadeSelectionToDescendants fuel child s
        (alter (cascadeMark s) child h)) cs h1 = Ok h2 →
  cascaded s (reached h0 cs) h1 h2.
Proof.
  induction cs as [|c cs IH]; intros h0 h1 h2 E0 Run; simpl in Run.
  - injection Run as <-. intros x. right. split; [|done].
    intros [Hx|(c & Hc & _)]; by apply elem_of_nil in Hx || apply elem_of_nil in Hc.
  - destruct (cascadeSelectionToDescendants fuel c s
                (alter (cascadeMark s) c h1)) as [hc| |] eqn:Ec;
      simpl in Run; try discriminate.
    apply cascade_below in Ec.
    assert (sameShape h0 (alter (cascadeMark s) c h1)) as E1.
    { eapply sameShape_trans; [done|]. by apply sameShape_alter. }
    assert (sameShape h0 hc) as E2.
    { eapply sameShape_trans; [done|]. by eapply cascaded_sameShape. }
    specialize (IH h0 hc h2 E2 Run). intros x.
    assert (descendant h0 c x ↔ descendant (alter (cascadeMark s) c h1) c x)
      as Hd.
    { split; apply sameShape_descendant; [done|by apply sameShape_sym]. }
    destruct (IH x) as [[D2 ->]|[N2 ->]], (Ec x) as [[D1 ->]|[N1 ->]];
      rewrite ?lookup_alter_mark; case_decide as Ecx; subst;
      rewrite ?cascadeMark_twice.
    all: try (left; split; [|done]).
    all: try (destruct D2 as [?|(c' & ? & ?)];
              [left; by apply elem_of_cons; right
              |right; exists c'; split; [by apply elem_of_cons; right|done]]).
    all: try (right; exists c; split; [by apply elem_of_cons; left|by apply Hd]).
    all: try (left; by apply elem_of_cons; left).
    right. split; [|done].
    intros [Hx|(c' & Hc' & D)].
    + apply elem_of_cons in Hx as [->|Hx]; [done|]. apply N2. by left.
    + apply elem_of_cons in Hc' as [->|Hc'].
      * by apply N1, Hd.
      * apply N2. right. eauto.
Qed.

End CascadeLoop.

Lemma cascade_spec fuel s : ∀ a h h',
  cascadeSelectionToDescendants fuel a s h = Ok h' →
  cascaded s (descendant h a) h h'.
Proof.
  induction fuel as [|fuel IH]; intros a h h' Run; [done|].
  simpl in Run.
  apply (cascade_children fuel s IH _ h) in Run; [|done].
  intros x. destruct (Run x) as [[D ?]|[N ?]]; [left|right]; split; try done.
  - by apply descendant_reached.
  - intros D. by apply N, descendant_reached.
Qed.

Lemma sameShape_depthWithin h h' n : ∀ a,
  sameShape h h' → depthWithin h n a → depthWithin h' n a.
Proof.
  induction n as [|n IH]; intros a E; [done|]. simpl.
  rewrite <- (sameShape_kids h h' a E). intros F.
  eapply Forall_impl; [done|]. eauto.
Qed.

Lemma cascade_total fuel s : ∀ a h,
  depthWithin h fuel a →
  ∃ h', cascadeSelectionToDescendants fuel a s h = Ok h'.
Proof.
  induction fuel as [|fuel IH]; intros a h Hd; [done|]. simpl in *.
  assert (∀ cs h1, sameShape h h1 → Forall (depthWithin h fuel) cs →
    ∃ h', forEachM (λ child h,
      cascadeSelectionToDescendants fuel child s
        (alter (cascadeMark s) child h)) cs h1 = Ok h') as Loop.
  { induction cs as [|c cs IHcs]; intros h1 E F; simpl; [by eexists|].
    apply Forall_cons in F as [Hc F].
    destruct (IH c (alter (cascadeMark s) c h1)) as [hc Ec].
    { eapply sameShape_depthWithin; [|done].
      eapply sameShape_trans; [done|]. by apply sameShape_alter. }
    rewrite Ec. simpl. apply IHcs; [|done].
    eapply sameShape_trans; [done|].
    eapply sameShape_trans; [by apply (sameShape_alter (cascadeMark s) c)|].
    eapply cascaded_sameShape, cascade_spec, Ec. }
  by apply Loop.
Qed.

(** ** Levels of a well-formed hierarchy *)

Lemma concat_level_unique (ls : list (list nat)) : ∀ i j l1 l2 a,
  NoDup (mjoin ls) → ls !! i = Some l1 → ls !! j = Some l2 →
  a ∈ l1 → a ∈ l2 → i = j.
Proof.
  induction ls as [|l ls IH]; intros i j l1 l2 a ND Hi Hj H1 H2; [done|].
  simpl in ND. apply NoDup_app in ND as (_ & Hdis & ND).
  assert (∀ n l', ls !! n = Some l' → a ∈ l' → a ∈ mjoin ls) as In.
  { intros n l' Hn Ha. apply list_elem_of_join. exists l'. split; [done|].
    by eapply list_elem_of_lookup_2. }
  destruct i as [|i], j as [|j]; simplify_eq/=; try done.
  - exfalso. eapply Hdis; [done|]. by eapply In.
  - exfalso. eapply Hdis; [done|]. by eapply In.
  - f_equal. by eapply IH.
Qed.

Lemma levelValues_lt levels i a : a ∈ levelValues levels i → i < length levels.
Proof.
  unfold levelValues. intros Ha.
  destruct (levels !! i) as [lv|] eqn:E; [by eapply lookup_lt_Some|].
  by apply elem_of_nil in Ha.
Qed.

Section WellFormed.

Variables (h : Heap) (levels : list HierarchyLevel).

Hypothesis wf : wfHierarchy h levels = true.

Lemma wf_level_unique i j a :
  a ∈ levelValues levels i → a ∈ levelValues levels j → i = j.
Proof.
  unfold wfHierarchy in wf. apply andb_prop in wf as [ND _].
  apply bool_decide_eq_true in ND. unfold levelValues. intros Hi Hj.
  destruct (levels !! i) as [li|] eqn:Ei; [|by apply elem_of_nil in Hi].
  destruct (levels !! j) as [lj|] eqn:Ej; [|by apply elem_of_nil in Hj].
  eapply (concat_level_unique _ i j (hl_values li) (hl_values lj) a);
    [done| | |done|done].
  - by rewrite list_lookup_fmap, Ei.
  - by rewrite list_lookup_fmap, Ej.
Qed.

Lemma wf_level i :
  i < length levels →
  NoDup (valueAt h <$> levelValues levels i)
  ∧ ∀ a, a ∈ levelValues levels i → wfNode h levels i a = true.
Proof.
  intros Hi. unfold wfHierarchy in wf. apply andb_prop in wf as [_ F].
  rewrite forallb_forall in F.
  assert (In i (seq 0 (length levels))) as Hin
    by (apply list_elem_of_In, elem_of_seq; lia).
  apply F in Hin as [ND F']%andb_prop.
  apply bool_decide_eq_true in ND. split; [done|].
  intros a Ha. rewrite forallb_forall in F'. by apply F', list_elem_of_In.
Qed.

Lemma wf_keys i : NoDup (valueAt h <$> levelValues levels i).
Proof.
  destruct (decide (i < length levels)) as [Hi|Hi]; [by apply wf_level|].
  unfold levelValues. rewrite lookup_ge_None_2 by lia. constructor.
Qed.

Lemma wf_node i a : a ∈ levelValues levels i → wfNode h levels i a = true.
Proof. intros Ha. by apply wf_level; [eapply levelValues_lt|]. Qed.

Lemma wf_valid i a : a ∈ levelValues levels i → a < length h.
Proof.
  intros Ha. apply wf_node in Ha. unfold wfNode in Ha.
  apply andb_prop in Ha as [[Ha _]%andb_prop _].
  by apply bool_decide_eq_true in Ha.
Qed.

Lemma wf_kids i a c :
  a ∈ levelValues levels i → c ∈ kids h a → c ∈ levelValues levels (S i).
Proof.
  intros Ha Hc. apply wf_node in Ha. unfold wfNode in Ha.
  apply andb_prop in Ha as [[_ Hk]%andb_prop _].
  rewrite forallb_forall in Hk. apply list_elem_of_In, Hk in Hc.
  by apply bool_decide_eq_true in Hc.
Qed.

Lemma wf_parent i a k :
  a ∈ levelValues levels i → parentValueAt h a = Some k →
  ∃ j p, i = S j ∧ p ∈ levelValues levels j ∧ valueAt h p = Some k
         ∧ a ∈ kids h p.
Proof.
  intros Ha Hk. apply wf_node in Ha. unfold wfNode in Ha.
  apply andb_prop in Ha as [_ Hp]. rewrite Hk in Hp.
  destruct i as [|j]; [done|].
  apply existsb_exists in Hp as (p & Hp & [H1 H2]%andb_prop).
  apply bool_decide_eq_true in H1, H2. apply list_elem_of_In in Hp.
  by exists j, p.
Qed.

Lemma wf_descendant_level a d :
  descendant h a d →
  ∀ i, a ∈ levelValues levels i → ∃ j, i < j ∧ d ∈ levelValues levels j.
Proof.
  induction 1 as [a c Hc|a c d Hc _ IH]; intros i Ha.
  - exists (S i). split; [lia|]. by eapply wf_kids.
  - destruct (IH (S i)) as (j & Hj & Hd); [by eapply wf_kids|].
    exists j. split; [lia|done].
Qed.

Lemma wf_not_own_descendant i a :
  a ∈ levelValues levels i → ¬ descendant h a a.
Proof.
  intros Ha D. destruct (wf_descendant_level a a D i Ha) as (j & Hj & Ha').
  assert (i = j) by by eapply wf_level_unique. lia.
Qed.

Lemma wf_depthWithin n : ∀ i a,
  a ∈ levelValues levels i → length levels ≤ i + n → depthWithin h n a.
Proof.
  induction n as [|n IH]; intros i a Ha Hn.
  - apply levelValues_lt in Ha. lia.
  - simpl. apply Forall_forall. intros c Hc. apply (IH (S i)); [|lia].
    by eapply wf_kids.
Qed.

End WellFormed.

(** ** The lookup of a parent *)

Lemma findValue_Some h vals key p :
  findValue h vals key = Some p → p ∈ vals ∧ valueAt h p = Some key.
Proof.
  unfold findValue. intros E.
  destruct (list_find _ vals) as [[i q]|] eqn:F; simplify_eq/=.
  apply list_find_Some in F as (Hi & Hq & _). split; [|done].
  by eapply list_elem_of_lookup_2.
Qed.

Lemma findValue_None h vals key p :
  findValue h vals key = None → p ∈ vals → valueAt h p ≠ Some key.
Proof.
  unfold findValue. intros E Hp.
  destruct (list_find _ vals) as [[i q]|] eqn:F; simplify_eq/=.
  apply list_find_None in F. rewrite Forall_forall in F. by apply F.
Qed.

Lemma findValue_unique h vals key p :
  NoDup (valueAt h <$> vals) → p ∈ vals → valueAt h p = Some key →
  findValue h vals key = Some p.
Proof.
  intros ND Hp Hk. destruct (findValue h vals key) as [q|] eqn:F.
  - apply findValue_Some in F as [Hq Hk']. f_equal.
    apply list_elem_of_lookup in Hp as [i Hi], Hq as [j Hj].
    assert (i = j) as ->; [|congruence].
    eapply (NoDup_lookup _ i j (Some key)); [done| |];
      rewrite list_lookup_fmap; [rewrite Hi|rewrite Hj]; simpl; by f_equal.
  - exfalso. by eapply findValue_None.
Qed.

Lemma findParent_Some h levels key p :
  findParent h levels key = Some p →
  ∃ j, p ∈ levelValues levels j ∧ valueAt h p = Some key ∧ kids h p ≠ [].
Proof.
  induction levels as [|lv levels IH]; [done|]. simpl. intros E.
  assert (findParent h levels key = Some p →
    ∃ j, p ∈ levelValues (lv :: levels) j ∧ valueAt h p = Some key
         ∧ kids h p ≠ []) as Rest.
  { intros (j & ? & ? & ?)%IH. by exists (S j). }
  destruct (findValue h (hl_values lv) key) as [q|] eqn:F; [|by apply Rest].
  case_bool_decide as Hk; [by apply Rest|]. simplify_eq.
  apply findValue_Some in F as [??]. by exists 0.
Qed.

Lemma findParent_first h levels key : ∀ j0 p0,
  p0 ∈ levelValues levels j0 →
  findValue h (levelValues levels j0) key = Some p0 → kids h p0 ≠ [] →
  ∃ p j, findParent h levels key = Some p ∧ j ≤ j0
         ∧ p ∈ levelValues levels j.
Proof.
  induction levels as [|lv levels IH]; intros j0 p0 H0 F0 K0.
  { by apply elem_of_nil in H0. }
  simpl.
  assert (∀ j, j0 = S j →
    ∃ p j', findParent h levels key = Some p ∧ j' ≤ j0
            ∧ p ∈ levelValues (lv :: levels) j') as Rest.
  { intros j ->. destruct (IH j p0) as (p & j' & ? & ? & ?); [done..|].
    exists p, (S j'). split_and!; [done|lia|done]. }
  destruct (findValue h (hl_values lv) key) as [q|] eqn:F.
  - case_bool_decide as Hk.
    + destruct j0 as [|j]; [|by eapply Rest].
      unfold levelValues in F0. simpl in F0. congruence.
    + exists q, 0. split_and!; [done|lia|].
      by apply findValue_Some in F as [??].
  - destruct j0 as [|j]; [|by eapply Rest].
    unfold levelValues in F0. simpl in F0. congruence.
Qed.

(** ** The upward recomputation *)

Lemma update_recomputeAll fuel levels : ∀ key h h',
  updateParentSelectionRecursive fuel levels key h = Ok h' →
  h' = recomputeAll (parentChain fuel h levels key) h.
Proof.
  induction fuel as [|fuel IH]; intros key h h' Run; [done|]. simpl in *.
  destruct (findParent h levels key) as [p|]; [|by simplify_eq].
  assert (sameShape h (alter (recompute h p) p h)) as E
    by apply sameShape_alter, shape_recompute.
  rewrite <- (sameShape_parentValueAt _ _ p E) in Run.
  destruct (parentValueAt h p) as [k|]; [|by simplify_eq].
  destruct (truthy k); [|by simplify_eq].
  apply IH in Run. simpl. by rewrite (sameShape_parentChain _ _ _ _ _ E).
Qed.

Lemma descending_level levels n chain q :
  descending levels n chain → q ∈ chain →
  ∃ j, j < n ∧ q ∈ levelValues levels j.
Proof.
  induction 1 as [|n j p rest Hj Hp _ IH]; intros Hq.
  { by apply elem_of_nil in Hq. }
  apply elem_of_cons in Hq as [->|Hq]; [by exists j|].
  destruct (IH Hq) as (j' & ? & ?). exists j'. split; [lia|done].
Qed.

Lemma kids_nonempty (h : Heap) p a : a ∈ kids h p → kids h p ≠ [].
Proof. intros Ha E. rewrite E in Ha. by apply elem_of_nil in Ha. Qed.

Lemma parentChain_descending h levels fuel :
  wfHierarchy h levels = true →
  ∀ key n j0 p0,
    p0 ∈ levelValues levels j0 → j0 < n → valueAt h p0 = Some key →
    kids h p0 ≠ [] →
    descending levels n (parentChain fuel h levels key).
Proof.
  intros wf. induction fuel as [|fuel IH]; intros key n j0 p0 H0 Hn Hk Hc.
  { constructor. }
  simpl.
  destruct (findParent_first h levels key j0 p0) as (p & j & -> & Hj & Hp);
    [done| |done|].
  { apply findValue_unique; [by apply wf_keys|done..]. }
  apply (descending_cons _ n j); [lia|done|].
  destruct (parentValueAt h p) as [k|] eqn:Ek; [|constructor].
  destruct (truthy k); [|constructor].
  destruct (wf_parent h levels wf j p k Hp Ek) as (j' & p' & -> & Hp' & Hk' & Hin).
  apply (IH k (S j') j' p'); [done|lia|done|by eapply kids_nonempty].
Qed.

Lemma update_total levels fuel :
  ∀ h key j0 p0,
    wfHierarchy h levels = true →
    p0 ∈ levelValues levels j0 → j0 < fuel → valueAt h p0 = Some key →
    kids h p0 ≠ [] →
    ∃ h', updateParentSelectionRecursive fuel levels key h = Ok h'.
Proof.
  induction fuel as [|fuel IH]; intros h key j0 p0 wf H0 Hn Hk Hc; [lia|].
  simpl.
  destruct (findParent_first h levels key j0 p0) as (p & j & -> & Hj & Hp);
    [done| |done|].
  { apply findValue_unique; [by apply wf_keys|done..]. }
  assert (sameShape h (alter (recompute h p) p h)) as E
    by apply sameShape_alter, shape_recompute.
  rewrite <- (sameShape_parentValueAt _ _ p E).
  destruct (parentValueAt h p) as [k|] eqn:Ek; [|by eexists].
  destruct (truthy k); [|by eexists].
  destruct (wf_parent h levels wf j p k Hp Ek) as (j' & p' & -> & Hp' & Hk' & Hin).
  apply (IH _ k j' p'); [|done|lia| |].
  - by rewrite <- (sameShape_wfHierarchy _ _ _ E).
  - by rewrite <- (sameShape_valueAt _ _ _ E).
  - rewrite <- (sameShape_kids _ _ _ E). by eapply kids_nonempty.
Qed.

(** *** Recomputing along a chain *)

Lemma sameShape_separated h h' chain :
  sameShape h h' → separated h chain → separated h' chain.
Proof.
  intros E. induction 1 as [|p rest Hv Hp Hpk Hq _ IH]; constructor; try done.
  - apply (sameShape_lookup _ _ p) in E.
    destruct Hv as [v Hv]. rewrite Hv in E. by destruct (h' !! p).
  - by rewrite <- (sameShape_kids _ _ _ E).
  - intros q ?. rewrite <- (sameShape_kids _ _ _ E). by apply Hq.
Qed.

Lemma descending_separated h levels n chain :
  wfHierarchy h levels = true →
  descending levels n chain → separated h chain.
Proof.
  intros wf. induction 1 as [|n j p rest Hj Hp D IH]; constructor; try done.
  - apply lookup_lt_is_Some. by eapply wf_valid.
  - intros Hin. destruct (descending_level _ _ _ _ D Hin) as (j' & ? & ?).
    assert (j = j') by by eapply wf_level_unique. lia.
  - intros Hin. apply (wf_kids h levels wf j) in Hin; [|done].
    assert (j = S j) by by eapply wf_level_unique. lia.
  - intros q Hq Hin. apply (wf_kids h levels wf j) in Hin; [|done].
    destruct (descending_level _ _ _ _ D Hq) as (j' & ? & ?).
    assert (S j = j') by by eapply wf_level_unique. lia.
Qed.

Lemma recomputeAll_sameShape chain : ∀ h, sameShape h (recomputeAll chain h).
Proof.
  induction chain as [|p chain IH]; intros h; [done|]. simpl.
  eapply sameShape_trans; [|apply IH]. apply sameShape_alter, shape_recompute.
Qed.

Lemma recomputeAll_other chain : ∀ (h : Heap) x,
  x ∉ chain → recomputeAll chain h !! x = h !! x.
Proof.
  induction chain as [|p chain IH]; intros h x Hx; [done|]. simpl.
  apply not_elem_of_cons in Hx as [Hxp Hx]. rewrite IH by done.
  by apply list_lookup_alter_ne.
Qed.

Lemma flagsAt_lookup (h h' : Heap) x :
  h !! x = h' !! x → flagsAt h x = flagsAt h' x.
Proof. unfold flagsAt, selectedAt, indeterminateAt. by intros ->. Qed.

Lemma forallb_ext_in {A} (f g : A → bool) (l : list A) :
  (∀ x, x ∈ l → f x = g x) → forallb f l = forallb g l.
Proof.
  induction l as [|x l IH]; intros E; [done|]. simpl.
  rewrite E by (by left). rewrite IH; [done|]. intros ??. apply E. by right.
Qed.

Lemma existsb_ext_in {A} (f g : A → bool) (l : list A) :
  (∀ x, x ∈ l → f x = g x) → existsb f l = existsb g l.
Proof.
  induction l as [|x l IH]; intros E; [done|]. simpl.
  rewrite E by (by left). rewrite IH; [done|]. intros ??. apply E. by right.
Qed.

Lemma derivedFlags_ext h h' p :
  kids h p = kids h' p →
  (∀ c, c ∈ kids h p → flagsAt h c = flagsAt h' c) →
  derivedFlags h p = derivedFlags h' p.
Proof.
  intros Ek Ef. unfold derivedFlags. rewrite <- Ek.
  rewrite (forallb_ext_in (selectedAt h) (selectedAt h')).
  2: { intros c Hc. apply Ef in Hc. unfold flagsAt in Hc. congruence. }
  rewrite (existsb_ext_in (λ c, selectedAt h c || indeterminateAt h c)
             (λ c, selectedAt h' c || indeterminateAt h' c)); [done|].
  intros c Hc. apply Ef in Hc. unfold flagsAt in Hc. congruence.
Qed.

Lemma flags_recompute h p v :
  (selected (recompute h p v), isIndeterminate (recompute h p v))
  = derivedFlags h p.
Proof.
  unfold recompute, derivedFlags.
  destruct (forallb _ _); [done|]. by destruct (existsb _ _).
Qed.

Lemma flagsAt_recompute (h : Heap) p :
  is_Some (h !! p) →
  flagsAt (alter (recompute h p) p h) p = derivedFlags h p.
Proof.
  intros [v Hv]. unfold flagsAt, selectedAt, indeterminateAt.
  rewrite list_lookup_alter_eq, Hv. simpl. apply flags_recompute.
Qed.

(** The state of a node written by [recompute] agrees with its children
    as long as neither it nor they are written again. *)
Lemma consistent_recompute (h h' : Heap) p :
  is_Some (h !! p) →
  h' !! p = alter (recompute h p) p h !! p →
  kids h' p = kids h p →
  (∀ c, c ∈ kids h p → flagsAt h' c = flagsAt h c) →
  consistentWithChildren h' p.
Proof.
  intros [v Hv] Hp Ek Ef. rewrite list_lookup_alter_eq, Hv in Hp.
  exists (recompute h p v). split; [done|]. simpl. rewrite Ek.
  rewrite (forallb_ext_in (selectedAt h') (selectedAt h)).
  2: { intros c Hc. apply Ef in Hc. unfold flagsAt in Hc. congruence. }
  rewrite (existsb_ext_in (λ c, selectedAt h' c || indeterminateAt h' c)
             (λ c, selectedAt h c || indeterminateAt h c)).
  2: { intros c Hc. apply Ef in Hc. unfold flagsAt in Hc. congruence. }
  unfold recompute.
  destruct (forallb _ _); [done|]. by destruct (existsb _ _).
Qed.

Lemma recomputeAll_consistent chain : ∀ h,
  separated h chain →
  ∀ p, p ∈ chain → consistentWithChildren (recomputeAll chain h) p.
Proof.
  induction chain as [|q chain IH]; intros h S p Hp.
  { by apply elem_of_nil in Hp. }
  inversion S as [|? ? Hv Hq Hqk Hrest S']; subst. simpl.
  assert (sameShape h (alter (recompute h q) q h)) as E
    by apply sameShape_alter, shape_recompute.
  apply elem_of_cons in Hp as [->|Hp].
  - apply (consistent_recompute h); [done| | |].
    + by apply recomputeAll_other.
    + rewrite <- (sameShape_kids _ _ _ (recomputeAll_sameShape _ _)).
      by rewrite <- (sameShape_kids _ _ _ E).
    + intros c Hc. apply flagsAt_lookup. rewrite recomputeAll_other.
      * apply list_lookup_alter_ne. by intros ->.
      * intros ?. by eapply Hrest.
  - apply IH; [|done]. by eapply sameShape_separated.
Qed.

(** Recomputing a chain whose nodes agreed with their children in [h0]
    brings back the flags of [h0], when every node off the chain already
    shows them. *)
Lemma recomputeAll_restore h0 chain : ∀ h,
  separated h0 chain → sameShape h0 h →
  (∀ x, x ∉ chain → flagsAt h x = flagsAt h0 x) →
  (∀ p, p ∈ chain → flagsAt h0 p = derivedFlags h0 p) →
  ∀ x, flagsAt (recomputeAll chain h) x = flagsAt h0 x.
Proof.
  induction chain as [|q chain IH]; intros h S E Off K x; simpl.
  { apply Off, not_elem_of_nil. }
  inversion S as [|? ? Hv Hq Hqk Hrest S']; subst.
  assert (sameShape h (alter (recompute h q) q h)) as E1
    by apply sameShape_alter, shape_recompute.
  apply IH; [done|by eapply sameShape_trans| |].
  - intros y Hy. destruct (decide (y = q)) as [->|Hyq].
    + rewrite flagsAt_recompute.
      2: { apply (sameShape_lookup _ _ q) in E. destruct Hv as [v Hv].
           rewrite Hv in E. by destruct (h !! q). }
      rewrite K by (by left). apply derivedFlags_ext.
      * symmetry. by apply sameShape_kids.
      * intros c Hc. rewrite <- (sameShape_kids _ _ _ E) in Hc. apply Off.
        apply not_elem_of_cons. split; [by intros ->|].
        intros ?. by eapply Hrest.
    + rewrite (flagsAt_lookup _ h) by by apply list_lookup_alter_ne.
      apply Off. by apply not_elem_of_cons.
  - intros p Hp. apply K. by right.
Qed.

(** ** A toggle on a well-formed hierarchy *)

Lemma ancestorChain_descending h levels fuel L a :
  wfHierarchy h levels = true → a ∈ levelValues levels L →
  descending levels L (ancestorChain fuel h levels a).
Proof.
  intros wf Ha. unfold ancestorChain.
  destruct (parentValueAt h a) as [k|] eqn:Ek; [|constructor].
  destruct (truthy k); [|constructor].
  destruct (wf_parent h levels wf L a k Ha Ek) as (j & p & -> & Hp & Hk & Hin).
  apply (parentChain_descending h levels fuel wf k (S j) j p);
    [done|lia|done|by eapply kids_nonempty].
Qed.

Lemma sameShape_ancestorChain fuel h h' levels a :
  sameShape h h' → ancestorChain fuel h levels a = ancestorChain fuel h' levels a.
Proof.
  intros E. unfold ancestorChain. rewrite (sameShape_parentValueAt _ _ _ E).
  destruct (parentValueAt h' a) as [k|]; [|done].
  by rewrite (sameShape_parentChain _ _ _ _ _ E).
Qed.

(** The heap after a toggle: the node's [selected] is flipped, the
    cascade marks exactly the descendants, and the chain above the node
    is recomputed on the result. *)
Lemma toggleHierarchyHeap_spec h levels L a fuel v :
  wfHierarchy h levels = true → a ∈ levelValues levels L →
  length levels ≤ fuel → h !! a = Some v →
  ∃ h2,
    cascaded (negb (selected v)) (descendant h a)
      (alter (withSelected (negb (selected v))) a h) h2
    ∧ toggleHierarchyHeap fuel a (Some levels) h
      = Ok (recomputeAll (ancestorChain fuel h levels a) h2).
Proof.
  intros wf Ha Hfuel Hv. set (s := negb (selected v)).
  set (h1 := alter (withSelected s) a h).
  assert (sameShape h h1) as E1 by by apply sameShape_alter.
  destruct (cascade_total fuel s a h1) as [h2 Run].
  { eapply sameShape_depthWithin; [done|].
    eapply (wf_depthWithin h levels wf fuel L); [done|lia]. }
  assert (cascaded s (descendant h a) h1 h2) as C.
  { intros x. destruct (cascade_spec _ _ _ _ _ Run x) as [[D ?]|[N ?]];
      [left|right]; split; try done.
    - by eapply sameShape_descendant; [apply sameShape_sym|].
    - intros D. by eapply N, sameShape_descendant. }
  assert (sameShape h h2) as E2.
  { eapply sameShape_trans; [done|]. by eapply cascaded_sameShape. }
  exists h2. split; [done|].
  unfold toggleHierarchyHeap. rewrite Hv. fold s. fold h1. rewrite Run. simpl.
  unfold ancestorChain. rewrite <- (sameShape_parentValueAt _ _ a E2).
  destruct (parentValueAt h a) as [k|] eqn:Ek; [|done].
  destruct (truthy k); [|done].
  destruct (wf_parent h levels wf L a k Ha Ek) as (j & p & -> & Hp & Hk & Hin).
  assert (S j < length levels) by by eapply levelValues_lt.
  destruct (update_total levels fuel h2 k j p) as [h3 Up]; [|done|lia| | |].
  - by rewrite <- (sameShape_wfHierarchy _ _ _ E2).
  - by rewrite <- (sameShape_valueAt _ _ _ E2).
  - rewrite <- (sameShape_kids _ _ _ E2). by eapply kids_nonempty.
  - rewrite Up. f_equal. apply update_recomputeAll in Up.
    by rewrite (sameShape_parentChain _ _ _ _ _ E2).
Qed.

(** The visual after a toggle holds the heap of [toggleHierarchyHeap]. *)
Lemma toggleHierarchyValue_heap fuel a category levels vis h' :
  hierarchyLevels category = Some levels →
  toggleHierarchyHeap fuel a (Some levels) (heap vis) = Ok h' →
  ∃ calls, toggleHierarchyValue fuel a category vis
           = Ok (mkVisual h' (filterCategories vis) calls).
Proof.
  intros Hl Run. unfold toggleHierarchyValue. rewrite Hl, Run. simpl.
  by eexists.
Qed.

(** Where the nodes around a toggled node lie: neither the node nor
    anything below it is on the chain above it. *)
Lemma chain_not_below h levels L a chain x :
  wfHierarchy h levels = true → a ∈ levelValues levels L →
  descending levels L chain →
  x = a ∨ descendant h a x → x ∉ chain.
Proof.
  intros wf Ha D Hx Hin.
  destruct (descending_level _ _ _ _ D Hin) as (j & Hj & Hxj).
  destruct Hx as [->|Hx].
  - assert (L = j) by by eapply wf_level_unique. lia.
  - destruct (wf_descendant_level h levels wf a x Hx L Ha) as (j' & ? & ?).
    assert (j = j') by by eapply wf_level_unique. lia.
Qed.

Lemma flagsAt_cascadeMark (h h' : Heap) s x :
  is_Some (h !! x) → h' !! x = cascadeMark s <$> h !! x →
  flagsAt h' x = (s, false) ∧ indeterminateField h' x = Some false.
Proof.
  intros [v Hv] E.
  unfold flagsAt, selectedAt, indeterminateAt, indeterminateField.
  by rewrite E, Hv.
Qed.

(** The flags of every node after one toggle. *)
Lemma toggle_flags h levels L a fuel v :
  wfHierarchy h levels = true → a ∈ levelValues levels L →
  length levels ≤ fuel → h !! a = Some v →
  ∃ h',
    toggleHierarchyHeap fuel a (Some levels) h = Ok h'
    ∧ sameShape h h'
    ∧ h' !! a = Some (withSelected (negb (selected v)) v)
    ∧ (∀ d, descendant h a d →
         flagsAt h' d = (negb (selected v), false)
         ∧ indeterminateField h' d = Some false)
    ∧ (∀ p, p ∈ ancestorChain fuel h levels a → consistentWithChildren h' p)
    ∧ (∀ x, x ≠ a → ¬ descendant h a x →
         x ∉ ancestorChain fuel h levels a → h' !! x = h !! x).
Proof.
  intros wf Ha Hfuel Hv.
  destruct (toggleHierarchyHeap_spec h levels L a fuel v) as (h2 & C & Run);
    [done..|].
  set (s := negb (selected v)) in *.
  set (chain := ancestorChain fuel h levels a) in *.
  assert (descending levels L chain) as D
    by by apply ancestorChain_descending.
  assert (sameShape h h2) as E2.
  { eapply sameShape_trans; [by apply (sameShape_alter (withSelected s) a)|].
    by eapply cascaded_sameShape. }
  exists (recomputeAll chain h2). split_and!; [done| | | | |].
  - eapply sameShape_trans; [done|]. apply recomputeAll_sameShape.
  - rewrite recomputeAll_other
      by (eapply chain_not_below; [done..|by left]).
    destruct (C a) as [[Da _]|[_ ->]].
    + by eapply wf_not_own_descendant in Da.
    + by rewrite list_lookup_alter_eq, Hv.
  - intros d Hd.
    assert (d ∉ chain) as Hdc by (eapply chain_not_below; [done..|by right]).
    destruct (wf_descendant_level h levels wf a d Hd L Ha) as (j & ? & Hj).
    unfold flagsAt, selectedAt, indeterminateAt, indeterminateField.
    rewrite recomputeAll_other by done.
    destruct (C d) as [[_ Ed]|[N _]]; [|done].
    apply (flagsAt_cascadeMark (alter (withSelected s) a h)); [|done].
    apply lookup_lt_is_Some. rewrite length_alter. by eapply wf_valid.
  - apply recomputeAll_consistent.
    eapply descending_separated; [|done].
    by rewrite <- (sameShape_wfHierarchy _ _ _ E2).
  - intros x Hxa Hxd Hxc. rewrite recomputeAll_other by done.
    destruct (C x) as [[Dx _]|[_ ->]]; [done|].
    by apply list_lookup_alter_ne.
Qed.

(** ** The scenarios of the specification, evaluated *)

Example sample_groups :
  filterCategories Sample.built = [Sample.food; Sample.shopFilter].
Proof. vm_compute. reflexivity. Qed.

(** Scenario A: the root level is Fruit, Veg; Fruit has the children
    Apple, Banana and Veg has the child Carrot. *)
Example scenario_A :
  valueAt (heap Sample.built) <$> levelValues Sample.foodLevels 0
  = [Some "Fruit"; Some "Veg"]
  ∧ valueAt (heap Sample.built) <$> kids (heap Sample.built) 0
    = [Some "Apple"; Some "Banana"]
  ∧ valueAt (heap Sample.built) <$> kids (heap Sample.built) 1
    = [Some "Carrot"].
Proof. split_and!; vm_compute; reflexivity. Qed.

(** Scenario B: toggling Fruit selects Apple and Banana and Fruit. *)
Example scenario_B :
  ∃ vis',
    toggleHierarchyValue 2 0 Sample.food Sample.built = Ok vis'
    ∧ selectedAt (heap vis') <$> [0; 2; 3] = [true; true; true].
Proof. eexists. split; vm_compute; reflexivity. Qed.

(** Scenario C: selecting Apple alone makes Fruit indeterminate. *)
Example scenario_C :
  ∃ vis',
    toggleHierarchyValue 2 2 Sample.food Sample.built = Ok vis'
    ∧ flagsAt (heap vis') 0 = (false, true)
    ∧ flagsAt (heap vis') 2 = (true, false).
Proof. eexists. split_and!; vm_compute; reflexivity. Qed.

(** The guard [if (filterValue.parentValue)] tests the truthiness of the
    key, so a parent whose key is the empty string is never looked up:
    with both of its children selected it stays unselected. *)
Example empty_parent_key_is_skipped :
  ∃ v1 v2,
    toggleHierarchyValue 2 1 EmptyKey.tag EmptyKey.built = Ok v1
    ∧ toggleHierarchyValue 2 2 EmptyKey.tag v1 = Ok v2
    ∧ parentValueAt (heap v2) 1 = Some ""
    ∧ ancestorChain 2 (heap v2) EmptyKey.tagLevels 1 = []
    ∧ selectedAt (heap v2) <$> kids (heap v2) 0 = [true; true]
    ∧ flagsAt (heap v2) 0 = (false, false).
Proof. do 2 eexists. split_and!; vm_compute; reflexivity. Qed.

Lemma NoDup_fmap_eq {A B} (f : A → B) (l : list A) x y :
  NoDup (f <$> l) → x ∈ l → y ∈ l → f x = f y → x = y.
Proof.
  intros ND Hx Hy E.
  apply list_elem_of_lookup in Hx as [i Hi], Hy as [j Hj].
  assert (i = j) as ->; [|congruence].
  eapply (NoDup_lookup _ i j (f x)); [done| |];
    rewrite list_lookup_fmap; [rewrite Hi|rewrite Hj]; simpl; by f_equal.
Qed.

Lemma parentChain_linked h levels fuel :
  wfHierarchy h levels = true → keysApart h levels →
  ∀ key a j p0,
    p0 ∈ levelValues levels j → valueAt h p0 = Some key → a ∈ kids h p0 →
    parentValueAt h a = Some key →
    parentLinked h a (parentChain fuel h levels key).
Proof.
  intros wf Apart. induction fuel as [|fuel IH]; intros key a j p0 H0 Hk Ha Hpa.
  { constructor. }
  simpl.
  destruct (findParent_first h levels key j p0) as (p & j' & Ep & Hj & Hp);
    [done| |by eapply kids_nonempty|].
  { apply findValue_unique; [by apply wf_keys|done..]. }
  rewrite Ep. apply findParent_Some in Ep as (_ & _ & Hkp & _).
  assert (j' = j) as -> by (eapply Apart; [done..|congruence]).
  assert (p = p0) as ->.
  { eapply (NoDup_fmap_eq (valueAt h)); [by apply (wf_keys h levels wf j)|..];
      [done..|congruence]. }
  constructor; [done|congruence|].
  destruct (parentValueAt h p0) as [k|] eqn:Ek; [|constructor].
  destruct (truthy k); [|constructor].
  destruct (wf_parent h levels wf j p0 k H0 Ek) as (j0 & p1 & -> & ? & ? & ?).
  by eapply IH.
Qed.

Lemma ancestorChain_linked h levels fuel L a :
  wfHierarchy h levels = true → keysApart h levels →
  a ∈ levelValues levels L →
  parentLinked h a (ancestorChain fuel h levels a).
Proof.
  intros wf Apart Ha. unfold ancestorChain.
  destruct (parentValueAt h a) as [k|] eqn:Ek; [|constructor].
  destruct (truthy k); [|constructor].
  destruct (wf_parent h levels wf L a k Ha Ek) as (j & p & -> & ? & ? & ?).
  by eapply parentChain_linked.
Qed.

Lemma findParent_unmatched h levels key :
  unmatched h levels key → findParent h levels key = None.
Proof.
  induction 1 as [|lv levels Hlv _ IH]; [done|]. simpl.
  destruct (findValue h (hl_values lv) key) as [p|] eqn:F; [|done].
  apply findValue_Some in F as [Hp Hk].
  rewrite Forall_forall in Hlv. by apply Hlv in Hp.
Qed.

Lemma sameShape_unmatched h h' levels key :
  sameShape h h' → unmatched h levels key → unmatched h' levels key.
Proof.
  intros E U. eapply Forall_impl; [done|]. intros lv F. simpl in F.
  eapply Forall_impl; [done|]. intros a N. simpl in N.
  by rewrite <- (sameShape_valueAt _ _ _ E).
Qed.

(** ** The claims about the selection state machine *)

(** C1 (the code falls short of the claim).  Toggling Apple makes Fruit
    indeterminate; toggling Fruit then sets [selected] on Fruit and
    leaves its [indeterminate] set, since [toggleHierarchyValue] never
    writes the [indeterminate] of the node it toggles. *)
Theorem toggle_leaves_indeterminate_on_node :
  ∃ v1 v2,
    toggleHierarchyValue 2 2 Sample.food Sample.built = Ok v1
    ∧ toggleHierarchyValue 2 0 Sample.food v1 = Ok v2
    ∧ indeterminateField (heap v1) 0 = Some true
    ∧ selectedAt (heap v2) 0 = true
    ∧ indeterminateField (heap v2) 0 = Some true.
Proof. do 2 eexists. split_and!; vm_compute; reflexivity. Qed.

(** C2 (the code falls short of the claim).  The upward lookup finds a
    parent by its key alone, scanning the levels from the top.  In the
    tree of rows (A, B, x) and (C, A, y), toggling y looks its parent
    key A up, recomputes the root A, and leaves the parent of y
    unselected although its only child is selected. *)
Theorem collision_parent_not_recomputed :
  ∃ vis',
    toggleHierarchyValue 3 5 Collision.tree Collision.built = Ok vis'
    ∧ 5 ∈ kids (heap vis') 3
    ∧ parentValueAt (heap vis') 5 = valueAt (heap vis') 3
    ∧ forallb (selectedAt (heap vis')) (kids (heap vis') 3) = true
    ∧ selectedAt (heap vis') 3 = false
    ∧ ¬ consistentWithChildren (heap vis') 3.
Proof.
  eexists. split_and!; try (vm_compute; reflexivity).
  - vm_compute. constructor.
  - intros (v & Hv & Hc). vm_compute in Hv. injection Hv as <-.
    vm_compute in Hc. by destruct Hc.
Qed.

(** What the upward pass does achieve: after a toggle, every node that
    the lookup locates (for each parent key of the chain, the first
    node in level order that has this key and has children) shows the
    state that the three-way rule derives from its children, and when
    no key is used on two levels, the located nodes are linked to the
    toggled node through their keys. *)
Lemma toggle_recomputes_located_chain fuel a L category levels vis :
  hierarchyLevels category = Some levels →
  wfHierarchy (heap vis) levels = true →
  a ∈ levelValues levels L →
  length levels ≤ fuel →
  ∃ vis',
    toggleHierarchyValue fuel a category vis = Ok vis'
    ∧ (∀ p, p ∈ ancestorChain fuel (heap vis) levels a →
         consistentWithChildren (heap vis') p)
    ∧ (keysApart (heap vis) levels →
         parentLinked (heap vis) a (ancestorChain fuel (heap vis) levels a)).
Proof.
  intros Hl wf Ha Hfuel.
  destruct (lookup_lt_is_Some_2 (heap vis) a) as [v Hv];
    [by eapply wf_valid|].
  destruct (toggle_flags _ _ _ _ _ _ wf Ha Hfuel Hv)
    as (h' & Run & _ & _ & _ & Hchain & _).
  destruct (toggleHierarchyValue_heap _ _ _ _ _ _ Hl Run) as [calls ->].
  eexists. split_and!; [done|done|].
  intros Apart. by eapply ancestorChain_linked.
Qed.

(** The lemma for a toggle of Apple in the fruit hierarchy. *)
Lemma toggle_recomputes_located_chain_witness :
  ∃ vis',
    toggleHierarchyValue 2 2 Sample.food Sample.built = Ok vis'
    ∧ (∀ p, p ∈ ancestorChain 2 (heap Sample.built) Sample.foodLevels 2 →
         consistentWithChildren (heap vis') p)
    ∧ (keysApart (heap Sample.built) Sample.foodLevels →
         parentLinked (heap Sample.built) 2
           (ancestorChain 2 (heap Sample.built) Sample.foodLevels 2)).
Proof.
  apply (toggle_recomputes_located_chain 2 2 1 Sample.food Sample.foodLevels
           Sample.built).
  - reflexivity.
  - vm_compute. reflexivity.
  - vm_compute. constructor.
  - simpl. lia.
Defined.

(** C3.  After a toggle that sets [selected] of the node to [v], every
    strict descendant of the node has [selected = v] and
    [indeterminate = false]. *)
Theorem toggle_cascades_to_descendants fuel a L category levels vis :
  hierarchyLevels category = Some levels →
  wfHierarchy (heap vis) levels = true →
  a ∈ levelValues levels L →
  length levels ≤ fuel →
  ∃ vis',
    toggleHierarchyValue fuel a category vis = Ok vis'
    ∧ selectedAt (heap vis') a = negb (selectedAt (heap vis) a)
    ∧ ∀ d, descendant (heap vis) a d →
        selectedAt (heap vis') d = selectedAt (heap vis') a
        ∧ indeterminateField (heap vis') d = Some false.
Proof.
  intros Hl wf Ha Hfuel.
  destruct (lookup_lt_is_Some_2 (heap vis) a) as [v Hv];
    [by eapply wf_valid|].
  destruct (toggle_flags _ _ _ _ _ _ wf Ha Hfuel Hv)
    as (h' & Run & _ & Hv' & Hdesc & _).
  destruct (toggleHierarchyValue_heap _ _ _ _ _ _ Hl Run) as [calls ->].
  eexists. split; [done|]. simpl.
  assert (selectedAt h' a = negb (selectedAt (heap vis) a)) as Ea.
  { unfold selectedAt. by rewrite Hv', Hv. }
  split; [done|]. intros d Hd. destruct (Hdesc d Hd) as [Hf Hi].
  split; [|done]. rewrite Ea. unfold flagsAt in Hf.
  unfold selectedAt at 2. rewrite Hv. simpl. congruence.
Qed.

(** The theorem for a toggle of Fruit in the fruit hierarchy. *)
Lemma toggle_cascades_to_descendants_witness :
  ∃ vis',
    toggleHierarchyValue 2 0 Sample.food Sample.built = Ok vis'
    ∧ selectedAt (heap vis') 0 = negb (selectedAt (heap Sample.built) 0)
    ∧ ∀ d, descendant (heap Sample.built) 0 d →
        selectedAt (heap vis') d = selectedAt (heap vis') 0
        ∧ indeterminateField (heap vis') d = Some false.
Proof.
  apply (toggle_cascades_to_descendants 2 0 0 Sample.food Sample.foodLevels
           Sample.built).
  - reflexivity.
  - vm_compute. reflexivity.
  - vm_compute. constructor.
  - simpl. lia.
Defined.

(** C4, as stated, fails: the cascade overwrites the subtree.  With
    Apple selected and Banana not, toggling Fruit twice leaves Apple
    unselected. *)
Lemma double_toggle_loses_partial_selection :
  ∃ v0 v1 v2,
    toggleHierarchyValue 2 2 Sample.food Sample.built = Ok v0
    ∧ toggleHierarchyValue 2 0 Sample.food v0 = Ok v1
    ∧ toggleHierarchyValue 2 0 Sample.food v1 = Ok v2
    ∧ descendant (heap v0) 0 2
    ∧ flagsAt (heap v0) 2 = (true, false)
    ∧ flagsAt (heap v2) 2 = (false, false).
Proof.
  do 3 eexists. split_and!; try (vm_compute; reflexivity).
  apply descendant_child. vm_compute. constructor.
Qed.

(** C4, amended.  Toggling a node twice restores the two flags of the
    node itself and leaves every descendant with the node's original
    [selected] and with [indeterminate] false; it restores the flags of
    every node when, before the first toggle, every descendant had the
    node's [selected] and was not indeterminate, and every node on the
    chain above it showed the state that the rule derives from its
    children. *)
Theorem double_toggle_restores fuel a L category levels vis :
  hierarchyLevels category = Some levels →
  wfHierarchy (heap vis) levels = true →
  a ∈ levelValues levels L →
  length levels ≤ fuel →
  ∃ v1 v2,
    toggleHierarchyValue fuel a category vis = Ok v1
    ∧ toggleHierarchyValue fuel a category v1 = Ok v2
    ∧ flagsAt (heap v2) a = flagsAt (heap vis) a
    ∧ (∀ d, descendant (heap vis) a d →
         flagsAt (heap v2) d = (selectedAt (heap vis) a, false))
    ∧ ((∀ d, descendant (heap vis) a d →
          flagsAt (heap vis) d = (selectedAt (heap vis) a, false)) →
       (∀ p, p ∈ ancestorChain fuel (heap vis) levels a →
          flagsAt (heap vis) p = derivedFlags (heap vis) p) →
       ∀ x, flagsAt (heap v2) x = flagsAt (heap vis) x).
Proof.
  intros Hl wf Ha Hfuel. set (h := heap vis) in *.
  destruct (lookup_lt_is_Some_2 h a) as [v Hv]; [by eapply wf_valid|].
  destruct (toggle_flags _ _ _ _ _ _ wf Ha Hfuel Hv)
    as (hA & RunA & EA & HvA & _ & _ & OffA).
  destruct (toggleHierarchyValue_heap _ _ _ _ _ _ Hl RunA) as [callsA TA].
  assert (wfHierarchy hA levels = true) as wfA
    by by rewrite <- (sameShape_wfHierarchy _ _ _ EA).
  destruct (toggleHierarchyHeap_spec _ _ _ _ _ _ wfA Ha Hfuel HvA)
    as (h2 & C & RunB).
  destruct (toggleHierarchyValue_heap fuel a category levels
              (mkVisual hA (filterCategories vis) callsA) _ Hl RunB)
    as [callsB TB].
  simpl in RunB, TB. clear RunB.
  rewrite <- (sameShape_ancestorChain _ _ _ _ _ EA) in TB.
  set (chain := ancestorChain fuel h levels a) in *.
  assert (descending levels L chain) as D by by apply ancestorChain_descending.
  replace (negb (selected (withSelected (negb (selected v)) v)))
    with (selected v) in C by (simpl; by destruct (selected v)).
  assert (sameShape h h2) as E2.
  { eapply sameShape_trans; [done|].
    eapply sameShape_trans;
      [by apply (sameShape_alter (withSelected (selected v)) a)|].
    by eapply cascaded_sameShape. }
  assert (selectedAt h a = selected v) as Hs
    by (unfold selectedAt; by rewrite Hv).
  assert (flagsAt h2 a = flagsAt h a) as Fa.
  { destruct (C a) as [[Da _]|[_ Ea]].
    - eapply sameShape_descendant in Da; [|by apply sameShape_sym].
      by eapply wf_not_own_descendant in Da.
    - unfold flagsAt, selectedAt, indeterminateAt.
      by rewrite Ea, list_lookup_alter_eq, HvA, Hv. }
  assert (∀ d, descendant h a d → flagsAt h2 d = (selectedAt h a, false))
    as Fd.
  { intros d Hd. destruct (C d) as [[_ Ed]|[N _]].
    - rewrite Hs. eapply flagsAt_cascadeMark; [|done].
      apply lookup_lt_is_Some. rewrite length_alter.
      rewrite <- (sameShape_length _ _ EA).
      destruct (wf_descendant_level h levels wf a d Hd L Ha) as (j & _ & Hj).
      by eapply wf_valid.
    - exfalso. by eapply N, sameShape_descendant. }
  eexists _, _. split_and!; [exact TA|exact TB| | |]; simpl.
  - unfold flagsAt, selectedAt, indeterminateAt.
    rewrite recomputeAll_other
      by (eapply (chain_not_below h); [done..|by left]).
    apply Fa.
  - intros d Hd. unfold flagsAt, selectedAt, indeterminateAt.
    rewrite recomputeAll_other
      by (eapply (chain_not_below h); [done..|by right]).
    by apply Fd.
  - intros U K. apply recomputeAll_restore; [|done| |done].
    { by eapply descending_separated. }
    intros x Hx. destruct (decide (x = a)) as [->|Hxa]; [done|].
    destruct (C x) as [[Dx _]|[Nx Ex]].
    + eapply sameShape_descendant in Dx; [|by apply sameShape_sym].
      rewrite Fd by done. symmetry. by apply U.
    + apply flagsAt_lookup. rewrite Ex, list_lookup_alter_ne by done.
      apply OffA; [done| |done].
      intros Dx. by eapply Nx, sameShape_descendant.
Qed.

(** The theorem for two toggles of Apple in the fruit hierarchy. *)
Lemma double_toggle_restores_witness :
  ∃ v1 v2,
    toggleHierarchyValue 2 2 Sample.food Sample.built = Ok v1
    ∧ toggleHierarchyValue 2 2 Sample.food v1 = Ok v2
    ∧ flagsAt (heap v2) 2 = flagsAt (heap Sample.built) 2
    ∧ (∀ d, descendant (heap Sample.built) 2 d →
         flagsAt (heap v2) d = (selectedAt (heap Sample.built) 2, false))
    ∧ ((∀ d, descendant (heap Sample.built) 2 d →
          flagsAt (heap Sample.built) d
          = (selectedAt (heap Sample.built) 2, false)) →
       (∀ p, p ∈ ancestorChain 2 (heap Sample.built) Sample.foodLevels 2 →
          flagsAt (heap Sample.built) p = derivedFlags (heap Sample.built) p) →
       ∀ x, flagsAt (heap v2) x = flagsAt (heap Sample.built) x).
Proof.
  apply (double_toggle_restores 2 2 1 Sample.food Sample.foodLevels
           Sample.built).
  - reflexivity.
  - vm_compute. reflexivity.
  - vm_compute. constructor.
  - simpl. lia.
Defined.

(** C5 (the code falls short of the claim).  With Apple selected in the
    hierarchy, toggling the standalone value North emits the identity of
    North only: [toggleSelection] collects from [cat.values], which is
    empty for a hierarchy, and never reads [hierarchyLevels]. *)
Theorem toggleSelection_omits_hierarchy_selection :
  ∃ v1 v2,
    toggleHierarchyValue 2 2 Sample.food Sample.built = Ok v1
    ∧ toggleSelection 5 Sample.shopFilter v1 = Ok v2
    ∧ selectedAt (heap v2) 2 = true
    ∧ selectedAt (heap v2) 5 = true
    ∧ last (hostCalls v2) = Some (Select [mkSelectionId Sample.shop 0])
    ∧ (identity <$> heap v2 !! 2) = Some (mkSelectionId Sample.item 0).
Proof. do 2 eexists. split_and!; vm_compute; reflexivity. Qed.

(** C6 (the code falls short of the claim).  With Apple selected, Fruit
    is indeterminate; clearing the hierarchy resets [selected] and
    leaves Fruit indeterminate, since [clearHierarchySelection] writes
    [selected] only. *)
Theorem clearHierarchySelection_keeps_indeterminate :
  ∃ v1 v2,
    toggleHierarchyValue 2 2 Sample.food Sample.built = Ok v1
    ∧ clearHierarchySelection Sample.food v1 = Ok v2
    ∧ indeterminateField (heap v1) 0 = Some true
    ∧ selectedAt (heap v2) 2 = false
    ∧ indeterminateField (heap v2) 0 = Some true.
Proof. do 2 eexists. split_and!; vm_compute; reflexivity. Qed.

(** C10.  When no node of the group has the parent key, the upward
    recomputation returns with the heap as it is; reached from a parent
    that was just recomputed, it leaves the heap with that one write;
    and a toggle of a node with such a parent key completes with the
    heap that the cascade left. *)
Theorem unknown_parent_stops_recomputation h levels key fuel :
  unmatched h levels key →
  updateParentSelectionRecursive (S fuel) levels key h = Ok h
  ∧ (∀ p k, findParent h levels k = Some p →
       parentValueAt h p = Some key →
       updateParentSelectionRecursive (S (S fuel)) levels k h
       = Ok (alter (recompute h p) p h))
  ∧ (∀ a v, h !! a = Some v → parentValueAt h a = Some key →
       depthWithin h (S fuel) a →
       ∃ h2,
         cascadeSelectionToDescendants (S fuel) a (negb (selected v))
           (alter (withSelected (negb (selected v))) a h) = Ok h2
         ∧ toggleHierarchyHeap (S fuel) a (Some levels) h = Ok h2).
Proof.
  intros U.
  assert (∀ h', sameShape h h' →
    updateParentSelectionRecursive (S fuel) levels key h' = Ok h') as Stop.
  { intros h' E. simpl.
    by rewrite (findParent_unmatched h' levels key)
      by by eapply sameShape_unmatched. }
  split_and!.
  - by apply Stop.
  - intros p k Hp Hk.
    assert (sameShape h (alter (recompute h p) p h)) as E
      by apply sameShape_alter, shape_recompute.
    change (updateParentSelectionRecursive (S (S fuel)) levels k h)
      with (match findParent h levels k with
            | None => Ok h
            | Some parent =>
                let h' := alter (recompute h parent) parent h in
                match parentValueAt h' parent with
                | Some k0 =>
                    if truthy k0
                    then updateParentSelectionRecursive (S fuel) levels k0 h'
                    else Ok h'
                | None => Ok h'
                end
            end).
    rewrite Hp. cbv zeta.
    rewrite <- (sameShape_parentValueAt _ _ p E), Hk.
    destruct (truthy key); [|done]. by apply Stop.
  - intros a v Hv Hk Hd.
    set (s := negb (selected v)). set (h1 := alter (withSelected s) a h).
    assert (sameShape h h1) as E1 by by apply sameShape_alter.
    destruct (cascade_total (S fuel) s a h1) as [h2 Run];
      [by eapply sameShape_depthWithin|].
    assert (sameShape h h2) as E2.
    { eapply sameShape_trans; [done|].
      eapply cascaded_sameShape, cascade_spec, Run. }
    exists h2. split; [done|].
    unfold toggleHierarchyHeap. rewrite Hv. fold s. fold h1. rewrite Run.
    change (Ok h2 ≫= ?f) with (f h2). cbv beta.
    rewrite <- (sameShape_parentValueAt _ _ a E2), Hk.
    destruct (truthy key); [|done]. by apply Stop.
Qed.

(** The theorem for a node whose parent key names no node. *)
Lemma unknown_parent_stops_recomputation_witness :
  updateParentSelectionRecursive 1 Stale.staleLevels "Ghost" Stale.store
  = Ok Stale.store
  ∧ (∀ p k, findParent Stale.store Stale.staleLevels k = Some p →
       parentValueAt Stale.store p = Some "Ghost" →
       updateParentSelectionRecursive 2 Stale.staleLevels k Stale.store
       = Ok (alter (recompute Stale.store p) p Stale.store))
  ∧ (∀ a v, Stale.store !! a = Some v →
       parentValueAt Stale.store a = Some "Ghost" →
       depthWithin Stale.store 1 a →
       ∃ h2,
         cascadeSelectionToDescendants 1 a (negb (selected v))
           (alter (withSelected (negb (selected v))) a Stale.store) = Ok h2
         ∧ toggleHierarchyHeap 1 a (Some Stale.staleLevels) Stale.store
           = Ok h2).
Proof.
  apply (unknown_parent_stops_recomputation Stale.store Stale.staleLevels
           "Ghost" 0).
  repeat constructor; vm_compute; discriminate.
Defined.

(** ** Loops and maps *)

Lemma forEachFrom_snoc {A St} (body : St → nat → A → St) (l : list A) x :
  ∀ i s, forEachFrom body i (l ++ [x]) s
         = body (forEachFrom body i l s) (i + length l) x.
Proof.
  induction l as [|y l IH]; intros i s; simpl.
  - by rewrite Nat.add_0_r.
  - rewrite IH. f_equal. lia.
Qed.

Lemma mapGet_Some {X} k (x : X) m : mapGet k m = Some x → (k, x) ∈ m.
Proof.
  induction m as [|[k' x'] m IH]; [done|]. simpl.
  case_bool_decide as E; [intros [= <-]; subst; by left|].
  intros ?. right. by apply IH.
Qed.

Lemma mapGet_None {X} k (m : JsMap X) : mapGet k m = None ↔ k ∉ m.*1.
Proof.
  induction m as [|[k' x'] m IH]; simpl.
  - split; [intros _; apply not_elem_of_nil|done].
  - case_bool_decide as E.
    + subst. split; [done|]. intros N. exfalso. apply N. by left.
    + rewrite IH, not_elem_of_cons. simpl. tauto.
Qed.

Lemma mapGet_NoDup {X} k (x : X) m :
  NoDup m.*1 → (k, x) ∈ m → mapGet k m = Some x.
Proof.
  induction m as [|[k' x'] m IH]; intros ND Hin.
  { by apply elem_of_nil in Hin. }
  simpl in *. apply NoDup_cons in ND as [Hk ND].
  apply elem_of_cons in Hin as [[= -> ->]|Hin].
  - by rewrite bool_decide_eq_true_2.
  - rewrite bool_decide_eq_false_2; [by apply IH|].
    intros ->. apply Hk. apply list_elem_of_fmap. by exists (k', x).
Qed.

Lemma mapHas_true {X} k (m : JsMap X) : mapHas k m = true ↔ k ∈ m.*1.
Proof.
  unfold mapHas. rewrite bool_decide_eq_true.
  destruct (mapGet k m) as [x|] eqn:E.
  - split; [|by eauto]. intros _. apply mapGet_Some in E.
    apply list_elem_of_fmap. by exists (k, x).
  - apply mapGet_None in E. split; [by intros [? ?]|done].
Qed.

Lemma mapSet_fresh {X} k (x : X) m : k ∉ m.*1 → mapSet k x m = m ++ [(k, x)].
Proof.
  induction m as [|[k' x'] m IH]; [done|]. simpl.
  intros [Hk Hm]%not_elem_of_cons.
  rewrite bool_decide_eq_false_2 by done. by rewrite IH.
Qed.

(** ** First occurrences *)

Section FirstOccurrences.

Context {A : Type} `{EqDecision A}.

Implicit Types l : list A.

Lemma omap_ext_in {B C} (f g : B → option C) (l : list B) :
  (∀ x, x ∈ l → f x = g x) → omap f l = omap g l.
Proof.
  induction l as [|x l IH]; intros E; [done|]. csimpl.
  rewrite (E x) by (by left). rewrite IH; [done|].
  intros ??. apply E. by right.
Qed.

Lemma firstOccurrences_snoc l c :
  firstOccurrences (l ++ [c])
  = firstOccurrences l
    ++ (if bool_decide (c ∈ l) then [] else [(c, length l)]).
Proof.
  unfold firstOccurrences. rewrite imap_app, omap_app. f_equal.
  - apply omap_ext_in. intros [i x] Hin.
    apply list_elem_of_lookup in Hin as [n Hn].
    apply list_lookup_imap_Some in Hn as (y & Hy & [= <- <-]).
    apply lookup_lt_Some in Hy.
    by rewrite take_app_le by lia.
  - simpl. rewrite Nat.add_0_r.
    rewrite take_app_length. by case_bool_decide.
Qed.


Lemma firstOccurrences_keys l x : x ∈ (firstOccurrences l).*1 ↔ x ∈ l.
Proof.
  induction l as [|c l IH] using rev_ind.
  { split; intros H'; by apply elem_of_nil in H'. }
  rewrite firstOccurrences_snoc, fmap_app, !elem_of_app, IH.
  case_bool_decide as Hc; simpl.
  - rewrite elem_of_nil, list_elem_of_singleton.
    split; [intros [?|?]; [by left|done]|intros [?| ->]; by left].
  - by rewrite !list_elem_of_singleton.
Qed.

Lemma firstOccurrences_NoDup_keys l : NoDup (firstOccurrences l).*1.
Proof.
  induction l as [|c l IH] using rev_ind; [constructor|].
  rewrite firstOccurrences_snoc, fmap_app. apply NoDup_app.
  split; [done|]. case_bool_decide as Hc; simpl.
  - split; [intros ? _; apply not_elem_of_nil|constructor].
  - split; [|apply NoDup_singleton].
    intros x Hx ->%list_elem_of_singleton.
    by apply Hc, firstOccurrences_keys.
Qed.




End FirstOccurrences.

Lemma firstOccurrences_fmap_snoc {A B} `{EqDecision B} (f : A → B) l c :
  firstOccurrences (f <$> l ++ [c])
  = firstOccurrences (f <$> l)
    ++ (if bool_decide (f c ∈ f <$> l) then [] else [(f c, length l)]).
Proof.
  rewrite fmap_app. change (f <$> [c]) with [f c].
  by rewrite firstOccurrences_snoc, length_fmap.
Qed.

(** ** The first pass and the standalone builder, in closed form *)

Lemma addresses_snoc {X} (keys : list X) (k : X) (base : nat) :
  zip (keys ++ [k]) (seq base (length (keys ++ [k])))
  = zip keys (seq base (length keys)) ++ [(k, base + length keys)].
Proof.
  rewrite length_app. simpl. rewrite seq_app. simpl.
  rewrite zip_with_app by by rewrite length_seq. done.
Qed.

Lemma uniqueValues_prefix category h calls (pre : list (option string)) :
  forEachFrom (addUniqueValue category) 0 pre ([], (h, calls))
  = let rows := firstOccurrences (canonical <$> pre) in
    (zip rows.*1 (seq (length h) (length rows.*1)),
     (h ++ ((λ '(k, i), newHierarchyValue k (mkSelectionId category i))
              <$> rows),
      calls ++ ((λ '(k, i), CreateSelectionId category i) <$> rows))).
Proof.
  induction pre as [|c pre IH] using rev_ind.
  { simpl. by rewrite !app_nil_r. }
  rewrite forEachFrom_snoc, IH. clear IH. cbv zeta.
  rewrite firstOccurrences_fmap_snoc. simpl.
  set (rows := firstOccurrences (canonical <$> pre)).
  unfold addUniqueValue.
  assert (length rows.*1 ≤ length (seq (length h) (length rows.*1))) as Hlen
    by by rewrite length_seq.
  destruct (mapHas (canonical c) (zip rows.*1 (seq (length h) (length rows.*1))))
    eqn:Has.
  - apply mapHas_true in Has. rewrite fst_zip in Has by done.
    unfold rows in Has. rewrite firstOccurrences_keys in Has.
    rewrite bool_decide_eq_true_2 by done. by rewrite !app_nil_r.
  - assert (canonical c ∉ rows.*1) as Hfresh.
    { intros Hin. apply not_true_iff_false in Has. apply Has, mapHas_true.
      by rewrite fst_zip. }
    rewrite bool_decide_eq_false_2
      by (intros Hin; by apply Hfresh, firstOccurrences_keys).
    rewrite mapSet_fresh by by rewrite fst_zip.
    rewrite !fmap_app. simpl. rewrite addresses_snoc.
    rewrite length_app, !length_fmap.
    by rewrite <- !(assoc_L (++)).
Qed.

(** The first pass for one level allocates the nodes of the level at
    the end of the heap, in first-occurrence order. *)
Lemma uniqueValuesOfLevel_spec category h calls :
  uniqueValuesOfLevel category (h, calls)
  = (zip (levelRows category).*1
       (seq (length h) (length (levelRows category))),
     (h ++ levelNodes category, calls ++ levelMints category)).
Proof.
  unfold uniqueValuesOfLevel. rewrite uniqueValues_prefix. cbv zeta.
  by rewrite length_fmap.
Qed.

Lemma firstIndices_prefix (pre : list (option string)) :
  forEachFrom (λ uniqueValuesMap index value,
      let stringValue := canonical value in
      if mapHas stringValue uniqueValuesMap then uniqueValuesMap
      else mapSet stringValue index uniqueValuesMap) 0 pre []
  = firstOccurrences (canonical <$> pre).
Proof.
  induction pre as [|c pre IH] using rev_ind; [done|].
  rewrite forEachFrom_snoc, IH. clear IH. cbv zeta.
  rewrite firstOccurrences_fmap_snoc. simpl.
  set (rows := firstOccurrences (canonical <$> pre)).
  destruct (mapHas (canonical c) rows) eqn:Has.
  - apply mapHas_true in Has. unfold rows in Has.
    rewrite firstOccurrences_keys in Has.
    rewrite bool_decide_eq_true_2 by done. by rewrite app_nil_r.
  - assert (canonical c ∉ rows.*1) as Hfresh.
    { intros Hin. apply not_true_iff_false in Has. by apply Has, mapHas_true. }
    rewrite bool_decide_eq_false_2
      by (intros Hin; by apply Hfresh, firstOccurrences_keys).
    by rewrite mapSet_fresh by done.
Qed.

(** The map of a standalone column holds its distinct keys with their
    first rows. *)
Lemma firstIndices_spec category : firstIndices category = levelRows category.
Proof. apply firstIndices_prefix. Qed.

Lemma singleValues_spec category (rows : list (string * nat)) :
  ∀ vals h calls,
    foldl (λ '(vals, (h, calls)) '(stringValue, firstIndex),
        (vals ++ [length h],
         (h ++ [newSingleValue stringValue (mkSelectionId category firstIndex)],
          calls ++ [CreateSelectionId category firstIndex])))
      (vals, (h, calls)) rows
    = (vals ++ seq (length h) (length rows),
       (h ++ ((λ '(k, i), newSingleValue k (mkSelectionId category i)) <$> rows),
        calls ++ ((λ '(k, i), CreateSelectionId category i) <$> rows))).
Proof.
  induction rows as [|[k i] rows IH]; intros vals h calls; simpl.
  { by rewrite !app_nil_r. }
  rewrite IH, length_app. simpl.
  rewrite <- !(assoc_L (++)). simpl.
  by replace (length h + 1) with (S (length h)) by lia.
Qed.

Lemma firstPass_acc categories : ∀ valuesByLevel h calls,
  foldl (λ '(valuesByLevel, w) category,
      let '(uniqueValuesMap, w') := uniqueValuesOfLevel category w in
      (valuesByLevel ++ [uniqueValuesMap], w'))
    (valuesByLevel, (h, calls)) categories
  = (valuesByLevel ++ passMaps (length h) categories,
     (h ++ mjoin (levelNodes <$> categories),
      calls ++ mjoin (levelMints <$> categories))).
Proof.
  induction categories as [|c cs IH]; intros vbl h calls; simpl.
  { by rewrite !app_nil_r. }
  rewrite uniqueValuesOfLevel_spec, IH.
  rewrite length_app, <- !(assoc_L (++)). unfold levelMap, levelNodes at 1.
  by rewrite length_fmap.
Qed.

(** The first pass allocates the levels one after the other. *)
Lemma firstPass_spec categories h calls :
  firstPass categories (h, calls)
  = (passMaps (length h) categories,
     (h ++ mjoin (levelNodes <$> categories),
      calls ++ mjoin (levelMints <$> categories))).
Proof. apply (firstPass_acc categories []). Qed.

Lemma passMaps_lookup categories : ∀ base i category,
  categories !! i = Some category →
  passMaps base categories !! i
  = Some (levelMap (levelBase base categories i) category).
Proof.
  induction categories as [|c cs IH]; intros base i category Hi; [done|].
  destruct i as [|i]; simpl in *; [by simplify_eq|]. by apply IH.
Qed.

Lemma passMaps_length categories : ∀ base,
  length (passMaps base categories) = length categories.
Proof. induction categories as [|c cs IH]; intros base; simpl; by f_equal. Qed.

Lemma levelNodes_length category :
  length (levelNodes category) = length (levelRows category).
Proof. unfold levelNodes. by rewrite length_fmap. Qed.

Lemma passHeap_lookup categories : ∀ (h : Heap) i category n,
  categories !! i = Some category → n < length (levelRows category) →
  (h ++ mjoin (levelNodes <$> categories))
    !! (levelBase (length h) categories i + n)
  = levelNodes category !! n.
Proof.
  induction categories as [|c cs IH]; intros h i category n Hi Hn; [done|].
  destruct i as [|i]; simpl in *.
  - simplify_eq. rewrite lookup_app_r by lia.
    replace (length h + n - length h) with n by lia.
    apply lookup_app_l. by rewrite levelNodes_length.
  - rewrite (assoc_L (++)). rewrite <- (levelNodes_length c), <- length_app.
    by apply IH.
Qed.

Lemma passHeap_length categories : ∀ (h : Heap),
  length (h ++ mjoin (levelNodes <$> categories))
  = levelBase (length h) categories (length categories).
Proof.
  induction categories as [|c cs IH]; intros h; simpl.
  { by rewrite app_nil_r. }
  rewrite (assoc_L (++)), IH, length_app. by rewrite levelNodes_length.
Qed.

Lemma levelBase_le categories : ∀ base i, base ≤ levelBase base categories i.
Proof.
  induction categories as [|c cs IH]; intros base i; destruct i; simpl; try lia.
  etrans; [|apply IH]. lia.
Qed.

Lemma levelBase_step categories : ∀ base i category,
  categories !! i = Some category →
  levelBase base categories (S i)
  = levelBase base categories i + length (levelRows category).
Proof.
  induction categories as [|c cs IH]; intros base i category Hi; [done|].
  destruct i as [|i]; simpl in *.
  - simplify_eq. by destruct cs.
  - by apply IH.
Qed.

Lemma levelBase_mono categories base i j :
  i ≤ j → levelBase base categories i ≤ levelBase base categories j.
Proof.
  induction 1 as [|j _ IH]; [done|]. etrans; [done|].
  destruct (categories !! j) as [c|] eqn:E.
  - rewrite (levelBase_step _ _ _ _ E). lia.
  - clear IH. revert base j E.
    induction categories as [|c cs IHc]; intros base j E; [by destruct j|].
    destruct j as [|j]; [done|]. simpl in *. destruct j; simpl; [|by apply IHc].
    destruct cs; [done|done].
Qed.

(** ** The second pass writes [children] and [parentValue] only *)

Lemma fmap_alter_same {A B} (f : A → B) (g : A → A) a (l : list A) :
  (∀ v, f (g v) = f v) → f <$> alter g a l = f <$> l.
Proof.
  intros Hf. rewrite (list_fmap_alter f g id)
    by (apply Forall_forall; intros; apply Hf).
  by rewrite list_alter_id.
Qed.

Lemma linkPair_keys categories valuesByLevel rowIdx levelIdx h :
  keyAndIdentity <$> linkPair categories valuesByLevel rowIdx levelIdx h
  = keyAndIdentity <$> h.
Proof.
  unfold linkPair. repeat case_match; try done.
  by rewrite !fmap_alter_same.
Qed.




(** ** The claims about the build *)


(** ** Grouping *)

Lemma collectRelated_step_cond (otherCat : DataViewCategoryColumn) baseName :
  match queryName (source otherCat) with
  | Some otherQueryName =>
      truthy otherQueryName
      && bool_decide (splitHead otherQueryName = baseName)
  | None => false
  end = bool_decide (lineage otherCat = Some baseName).
Proof.
  unfold lineage. destruct (queryName (source otherCat)) as [q|]; [|done].
  destruct (truthy q); simpl; [|done].
  apply bool_decide_ext. split; [by intros ->|by intros [= ->]].
Qed.

Lemma collectRelated_prefix baseName (processed : gset nat)
  (pre : list DataViewCategoryColumn) :
  ∃ processed',
    forEachFrom (λ '(relatedCategories, processedIndices) otherIdx otherCat,
        match queryName (source otherCat) with
        | Some otherQueryName =>
            if truthy otherQueryName
               && bool_decide (splitHead otherQueryName = baseName)
            then (relatedCategories ++ [otherCat],
                  {[otherIdx]} ∪ processedIndices)
            else (relatedCategories, processedIndices)
        | None => (relatedCategories, processedIndices)
        end) 0 pre ([], processed)
    = (related pre baseName, processed')
    ∧ ∀ j, j ∈ processed' ↔
        j ∈ processed ∨ ∃ c, pre !! j = Some c ∧ lineage c = Some baseName.
Proof.
  induction pre as [|c pre IH] using rev_ind.
  { exists processed. split; [done|]. intros j.
    split; [by left|intros [?|(c & Hc & _)]; [done|by rewrite lookup_nil in Hc]]. }
  destruct IH as (processed' & E & IH).
  rewrite forEachFrom_snoc, E. unfold related. rewrite filter_app. simpl.
  pose proof (collectRelated_step_cond c baseName) as Hcond.
  assert (∀ j, (∃ c', (pre ++ [c]) !! j = Some c' ∧ lineage c' = Some baseName)
            ↔ (∃ c', pre !! j = Some c' ∧ lineage c' = Some baseName)
              ∨ (j = length pre ∧ lineage c = Some baseName)) as Hsnoc.
  { intros j. split.
    - intros (c' & Hj & Hl). apply lookup_app_Some in Hj as [Hj|[Hlen Hj]].
      + left. eauto.
      + right. apply list_lookup_singleton_Some in Hj as [? <-].
        split; [lia|done].
    - intros [(c' & Hj & Hl)|[-> Hl]].
      + exists c'. split; [by apply lookup_app_l_Some|done].
      + exists c. split; [|done]. by rewrite list_lookup_middle. }
  destruct (queryName (source c)) as [q|] eqn:Eq.
  - destruct (truthy q && bool_decide (splitHead q = baseName)) eqn:Et.
    + symmetry in Hcond. apply bool_decide_eq_true in Hcond.
      eexists. split.
      * rewrite filter_cons_True by done. by rewrite filter_nil.
      * intros j. rewrite Hsnoc, elem_of_union, elem_of_singleton, IH.
        simpl. intuition.
    + symmetry in Hcond. apply bool_decide_eq_false in Hcond.
      eexists. split.
      * rewrite filter_cons_False by done. by rewrite filter_nil, app_nil_r.
      * intros j. rewrite Hsnoc, IH. intuition.
  - symmetry in Hcond. apply bool_decide_eq_false in Hcond.
    eexists. split.
    + rewrite filter_cons_False by done. by rewrite filter_nil, app_nil_r.
    + intros j. rewrite Hsnoc, IH. intuition.
Qed.

Lemma collectRelated_spec categories baseName processed :
  ∃ processed',
    collectRelated categories baseName processed
    = (related categories baseName, processed')
    ∧ ∀ j, j ∈ processed' ↔
        j ∈ processed
        ∨ ∃ c, categories !! j = Some c ∧ lineage c = Some baseName.
Proof. apply collectRelated_prefix. Qed.

Lemma consumed_next categories n cat j :
  categories !! n = Some cat →
  consumed categories (S n) j ↔
    consumed categories n j
    ∨ match lineage cat with
      | None => j = n
      | Some b => ∃ c, categories !! j = Some c ∧ lineage c = Some b
      end.
Proof.
  intros Hn. unfold consumed. rewrite (take_S_r _ _ _ Hn), fmap_app. simpl.
  split.
  - intros (c & Hj & Hc). destruct (lineage c) as [b|] eqn:Eb.
    + apply elem_of_app in Hc as [Hc|Hc%list_elem_of_singleton].
      * left. exists c. by rewrite Eb.
      * right. rewrite <- Hc. eauto.
    + destruct (decide (j = n)) as [->|Hne].
      * right. simplify_eq. by rewrite Eb.
      * left. exists c. rewrite Eb. split; [done|lia].
  - intros [(c & Hj & Hc)|Hcat].
    + exists c. split; [done|]. destruct (lineage c) as [b|].
      * apply elem_of_app. by left.
      * lia.
    + destruct (lineage cat) as [b|] eqn:Eb.
      * destruct Hcat as (c & Hj & Hc). exists c. split; [done|].
        rewrite Hc. apply elem_of_app. right. by apply list_elem_of_singleton.
      * subst j. exists cat. rewrite Eb. split; [done|lia].
Qed.

Lemma consumed_self categories n cat :
  categories !! n = Some cat →
  consumed categories n n ↔
    ∃ b, lineage cat = Some b ∧ Some b ∈ lineage <$> take n categories.
Proof.
  intros Hn. unfold consumed. split.
  - intros (c & Hc & Hl). rewrite Hn in Hc. injection Hc as <-.
    destruct (lineage cat) as [b|]; [|lia]. by exists b.
  - intros (b & Hb & Hin). exists cat. by rewrite Hb.
Qed.

Lemma groupsSpec_snoc categories (pre : list DataViewCategoryColumn) cat :
  omap (λ '(idx, cat), groupOf categories idx cat) (imap pair (pre ++ [cat]))
  = omap (λ '(idx, cat), groupOf categories idx cat) (imap pair pre)
    ++ from_option (λ item, [item]) [] (groupOf categories (length pre) cat).
Proof.
  rewrite imap_app, omap_app. simpl. rewrite Nat.add_0_r.
  by destruct (groupOf categories (length pre) cat).
Qed.

Lemma groupStep_prefix categories (pre rest : list DataViewCategoryColumn) :
  categories = pre ++ rest →
  ∃ processed,
    forEachFrom (groupStep categories) 0 pre ([], ∅)
    = (omap (λ '(idx, cat), groupOf categories idx cat) (imap pair pre),
       processed)
    ∧ ∀ j, j ∈ processed ↔ consumed categories (length pre) j.
Proof.
  revert rest. induction pre as [|cat pre IH] using rev_ind; intros rest Hcat.
  { exists ∅. split; [done|]. intros j. split; [by intros ?%not_elem_of_empty|].
    intros (c & _ & Hc). destruct (lineage c); simpl in Hc; [|lia].
    by apply elem_of_nil in Hc. }
  destruct (IH (cat :: rest)) as (processed & E & Hp).
  { by rewrite Hcat, <- (assoc_L (++)). }
  assert (categories !! length pre = Some cat) as Hn.
  { rewrite Hcat, <- (assoc_L (++)). by apply list_lookup_middle. }
  rewrite forEachFrom_snoc, E, groupsSpec_snoc, length_app. simpl.
  replace (length pre + 1) with (S (length pre)) by lia.
  unfold groupStep, groupOf.
  pose proof (consumed_self categories _ _ Hn) as Hself.
  pose proof (λ j, consumed_next categories _ _ j Hn) as Hnext.
  case_bool_decide as Hin.
  - apply Hp, Hself in Hin as (b & Hb & Hseen).
    rewrite Hb, bool_decide_eq_true_2 by done. simpl. rewrite app_nil_r.
    exists processed. split; [done|]. intros j.
    rewrite Hnext, Hb, Hp. split; [by left|]. intros [?|(c & Hj & Hc)]; [done|].
    exists c. by rewrite Hc.
  - assert (lineage cat = match queryName (source cat) with
                          | Some q => if truthy q then Some (splitHead q)
                                      else None
                          | None => None
                          end) as Hl by done.
    destruct (queryName (source cat)) as [q|].
    2: { rewrite Hl. simpl. eexists. split; [done|]. intros j.
         rewrite Hnext, Hl, elem_of_union, elem_of_singleton, Hp. tauto. }
    destruct (truthy q).
    2: { rewrite Hl. simpl. eexists. split; [done|]. intros j.
         rewrite Hnext, Hl, elem_of_union, elem_of_singleton, Hp. tauto. }
    rewrite Hl. rewrite bool_decide_eq_false_2.
    2: { intros Hseen. apply Hin, Hp, Hself. eauto. }
    destruct (collectRelated_spec categories (splitHead q) processed)
      as (processed' & -> & Hp').
    assert (∀ j, j ∈ processed' ↔ consumed categories (S (length pre)) j)
      as Hfinal.
    { intros j. by rewrite Hnext, Hl, Hp', Hp. }
    case_bool_decide; simpl; by eexists.
Qed.

Lemma groupCategories_spec categories :
  groupCategories categories = groupsSpec categories.
Proof.
  unfold groupCategories, groupsSpec.
  destruct (groupStep_prefix categories categories []) as (processed & -> & _);
    [by rewrite app_nil_r|done].
Qed.

Lemma groupOf_index categories idx cat item :
  groupOf categories idx cat = Some item → itemIndex item = idx.
Proof.
  unfold groupOf. intros E. repeat case_match; by simplify_eq.
Qed.

Lemma groupsSpec_sorted categories (pre : list DataViewCategoryColumn) :
  StronglySorted lt
    (itemIndex <$> omap (λ '(idx, cat), groupOf categories idx cat)
                     (imap pair pre))
  ∧ ∀ item,
      item ∈ omap (λ '(idx, cat), groupOf categories idx cat) (imap pair pre) →
      itemIndex item < length pre.
Proof.
  induction pre as [|cat pre [IHs IHb]] using rev_ind.
  { split; [constructor|]. intros item Hin. by apply elem_of_nil in Hin. }
  rewrite groupsSpec_snoc, fmap_app, length_app. simpl.
  destruct (groupOf categories (length pre) cat) as [item|] eqn:E; simpl.
  - apply groupOf_index in E. split.
    + apply StronglySorted_app_2; [|done|repeat constructor].
      intros i j Hi ->%list_elem_of_singleton.
      apply list_elem_of_fmap in Hi as (item' & -> & Hin).
      rewrite E. by apply IHb.
    + intros item' [Hin| ->%list_elem_of_singleton]%elem_of_app.
      * apply IHb in Hin. lia.
      * lia.
  - rewrite !app_nil_r. split; [done|].
    intros item Hin. apply IHb in Hin. lia.
Qed.

Lemma buildHierarchy_categories collapsedStates itemName categories orderIndex
  vis :
  ∃ cat,
    filterCategories
      (buildHierarchy collapsedStates itemName categories orderIndex vis)
    = filterCategories vis ++ [cat]
    ∧ name cat = itemName ∧ order cat = orderIndex.
Proof. unfold buildHierarchy. rewrite firstPass_spec. by eexists. Qed.

Lemma buildSingle_categories collapsedStates category orderIndex vis :
  ∃ cat,
    filterCategories (buildSingle collapsedStates category orderIndex vis)
    = filterCategories vis ++ [cat]
    ∧ name cat = categoryNameOf category orderIndex ∧ order cat = orderIndex.
Proof.
  unfold buildSingle, singleValues. rewrite singleValues_spec. by eexists.
Qed.

Lemma processItems_names collapsedStates (items : list OrderItem) : ∀ i vis,
  (λ c, (name c, order c))
    <$> filterCategories
          (forEachFrom (λ vis orderIndex item,
               match item with
               | Hierarchy itemName _ cats =>
                   buildHierarchy collapsedStates itemName cats orderIndex vis
               | Single _ _ category =>
                   buildSingle collapsedStates category orderIndex vis
               end) i items vis)
  = ((λ c, (name c, order c)) <$> filterCategories vis)
    ++ imap (λ n item, (groupName (i + n) item, i + n)) items.
Proof.
  induction items as [|item items IH]; intros i vis; simpl.
  { by rewrite app_nil_r. }
  rewrite IH. clear IH. rewrite Nat.add_0_r.
  assert (∀ n item', (groupName (S i + n) item', S i + n)
                     = ((λ n item, (groupName (i + n) item, i + n)) ∘ S) n item')
    as Hshift.
  { intros n item'. simpl. by replace (i + S n) with (S (i + n)) by lia. }
  rewrite (imap_ext _ _ _ (λ n item' _, Hshift n item')).
  destruct item as [itemName idx cats|itemName idx category]; simpl.
  - destruct (buildHierarchy_categories collapsedStates itemName cats i vis)
      as (cat & -> & Hn & Ho).
    rewrite fmap_app, <- (assoc_L (++)). simpl. by rewrite Hn, Ho.
  - destruct (buildSingle_categories collapsedStates category i vis)
      as (cat & -> & Hn & Ho).
    rewrite fmap_app, <- (assoc_L (++)). simpl. by rewrite Hn, Ho.
Qed.

(** ** The names of the groups *)

Lemma append_empty s : "" +:+ s = s.
Proof. done. Qed.

Lemma append_String c s t : String c s +:+ t = String c (s +:+ t).
Proof. done. Qed.

Lemma splitHead_beforeFirstDot s : beforeFirstDot (splitHead s) s.
Proof.
  induction s as [|c s [IHn IHs]]; simpl.
  - split; [|by left]. by intros [|? ?] r.
  - case_bool_decide as Hc.
    + subst c. split; [by intros [|? ?] r|]. right. by exists s.
    + split.
      * intros [|c' l] r E.
        -- rewrite append_empty, append_String in E. by simplify_eq.
        -- rewrite append_String in E. simplify_eq. by eapply IHn.
      * destruct IHs as [E|[rest E]]; [left|right; exists rest];
          rewrite ?append_String; by f_equal.
Qed.

Lemma beforeFirstDot_unique p : ∀ s, beforeFirstDot p s → p = splitHead s.
Proof.
  induction p as [|c p IH]; intros s [Hn Hs].
  - by destruct Hs as [->|[rest ->]].
  - assert (c ≠ "."%char) as Hc.
    { intros ->. by apply (Hn "" p). }
    assert (∀ l r, p ≠ l +:+ "." +:+ r) as Hp.
    { intros l r ->. by apply (Hn (String c l) r). }
    destruct Hs as [->|[rest ->]]; rewrite ?append_String; simpl;
      rewrite bool_decide_eq_false_2 by done; f_equal; apply IH;
      split; eauto.
Qed.

(** The lineage key of a field is the part of its query name before
    the first dot; a field without query name, or with an empty one,
    has none. *)
Lemma lineage_spec cat b :
  lineage cat = Some b
  ↔ ∃ q, queryName (source cat) = Some q ∧ q ≠ "" ∧ beforeFirstDot b q.
Proof.
  unfold lineage, truthy. split.
  - destruct (queryName (source cat)) as [q|]; [|done].
    case_bool_decide as Hq; [done|]. simpl. intros [= <-].
    exists q. split_and!; [done..|]. apply splitHead_beforeFirstDot.
  - intros (q & -> & Hq & Hb). rewrite bool_decide_eq_false_2 by done.
    simpl. f_equal. symmetry. by apply beforeFirstDot_unique.
Qed.

Lemma related_absent (l : list DataViewCategoryColumn) b :
  Some b ∉ lineage <$> l → related l b = [].
Proof.
  unfold related. induction l as [|c l IH]; intros Hn; [done|].
  rewrite fmap_cons in Hn. apply not_elem_of_cons in Hn as [Hc Hn].
  rewrite filter_cons_False by done. by apply IH.
Qed.

(** The first field of a lineage key is the first of the fields that
    share the key. *)
Lemma related_head categories idx cat b :
  categories !! idx = Some cat → lineage cat = Some b →
  Some b ∉ lineage <$> take idx categories →
  head (related categories b) = Some cat.
Proof.
  intros Hi Hb Hn. apply related_absent in Hn.
  rewrite <- (take_drop_middle categories idx cat Hi).
  unfold related in *. rewrite filter_app, Hn.
  by rewrite filter_cons_True.
Qed.

(** The name under which a group is stored is the name that the fields
    of the group give. *)
Lemma groupName_spec categories idx cat item position :
  categories !! idx = Some cat →
  groupOf categories idx cat = Some item →
  groupName position item = groupNameSpec position item.
Proof.
  intros Hi. unfold groupOf.
  assert (∀ category,
            categoryNameOf category position
            = groupNameSpec position
                (Single (src_displayName (source category)) idx category))
    as Hsingle.
  { intros category. unfold categoryNameOf, groupNameSpec, decimal, truthy.
    rewrite Nat.add_1_r.
    destruct (src_displayName (source category)) as [d|]; [|done].
    by case_bool_decide. }
  destruct (lineage cat) as [b|] eqn:Hb.
  - case_bool_decide as Hseen; [done|].
    case_bool_decide as Hlen; intros [= <-]; [|apply Hsingle].
    unfold groupName, groupNameSpec.
    rewrite (related_head categories idx cat b) by done.
    rewrite Hb. unfold hierarchyNameOf, truthy. simpl.
    destruct (src_displayName (source cat)) as [d|]; [|done].
    by case_bool_decide.
  - intros [= <-]. apply Hsingle.
Qed.

Lemma groupsSpec_names categories :
  imap (λ n item, (groupName n item, n)) (groupsSpec categories)
  = imap (λ n item, (groupNameSpec n item, n)) (groupsSpec categories).
Proof.
  apply imap_ext. intros n item Hn. f_equal.
  apply list_elem_of_lookup_2, list_elem_of_omap in Hn
    as ([idx cat] & Hin & E).
  apply elem_of_lookup_imap in Hin as (i & c & [= -> ->] & Hi).
  by eapply groupName_spec.
Qed.

(** C9, as stated, fails for the name of a group.  The fields Food.Kind
    and Food.Item with the display names Menu.Kind and Menu.Item give a
    hierarchy named Menu, which is neither the display name of its
    first field nor the lineage key Food; the field Shop.Name without a
    display name gives a standalone group named Filter 2, not named by
    its lineage key Shop. *)
Lemma hierarchy_name_is_display_prefix :
  groupCategories [Naming.kind; Naming.item; Naming.shop]
  = [Hierarchy "Menu" 0 [Naming.kind; Naming.item];
     Single None 2 Naming.shop]
  ∧ src_displayName (source Naming.kind) = Some "Menu.Kind"
  ∧ lineage Naming.kind = Some "Food"
  ∧ src_displayName (source Naming.shop) = None
  ∧ lineage Naming.shop = Some "Shop"
  ∧ (name <$> filterCategories
                (processData (Some [Naming.kind; Naming.item; Naming.shop])
                   Sample.empty))
    = ["Menu"; "Filter 2"].
Proof. split_and!; vm_compute; reflexivity. Qed.

(** C9, amended.  The grouper emits, in the order in which each group's
    first field appears in the input, one group per set of fields that
    share a lineage key (the part of the query name before its first
    dot): a field without lineage key, or the only field of its lineage
    key, becomes a standalone group, and a set of more than one field
    becomes a hierarchy whose levels are these fields in their original
    order.  A hierarchy is named by the part of the display name of its
    first field before the first dot, or by the lineage key when that
    part is empty or the display name is unset; a standalone group is
    named by the display name of its field, or Filter n with n its
    position among the groups, counted from one, when the display name
    is empty or unset. *)
Theorem groups_follow_lineage (categories : list DataViewCategoryColumn) :
  (∀ s, beforeFirstDot (splitHead s) s)
  ∧ (∀ cat b,
       lineage cat = Some b
       ↔ ∃ q, queryName (source cat) = Some q ∧ q ≠ ""
              ∧ beforeFirstDot b q)
  ∧ groupCategories categories = groupsSpec categories
  ∧ StronglySorted lt (itemIndex <$> groupCategories categories)
  ∧ ∀ vis,
      (λ c, (name c, order c))
        <$> filterCategories (processData (Some categories) vis)
      = imap (λ n item, (groupNameSpec n item, n)) (groupCategories categories).
Proof.
  split_and!.
  - apply splitHead_beforeFirstDot.
  - apply lineage_spec.
  - apply groupCategories_spec.
  - rewrite groupCategories_spec. apply groupsSpec_sorted.
  - intros vis. unfold processData. rewrite processItems_names.
    rewrite groupCategories_spec. apply groupsSpec_names.
Qed.

(** ** What the first pass hands to the second *)

Lemma levelRows_keys category k :
  k ∈ (levelRows category).*1 ↔ k ∈ canonicalKeys category.
Proof. apply firstOccurrences_keys. Qed.

Lemma levelMap_get base category k a :
  mapGet k (levelMap base category) = Some a ↔
    ∃ p, (levelRows category).*1 !! p = Some k ∧ a = base + p.
Proof.
  unfold levelMap.
  assert (length (levelRows category).*1
          = length (seq base (length (levelRows category)))) as Hlen
    by by rewrite length_fmap, length_seq.
  split.
  - intros Hin%mapGet_Some. apply list_elem_of_lookup in Hin as [p Hp].
    apply lookup_zip_with_Some in Hp as (k' & a' & [= <- <-] & Hk & Ha).
    apply lookup_seq in Ha as [-> _]. by exists p.
  - intros (p & Hk & ->). apply mapGet_NoDup.
    + rewrite fst_zip by lia. apply firstOccurrences_NoDup_keys.
    + apply list_elem_of_lookup. exists p.
      apply lookup_zip_with_Some. exists k, (base + p). split_and!; [done..|].
      apply lookup_seq. split; [done|].
      apply lookup_lt_Some in Hk. by rewrite length_fmap in Hk.
Qed.

Lemma levelNodes_lookup category p k :
  (levelRows category).*1 !! p = Some k →
  ∃ v, levelNodes category !! p = Some v
       ∧ value v = k ∧ children v = Some [] ∧ parentValue v = None
       ∧ indeterminate v = None ∧ selected v = false.
Proof.
  rewrite list_lookup_fmap. unfold levelNodes. rewrite list_lookup_fmap.
  destruct (levelRows category !! p) as [[k' i]|]; [|done].
  intros [= <-]. by eexists.
Qed.

Section FirstPassResult.

Variables (categories : list DataViewCategoryColumn) (h0 : Heap).

Let valuesByLevel := passMaps (length h0) categories.
Let h1 := h0 ++ mjoin (levelNodes <$> categories).

Lemma passMaps_get i m k a :
  valuesByLevel !! i = Some m → mapGet k m = Some a →
  ∃ c p, categories !! i = Some c
         ∧ (levelRows c).*1 !! p = Some k
         ∧ a = levelBase (length h0) categories i + p.
Proof.
  intros Hi Hk. unfold valuesByLevel in Hi.
  destruct (categories !! i) as [c|] eqn:Ec.
  - rewrite (passMaps_lookup _ _ _ _ Ec) in Hi. injection Hi as <-.
    apply levelMap_get in Hk as (p & Hp & ->). by exists c, p.
  - apply lookup_lt_Some in Hi. rewrite passMaps_length in Hi.
    apply lookup_ge_None in Ec. lia.
Qed.

Lemma passMaps_node i m k a :
  valuesByLevel !! i = Some m → mapGet k m = Some a →
  ∃ v, h1 !! a = Some v
       ∧ value v = k ∧ children v = Some [] ∧ parentValue v = None
       ∧ indeterminate v = None ∧ selected v = false.
Proof.
  intros Hi Hk. destruct (passMaps_get i m k a Hi Hk) as (c & p & Hc & Hp & ->).
  unfold h1. rewrite (passHeap_lookup _ _ _ _ _ Hc).
  - by apply levelNodes_lookup.
  - apply lookup_lt_Some in Hp. by rewrite length_fmap in Hp.
Qed.

Lemma passMaps_levelled : Levelled categories valuesByLevel h1.
Proof.
  split.
  - apply passMaps_length.
  - intros i m k a Hi Hk.
    destruct (passMaps_node i m k a Hi Hk) as (v & Hv & <- & _).
    unfold valueAt. by rewrite Hv.
  - assert (∀ i i' m m' k k' a,
      valuesByLevel !! i = Some m → valuesByLevel !! i' = Some m' →
      mapGet k m = Some a → mapGet k' m' = Some a → ¬ i < i') as Hlt.
    { intros i i' m m' k k' a Hi Hi' Hk Hk' Hii.
      destruct (passMaps_get i m k a Hi Hk) as (c & p & Hc & Hp & ->).
      destruct (passMaps_get i' m' k' _ Hi' Hk') as (c' & p' & Hc' & Hp' & E).
      apply lookup_lt_Some in Hp. rewrite length_fmap in Hp.
      pose proof (levelBase_step _ (length h0) _ _ Hc) as Hstep.
      pose proof (levelBase_mono categories (length h0) (S i) i' Hii). lia. }
    intros i i' m m' k k' a Hi Hi' Hk Hk'.
    destruct (lt_eq_lt_dec i i') as [[Hii| ->]|Hii].
    + by destruct (Hlt _ _ _ _ _ _ _ Hi Hi' Hk Hk').
    + split; [done|]. simplify_eq.
      destruct (passMaps_get i' m k a Hi Hk) as (c & p & Hc & Hp & ->).
      destruct (passMaps_get i' m k' _ Hi Hk') as (c' & p' & Hc' & Hp' & E).
      simplify_eq. assert (p = p') as -> by lia. congruence.
    + by destruct (Hlt _ _ _ _ _ _ _ Hi' Hi Hk' Hk).
  - intros i m c k Hi Hc. unfold valuesByLevel in Hi.
    rewrite (passMaps_lookup _ _ _ _ Hc) in Hi. injection Hi as <-.
    rewrite <- levelRows_keys. split.
    + intros [a (p & Hp & _)%levelMap_get]. by eapply list_elem_of_lookup_2.
    + intros [p Hp]%list_elem_of_lookup. eexists. apply levelMap_get. eauto.
Qed.

Lemma passMaps_linked :
  Linked categories valuesByLevel (λ _, 0) h1.
Proof.
  assert (∀ i, edges categories i 0 = []) as E0.
  { intros i. unfold edges, linkedPairs. by repeat case_match. }
  split.
  - intros i m k a Hi Hk. rewrite E0.
    destruct (passMaps_node i m k a Hi Hk) as (v & Hv & _ & Hc & _).
    unfold kids. rewrite Hv. simpl. unfold childrenOf. by rewrite Hc.
  - intros i m k a Hi Hk. rewrite E0.
    destruct (passMaps_node _ m k a Hi Hk) as (v & Hv & _ & _ & Hp & _).
    unfold parentValueAt. by rewrite Hv.
  - intros m k a Hi Hk.
    destruct (passMaps_node _ m k a Hi Hk) as (v & Hv & _ & _ & Hp & _).
    unfold parentValueAt. by rewrite Hv.
Qed.

End FirstPassResult.

(** ** Edges, row by row *)

Lemma firstOccurrences_fst_snoc {A} `{EqDecision A} (l : list A) x :
  (firstOccurrences (l ++ [x])).*1
  = (firstOccurrences l).*1
    ++ (if bool_decide (x ∈ (firstOccurrences l).*1) then [] else [x]).
Proof.
  rewrite firstOccurrences_snoc, fmap_app.
  rewrite (bool_decide_ext _ _ (firstOccurrences_keys l x)).
  by case_bool_decide.
Qed.

Lemma linkedPairs_S categories i r parentCat childCat :
  categories !! i = Some parentCat → categories !! S i = Some childCat →
  linkedPairs categories i (S r)
  = linkedPairs categories i r
    ++ (if decide (linkable parentCat childCat (rowPair parentCat childCat r))
        then [rowPair parentCat childCat r] else []).
Proof.
  intros Hp Hc. unfold linkedPairs. rewrite Hp, Hc.
  by rewrite seq_S, fmap_app, filter_app.
Qed.

Lemma edges_S_linkable categories i r parentCat childCat :
  categories !! i = Some parentCat → categories !! S i = Some childCat →
  linkable parentCat childCat (rowPair parentCat childCat r) →
  edges categories i (S r)
  = edges categories i r
    ++ (if bool_decide (rowPair parentCat childCat r ∈ edges categories i r)
        then [] else [rowPair parentCat childCat r]).
Proof.
  intros Hp Hc Hl. unfold edges.
  rewrite (linkedPairs_S _ _ _ _ _ Hp Hc), decide_True by done.
  apply firstOccurrences_fst_snoc.
Qed.

Lemma edges_S_unlinkable categories i r parentCat childCat :
  categories !! i = Some parentCat → categories !! S i = Some childCat →
  ¬ linkable parentCat childCat (rowPair parentCat childCat r) →
  edges categories i (S r) = edges categories i r.
Proof.
  intros Hp Hc Hl. unfold edges.
  by rewrite (linkedPairs_S _ _ _ _ _ Hp Hc), decide_False, app_nil_r by done.
Qed.

Lemma edges_no_level categories i r :
  categories !! S i = None → edges categories i r = [].
Proof.
  intros Hc. unfold edges, linkedPairs. rewrite Hc. by destruct (categories !! i).
Qed.

Lemma childKeys_snoc E pk ck k :
  childKeys (E ++ [(pk, ck)]) k
  = childKeys E k ++ (if bool_decide (pk = k) then [ck] else []).
Proof.
  unfold childKeys. rewrite filter_app, fmap_app.
  change (filter (λ e, e.1 = k) [(pk, ck)])
    with (if decide (pk = k) then [(pk, ck)] else []).
  case_decide; case_bool_decide; done.
Qed.

Lemma childKeys_elem E pk ck : ck ∈ childKeys E pk ↔ (pk, ck) ∈ E.
Proof.
  unfold childKeys. rewrite list_elem_of_fmap. split.
  - intros ([pk' ck'] & -> & [Hpk Hin]%list_elem_of_filter). simpl in *.
    by subst.
  - intros Hin. exists (pk, ck). split; [done|].
    by apply list_elem_of_filter.
Qed.

Lemma lastParent_snoc E pk ck k :
  lastParent (E ++ [(pk, ck)]) k
  = if bool_decide (ck = k) then Some pk else lastParent E k.
Proof.
  unfold lastParent. rewrite filter_app.
  change (filter (λ e, e.2 = k) [(pk, ck)])
    with (if decide (ck = k) then [(pk, ck)] else []).
  case_decide; case_bool_decide; try done.
  - by rewrite last_snoc.
  - by rewrite app_nil_r.
Qed.

Lemma addressesOf_app valuesByLevel i l1 l2 :
  addressesOf valuesByLevel i (l1 ++ l2)
  = addressesOf valuesByLevel i l1 ++ addressesOf valuesByLevel i l2.
Proof. apply omap_app. Qed.

Lemma addressesOf_singleton valuesByLevel i m k a :
  valuesByLevel !! i = Some m → mapGet k m = Some a →
  addressesOf valuesByLevel i [k] = [a].
Proof. intros Hm Hk. unfold addressesOf. csimpl. rewrite Hm. simpl. by rewrite Hk. Qed.

Lemma addressesOf_elem valuesByLevel i keys a :
  a ∈ addressesOf valuesByLevel i keys ↔
    ∃ k m, k ∈ keys ∧ valuesByLevel !! i = Some m ∧ mapGet k m = Some a.
Proof.
  unfold addressesOf. rewrite list_elem_of_omap. split.
  - intros (k & Hk & Ha). destruct (valuesByLevel !! i) as [m|]; [|done].
    by exists k, m.
  - intros (k & m & Hk & Hm & Ha). exists k. by rewrite Hm.
Qed.

Lemma keys_valueAt (h h' : Heap) a :
  keyAndIdentity <$> h' = keyAndIdentity <$> h → valueAt h' a = valueAt h a.
Proof.
  intros E. unfold valueAt.
  assert (keyAndIdentity <$> h' !! a = keyAndIdentity <$> h !! a) as Ea
    by by rewrite <- !list_lookup_fmap, E.
  destruct (h' !! a) as [v'|], (h !! a) as [v|]; simplify_eq/=; try done.
  unfold keyAndIdentity in Ea. congruence.
Qed.

Lemma Levelled_keys categories valuesByLevel (h h' : Heap) :
  keyAndIdentity <$> h' = keyAndIdentity <$> h →
  Levelled categories valuesByLevel h → Levelled categories valuesByLevel h'.
Proof.
  intros E [H1 H2 H3 H4]. split; try done.
  intros i m k a Hi Hk. rewrite (keys_valueAt h h' a E). by eapply H2.
Qed.

(** ** One step of the second pass *)

Lemma Linked_progress categories valuesByLevel progress progress' h :
  (∀ i, edges categories i (progress' i) = edges categories i (progress i)) →
  Linked categories valuesByLevel progress h →
  Linked categories valuesByLevel progress' h.
Proof.
  intros E [H1 H2 H3]. split; [| |done].
  - intros i m k a Hi Hk. rewrite E. by eapply H1.
  - intros i m k a Hi Hk. rewrite E. by eapply H2.
Qed.

Lemma link_write_lookup (h : Heap) p c pv cv f g a :
  p ≠ c → h !! p = Some pv → h !! c = Some cv →
  alter f c (alter g p h) !! a
  = if decide (a = c) then Some (f cv)
    else if decide (a = p) then Some (g pv) else h !! a.
Proof.
  intros Hpc Hp Hc. case_decide as Hac; [subst a|].
  - by rewrite list_lookup_alter_eq, list_lookup_alter_ne, Hc by done.
  - rewrite list_lookup_alter_ne by done. case_decide as Hap; [subst a|].
    + by rewrite list_lookup_alter_eq, Hp.
    + by rewrite list_lookup_alter_ne by done.
Qed.

Lemma valueAt_Some (h : Heap) a k :
  valueAt h a = Some k → ∃ v, h !! a = Some v ∧ value v = k.
Proof.
  unfold valueAt. destruct (h !! a) as [v|]; [|done].
  intros [= <-]. by exists v.
Qed.

Section LinkStep.

Variables (categories : list DataViewCategoryColumn)
  (valuesByLevel : list (JsMap Addr)).

(** The [some] test of the second pass decides membership of the pair
    among the edges. *)
Lemma link_check h progress j pm cm pk ck p c pv cv :
  Levelled categories valuesByLevel h →
  Linked categories valuesByLevel progress h →
  valuesByLevel !! j = Some pm → valuesByLevel !! S j = Some cm →
  mapGet pk pm = Some p → mapGet ck cm = Some c →
  h !! p = Some pv → h !! c = Some cv →
  existsb (λ c', bool_decide (valueAt h c' = Some (value cv))) (childrenOf pv)
  = bool_decide ((pk, ck) ∈ edges categories j (progress j)).
Proof.
  intros Lv Lk Hpm Hcm Hp Hc Hpv Hcv.
  assert (value cv = ck) as ->.
  { pose proof (levelled_value _ _ _ Lv _ _ _ _ Hcm Hc) as Hv.
    unfold valueAt in Hv. rewrite Hcv in Hv. by injection Hv. }
  assert (childrenOf pv
          = addressesOf valuesByLevel (S j)
              (childKeys (edges categories j (progress j)) pk)) as ->.
  { rewrite <- (linked_children _ _ _ _ Lk _ _ _ _ Hpm Hp).
    unfold kids. by rewrite Hpv. }
  apply eq_true_iff_eq. rewrite existsb_exists, bool_decide_eq_true.
  rewrite <- childKeys_elem. split.
  - intros (c' & Hin & Hv). apply list_elem_of_In in Hin.
    apply bool_decide_eq_true in Hv.
    apply addressesOf_elem in Hin as (k & m & Hk & Hm & Hget).
    pose proof (levelled_value _ _ _ Lv _ _ _ _ Hm Hget). congruence.
  - intros Hin. exists c. split.
    + apply list_elem_of_In, addressesOf_elem. by exists ck, cm.
    + apply bool_decide_eq_true.
      exact (levelled_value _ _ _ Lv _ _ _ _ Hcm Hc).
Qed.

Lemma linkPair_step progress h r j :
  Levelled categories valuesByLevel h →
  Linked categories valuesByLevel progress h →
  progress j = r →
  Linked categories valuesByLevel (<[j := S r]> progress)
    (linkPair categories valuesByLevel r j h).
Proof.
  intros Lv Lk Hr.
  assert (∀ E, (∀ i, i = j → edges categories i (S r) = E i) →
    (∀ i, i = j → E i = edges categories i r) →
    Linked categories valuesByLevel (<[j := S r]> progress) h) as Same.
  { intros E H1 H2. eapply Linked_progress; [|done]. intros i.
    destruct (decide (j = i)) as [<-|Hne].
    - by rewrite fn_lookup_insert, (H1 j), (H2 j), Hr.
    - by rewrite fn_lookup_insert_ne. }
  unfold linkPair. rewrite Nat.add_1_r.
  destruct (categories !! j) as [parentCat|] eqn:Ep.
  2: { apply (Same (λ _, [])); intros i ->; unfold edges, linkedPairs;
         by rewrite Ep. }
  destruct (categories !! S j) as [childCat|] eqn:Ec.
  2: { apply (Same (λ _, [])); intros i ->; by rewrite edges_no_level. }
  destruct (valuesByLevel !! j) as [pm|] eqn:Epm.
  2: { apply lookup_ge_None in Epm. apply lookup_lt_Some in Ep.
       rewrite (levelled_length _ _ _ Lv) in Epm. lia. }
  destruct (valuesByLevel !! S j) as [cm|] eqn:Ecm.
  2: { apply lookup_ge_None in Ecm. apply lookup_lt_Some in Ec.
       rewrite (levelled_length _ _ _ Lv) in Ecm. lia. }
  set (pk := canonical (cellAt parentCat r)).
  set (ck := canonical (cellAt childCat r)).
  assert (rowPair parentCat childCat r = (pk, ck)) as Hpair by done.
  pose proof (levelled_keys _ _ _ Lv j pm parentCat pk Epm Ep) as Hkp.
  pose proof (levelled_keys _ _ _ Lv (S j) cm childCat ck Ecm Ec) as Hkc.
  assert (∀ p c, mapGet pk pm = p → mapGet ck cm = c →
            ¬ (is_Some p ∧ is_Some c) →
            Linked categories valuesByLevel (<[j := S r]> progress) h) as Miss.
  { intros p c Hp Hc Hnot.
    apply (Same (λ i, edges categories i r)); [|done]. intros i ->.
    eapply edges_S_unlinkable; [done..|]. rewrite Hpair.
    intros [H1 H2]. simpl in *. apply Hnot. subst p c.
    split; [by apply Hkp|by apply Hkc]. }
  destruct (mapGet pk pm) as [p|] eqn:Hp.
  2: { apply (Miss None (mapGet ck cm)); [done..|]. by intros [[? ?] _]. }
  destruct (mapGet ck cm) as [c|] eqn:Hc.
  2: { apply (Miss (Some p) None); [done..|]. by intros [_ [? ?]]. }
  clear Miss.
  assert (linkable parentCat childCat (rowPair parentCat childCat r)) as Hl.
  { rewrite Hpair. split; simpl; [apply Hkp|apply Hkc]; by eexists. }
  destruct (valueAt_Some h p pk) as (pv & Hpv & Hvp);
    [exact (levelled_value _ _ _ Lv _ _ _ _ Epm Hp)|].
  destruct (valueAt_Some h c ck) as (cv & Hcv & Hvc);
    [exact (levelled_value _ _ _ Lv _ _ _ _ Ecm Hc)|].
  rewrite Hpv, Hcv.
  rewrite (link_check h progress j pm cm pk ck p c pv cv) by done.
  rewrite Hr.
  pose proof (edges_S_linkable _ _ r _ _ Ep Ec Hl) as HE. rewrite Hpair in HE.
  case_bool_decide as Hin.
  { apply (Same (λ i, edges categories i r ++ [])); intros i ->; [done|].
    by rewrite app_nil_r. }
  assert (p ≠ c) as Hpc.
  { intros ->.
    destruct (levelled_inj _ _ _ Lv _ _ _ _ _ _ _ Epm Ecm Hp Hc) as [? _]. lia. }
  set (h' := alter (withParentValue (value pv)) c
               (alter (withChildren (childrenOf pv ++ [c])) p h)).
  assert (∀ a, h' !! a
    = if decide (a = c) then Some (withParentValue (value pv) cv)
      else if decide (a = p)
           then Some (withChildren (childrenOf pv ++ [c]) pv)
           else h !! a) as Hlook.
  { intros a. by apply link_write_lookup. }
  assert (∀ a, kids h' a = if decide (a = p) then kids h p ++ [c]
                           else kids h a) as Hkids.
  { intros a. unfold kids. rewrite Hlook.
    case_decide as Hac; [subst a|].
    - rewrite decide_False by done. by rewrite Hcv.
    - case_decide; [subst a; by rewrite Hpv|done]. }
  assert (∀ a, parentValueAt h' a = if decide (a = c) then Some pk
                                    else parentValueAt h a) as Hpar.
  { intros a. unfold parentValueAt. rewrite Hlook.
    case_decide as Hac; [by subst pk; rewrite Hvp|].
    case_decide; [subst a; by rewrite Hpv|done]. }
  split.
  - intros i m k a Hi Hk. rewrite Hkids.
    rewrite (linked_children _ _ _ _ Lk _ _ _ _ Hi Hk).
    case_decide as Hap.
    + subst a.
      destruct (levelled_inj _ _ _ Lv _ _ _ _ _ _ _ Hi Epm Hk Hp) as [-> ->].
      rewrite (linked_children _ _ _ _ Lk _ _ _ _ Epm Hp).
      rewrite fn_lookup_insert, HE, Hr, childKeys_snoc, addressesOf_app.
      rewrite bool_decide_eq_true_2 by done. f_equal.
      symmetry. by eapply addressesOf_singleton.
    + destruct (decide (j = i)) as [<-|Hne].
      * rewrite fn_lookup_insert, HE, Hr, childKeys_snoc.
        rewrite bool_decide_eq_false_2; [by rewrite app_nil_r|].
        intros <-. apply Hap. clear -Hi Epm Hk Hp. congruence.
      * by rewrite fn_lookup_insert_ne.
  - intros i m k a Hi Hk. rewrite Hpar.
    rewrite (linked_parent _ _ _ _ Lk _ _ _ _ Hi Hk).
    case_decide as Hac.
    + subst a.
      destruct (levelled_inj _ _ _ Lv _ _ _ _ _ _ _ Hi Ecm Hk Hc) as [[= ->] ->].
      rewrite fn_lookup_insert, HE, lastParent_snoc.
      by rewrite bool_decide_eq_true_2.
    + destruct (decide (j = i)) as [<-|Hne].
      * rewrite fn_lookup_insert, HE, Hr, lastParent_snoc.
        rewrite bool_decide_eq_false_2; [done|].
        intros <-. apply Hac. clear -Hi Ecm Hk Hc. congruence.
      * by rewrite fn_lookup_insert_ne.
  - intros m k a Hi Hk. rewrite Hpar.
    rewrite (linked_root _ _ _ _ Lk _ _ _ Hi Hk).
    case_decide as Hac; [|done]. subst a.
    by destruct (levelled_inj _ _ _ Lv _ _ _ _ _ _ _ Hi Ecm Hk Hc) as [? _].
Qed.

End LinkStep.

(** ** The second pass as a whole *)

Lemma secondPass_rows categories valuesByLevel h :
  secondPass categories valuesByLevel h
  = foldl (λ h rowIdx,
        foldl (λ h levelIdx,
            linkPair categories valuesByLevel rowIdx levelIdx h)
          h (seq 0 (length categories - 1)))
      h (seq 0 (rowCount categories)).
Proof. by destruct categories. Qed.

Section SecondPass.

Variables (categories : list DataViewCategoryColumn)
  (valuesByLevel : list (JsMap Addr)).

Lemma linkRow_linked r : ∀ len m0 h,
  Levelled categories valuesByLevel h →
  Linked categories valuesByLevel (λ i, if decide (i < m0) then S r else r) h →
  let h' :=
    foldl (λ h levelIdx, linkPair categories valuesByLevel r levelIdx h)
      h (seq m0 len) in
  Levelled categories valuesByLevel h'
  ∧ Linked categories valuesByLevel
      (λ i, if decide (i < m0 + len) then S r else r) h'.
Proof.
  induction len as [|len IH]; intros m0 h Lv Lk; simpl.
  { split; [done|]. eapply Linked_progress; [|done]. intros i. simpl.
    by replace (m0 + 0) with m0 by lia. }
  destruct (IH (S m0) (linkPair categories valuesByLevel r m0 h)) as [Lv' Lk'].
  - eapply Levelled_keys; [|done]. apply linkPair_keys.
  - eapply Linked_progress; [|eapply (linkPair_step _ _ _ h r m0); try done].
    + intros i. simpl. destruct (decide (m0 = i)) as [<-|Hne].
      * rewrite fn_lookup_insert. by rewrite decide_True by lia.
      * rewrite fn_lookup_insert_ne by done.
        repeat case_decide; try done; lia.
    + simpl. by rewrite decide_False by lia.
  - split; [done|]. eapply Linked_progress; [|done]. intros i. simpl.
    repeat case_decide; try done; lia.
Qed.

Lemma linkRows_linked : ∀ len r0 h,
  Levelled categories valuesByLevel h →
  Linked categories valuesByLevel (λ _, r0) h →
  let h' :=
    foldl (λ h rowIdx,
        foldl (λ h levelIdx,
            linkPair categories valuesByLevel rowIdx levelIdx h)
          h (seq 0 (length categories - 1)))
      h (seq r0 len) in
  Levelled categories valuesByLevel h'
  ∧ Linked categories valuesByLevel (λ _, r0 + len) h'.
Proof.
  induction len as [|len IH]; intros r0 h Lv Lk; simpl.
  { split; [done|]. eapply Linked_progress; [|done]. intros i. simpl.
    by replace (r0 + 0) with r0 by lia. }
  destruct (linkRow_linked r0 (length categories - 1) 0 h) as [Lv' Lk'];
    [done| |].
  { eapply Linked_progress; [|exact Lk]. intros i. simpl.
    repeat case_decide; try done; lia. }
  simpl in Lv', Lk'.
  destruct (IH (S r0) _ Lv') as [Lv'' Lk''].
  - eapply Linked_progress; [|done]. intros i. simpl.
    case_decide as Hi; [done|].
    rewrite !edges_no_level; [done| |];
      apply lookup_ge_None; lia.
  - split; [done|]. eapply Linked_progress; [|done]. intros i. simpl.
    by replace (r0 + S len) with (S r0 + len) by lia.
Qed.

Lemma secondPass_linked h :
  Levelled categories valuesByLevel h →
  Linked categories valuesByLevel (λ _, 0) h →
  Levelled categories valuesByLevel (secondPass categories valuesByLevel h)
  ∧ Linked categories valuesByLevel (λ _, rowCount categories)
      (secondPass categories valuesByLevel h).
Proof.
  intros Lv Lk. rewrite secondPass_rows.
  by apply (linkRows_linked (rowCount categories) 0 h).
Qed.

End SecondPass.

Lemma edges_linkable categories i n parentCat childCat e :
  categories !! i = Some parentCat → categories !! S i = Some childCat →
  e ∈ edges categories i n → linkable parentCat childCat e.
Proof.
  intros Hp Hc Hin. unfold edges in Hin.
  rewrite firstOccurrences_keys in Hin. unfold linkedPairs in Hin.
  rewrite Hp, Hc in Hin. by apply list_elem_of_filter in Hin as [? _].
Qed.

Lemma edges_NoDup categories i n : NoDup (edges categories i n).
Proof. apply firstOccurrences_NoDup_keys. Qed.

Lemma childKeys_NoDup E k : NoDup E → NoDup (childKeys E k).
Proof.
  intros ND. unfold childKeys. apply NoDup_fmap_2_strong.
  - intros [pk ck] [pk' ck'] [E1 _]%list_elem_of_filter
      [E2 _]%list_elem_of_filter Heq. simpl in *. congruence.
  - by apply NoDup_filter.
Qed.

Lemma addressesOf_values categories valuesByLevel h i m keys :
  Levelled categories valuesByLevel h →
  valuesByLevel !! i = Some m →
  (∀ k, k ∈ keys → is_Some (mapGet k m)) →
  valueAt h <$> addressesOf valuesByLevel i keys = Some <$> keys.
Proof.
  intros Lv Hm. induction keys as [|k keys IH]; intros Hall; [done|].
  destruct (Hall k) as [a Ha]; [by left|].
  change (k :: keys) with ([k] ++ keys).
  rewrite addressesOf_app, (addressesOf_singleton _ _ _ _ _ Hm Ha).
  rewrite !fmap_app, IH by (intros ??; apply Hall; by right).
  simpl. by rewrite (levelled_value _ _ _ Lv _ _ _ _ Hm Ha).
Qed.

(** ** The claim about linking *)

(** C8, as stated, fails for the parent key: a row whose pair was
    linked before does not write it.  With rows (P1, C), (P2, C),
    (P1, C) the child C lies under both parents, the last row that
    links it names P1, and its parent key stays P2. *)
Lemma repeated_pair_keeps_parentValue :
  kids (heap Shared.built) 0 = [2]
  ∧ kids (heap Shared.built) 1 = [2]
  ∧ lastLinkedParent [Shared.parents; Shared.members] 0 3 "C" = Some "P1"
  ∧ parentValueAt (heap Shared.built) 2 = Some "P2".
Proof. split_and!; vm_compute; reflexivity. Qed.

(** C8, amended.  After the linking pass the children of every node
    carry pairwise distinct keys: they are, in order, the child keys of
    the distinct (parent key, child key) pairs of the rows; and the
    parent key of a node is the parent key of the last row that added
    an edge to it, that is, of the last pair in which it occurs among
    the distinct pairs in the order of their first row; a row that
    repeats an earlier pair does not write it. *)
Theorem children_unique_parent_of_last_new_edge
  (categories : list DataViewCategoryColumn) (h0 : Heap)
  (calls : list HostCall) valuesByLevel h1 calls' :
  firstPass categories (h0, calls) = (valuesByLevel, (h1, calls')) →
  let h2 := secondPass categories valuesByLevel h1 in
  ∀ i m k a,
    valuesByLevel !! i = Some m → mapGet k m = Some a →
    valueAt h2 a = Some k
    ∧ NoDup (valueAt h2 <$> kids h2 a)
    ∧ valueAt h2 <$> kids h2 a
      = Some <$> childKeys (edges categories i (rowCount categories)) k
    ∧ parentValueAt h2 a
      = match i with
        | 0 => None
        | S i' => lastParent (edges categories i' (rowCount categories)) k
        end.
Proof.
  rewrite firstPass_spec. intros [= <- <- <-] h2 i m k a Hi Hk.
  destruct (secondPass_linked categories (passMaps (length h0) categories)
              (h0 ++ mjoin (levelNodes <$> categories))) as [Lv Lk].
  { apply passMaps_levelled. }
  { apply passMaps_linked. }
  fold h2 in Lv, Lk.
  assert (valueAt h2 <$> kids h2 a
          = Some <$> childKeys
                       (edges categories i (rowCount categories)) k) as Hkids.
  { rewrite (linked_children _ _ _ _ Lk _ _ _ _ Hi Hk).
    destruct (categories !! S i) as [childCat|] eqn:Ec.
    2: { by rewrite edges_no_level. }
    destruct (categories !! i) as [parentCat|] eqn:Ep.
    2: { apply lookup_ge_None in Ep. apply lookup_lt_Some in Ec. lia. }
    destruct (passMaps (length h0) categories !! S i) as [cm|] eqn:Ecm.
    2: { apply lookup_ge_None in Ecm. apply lookup_lt_Some in Ec.
         rewrite passMaps_length in Ecm. lia. }
    eapply addressesOf_values; [done..|].
    intros ck Hck%childKeys_elem.
    apply (edges_linkable _ _ _ _ _ _ Ep Ec) in Hck as [_ Hck].
    by apply (levelled_keys _ _ _ Lv _ _ _ _ Ecm Ec). }
  split_and!.
  - exact (levelled_value _ _ _ Lv _ _ _ _ Hi Hk).
  - rewrite Hkids. apply (NoDup_fmap_2 Some), childKeys_NoDup, edges_NoDup.
  - done.
  - destruct i as [|i'].
    + exact (linked_root _ _ _ _ Lk _ _ _ Hi Hk).
    + exact (linked_parent _ _ _ _ Lk _ _ _ _ Hi Hk).
Qed.

(** The theorem for the child C of the rows (P1, C), (P2, C), (P1, C). *)
Lemma children_unique_parent_of_last_new_edge_witness :
  valueAt Shared.linked 2 = Some "C"
  ∧ NoDup (valueAt Shared.linked <$> kids Shared.linked 2)
  ∧ valueAt Shared.linked <$> kids Shared.linked 2
    = Some <$> childKeys
                 (edges [Shared.parents; Shared.members] 1
                    (rowCount [Shared.parents; Shared.members])) "C"
  ∧ parentValueAt Shared.linked 2
    = lastParent
        (edges [Shared.parents; Shared.members] 0
           (rowCount [Shared.parents; Shared.members])) "C".
Proof.
  apply (children_unique_parent_of_last_new_edge
           [Shared.parents; Shared.members] [] [] Shared.maps Shared.nodes
           (levelMints Shared.parents ++ levelMints Shared.members)
           eq_refl 1 [("C", 2)] "C" 2); reflexivity.
Defined.

(** ** [processData] builds well-formed hierarchies *)

Lemma wfHierarchy_intro h levels :
  NoDup (mjoin (hl_values <$> levels)) →
  (∀ i, NoDup (valueAt h <$> levelValues levels i)) →
  (∀ i a, a ∈ levelValues levels i → a < length h) →
  (∀ i a c, a ∈ levelValues levels i → c ∈ kids h a →
     c ∈ levelValues levels (S i)) →
  (∀ i a k, a ∈ levelValues levels i → parentValueAt h a = Some k →
     ∃ j p, i = S j ∧ p ∈ levelValues levels j ∧ valueAt h p = Some k
            ∧ a ∈ kids h p) →
  wfHierarchy h levels = true.
Proof.
  intros ND Keys Valid Kids Parent. unfold wfHierarchy.
  apply andb_true_intro. split; [by apply bool_decide_eq_true|].
  apply forallb_forall. intros i _. apply andb_true_intro.
  split; [by apply bool_decide_eq_true|].
  apply forallb_forall. intros a Ha%list_elem_of_In. unfold wfNode.
  apply andb_true_intro. split; [apply andb_true_intro; split|].
  - apply bool_decide_eq_true. by eapply Valid.
  - apply forallb_forall. intros c Hc%list_elem_of_In.
    apply bool_decide_eq_true. by eapply Kids.
  - destruct (parentValueAt h a) as [k|] eqn:Ek; [|done].
    destruct (Parent i a k Ha Ek) as (j & p & -> & Hp & Hk & Hin).
    apply existsb_exists. exists p. split; [by apply list_elem_of_In|].
    apply andb_true_intro. split; by apply bool_decide_eq_true.
Qed.

(** A heap that agrees with [h] on the addresses of [h] keeps its
    well-formed hierarchies. *)
Lemma wfHierarchy_extend (h h' : Heap) levels :
  wfHierarchy h levels = true →
  (∀ a, a < length h → h' !! a = h !! a) →
  wfHierarchy h' levels = true.
Proof.
  intros wf Same.
  assert (∀ i a, a ∈ levelValues levels i → h' !! a = h !! a) as Lv.
  { intros i a Ha. apply Same. by eapply wf_valid. }
  assert (∀ i a, a ∈ levelValues levels i → kids h' a = kids h a) as Hk.
  { intros i a Ha. unfold kids. by rewrite (Lv i a Ha). }
  assert (∀ i a, a ∈ levelValues levels i → valueAt h' a = valueAt h a) as Hv.
  { intros i a Ha. unfold valueAt. by rewrite (Lv i a Ha). }
  assert (∀ i a, a ∈ levelValues levels i →
            parentValueAt h' a = parentValueAt h a) as Hp.
  { intros i a Ha. unfold parentValueAt. by rewrite (Lv i a Ha). }
  apply wfHierarchy_intro.
  - unfold wfHierarchy in wf. apply andb_prop in wf as [ND _].
    by apply bool_decide_eq_true in ND.
  - intros i.
    rewrite (list_fmap_ext (valueAt h') (valueAt h) (levelValues levels i)).
    + by apply wf_keys.
    + intros n a Hn. apply (Hv i). by eapply list_elem_of_lookup_2.
  - intros i a Ha. apply lookup_lt_is_Some. rewrite (Lv i a Ha).
    apply lookup_lt_is_Some. by eapply wf_valid.
  - intros i a c Ha. rewrite (Hk i a Ha). by eapply wf_kids.
  - intros i a k Ha. rewrite (Hp i a Ha). intros Hpar.
    destruct (wf_parent h levels wf i a k Ha Hpar) as (j & p & -> & ? & ? & ?).
    exists j, p. split_and!; [done|done| |].
    + by rewrite (Hv j p).
    + by rewrite (Hk j p).
Qed.

(** The second pass writes nodes of its level maps only. *)
Lemma linkPair_other categories valuesByLevel r i (h : Heap) a :
  (∀ j m k, valuesByLevel !! j = Some m → mapGet k m ≠ Some a) →
  linkPair categories valuesByLevel r i h !! a = h !! a.
Proof.
  intros Hno. unfold linkPair.
  destruct (categories !! i); [|done].
  destruct (categories !! (i + 1)); [|done].
  destruct (valuesByLevel !! i) as [pm|] eqn:Epm; [|done].
  destruct (valuesByLevel !! (i + 1)) as [cm|] eqn:Ecm; [|done].
  destruct (mapGet _ pm) as [p|] eqn:Hp; [|done].
  destruct (mapGet _ cm) as [c|] eqn:Hc; [|done].
  destruct (h !! p); [|done]. destruct (h !! c); [|done].
  case_match; [done|].
  rewrite !list_lookup_alter_ne; [done| |].
  - intros <-. exact (Hno _ _ _ Epm Hp).
  - intros <-. exact (Hno _ _ _ Ecm Hc).
Qed.

Lemma secondPass_other categories valuesByLevel (h : Heap) a :
  (∀ j m k, valuesByLevel !! j = Some m → mapGet k m ≠ Some a) →
  secondPass categories valuesByLevel h !! a = h !! a.
Proof.
  intros Hno. rewrite secondPass_rows.
  generalize (seq 0 (rowCount categories)). intros rows.
  revert h. induction rows as [|r rows IH]; intros h; [done|].
  cbn [foldl]. rewrite IH. clear IH.
  generalize (seq 0 (length categories - 1)). intros pairs.
  revert h. induction pairs as [|i pairs IH]; intros h; [done|].
  cbn [foldl]. rewrite IH. by apply linkPair_other.
Qed.

Lemma buildHierarchy_old collapsedStates itemName categories orderIndex vis a :
  a < length (heap vis) →
  heap (buildHierarchy collapsedStates itemName categories orderIndex vis) !! a
  = heap vis !! a.
Proof.
  intros Ha. unfold buildHierarchy. rewrite firstPass_spec. simpl.
  rewrite secondPass_other; [by apply lookup_app_l|].
  intros j m k Hm Hk.
  destruct (passMaps_get _ _ _ _ _ _ Hm Hk) as (c & p & _ & _ & E).
  pose proof (levelBase_le categories (length (heap vis)) j). lia.
Qed.

Lemma buildSingle_old collapsedStates category orderIndex vis a :
  a < length (heap vis) →
  heap (buildSingle collapsedStates category orderIndex vis) !! a
  = heap vis !! a.
Proof.
  intros Ha. unfold buildSingle, singleValues. rewrite singleValues_spec.
  simpl. by apply lookup_app_l.
Qed.

Lemma thirdPass_levelValues categories valuesByLevel i :
  length valuesByLevel = length categories →
  levelValues (thirdPass categories valuesByLevel) i
  = mapValues (default [] (valuesByLevel !! i)).
Proof.
  intros Hlen. unfold levelValues, thirdPass. rewrite list_lookup_imap.
  destruct (categories !! i) as [c|] eqn:Ec; [done|].
  apply lookup_ge_None in Ec. by rewrite lookup_ge_None_2 by lia.
Qed.

Lemma thirdPass_values categories valuesByLevel :
  length valuesByLevel = length categories →
  hl_values <$> thirdPass categories valuesByLevel
  = mapValues <$> valuesByLevel.
Proof.
  intros Hlen. apply list_eq. intros i. unfold thirdPass.
  rewrite !list_lookup_fmap, list_lookup_imap.
  destruct (categories !! i) as [c|] eqn:Ec; simpl.
  - destruct (valuesByLevel !! i) as [m|] eqn:Em; [done|].
    apply lookup_ge_None in Em. apply lookup_lt_Some in Ec. lia.
  - apply lookup_ge_None in Ec. by rewrite lookup_ge_None_2 by lia.
Qed.

Lemma levelMap_values base category :
  mapValues (levelMap base category)
  = seq base (length (levelRows category)).
Proof.
  unfold mapValues, levelMap. apply snd_zip.
  by rewrite length_seq, length_fmap.
Qed.

Lemma levelMap_keys base category :
  (levelMap base category).*1 = (levelRows category).*1.
Proof.
  unfold levelMap. apply fst_zip. by rewrite length_seq, length_fmap.
Qed.

Lemma passMaps_addresses categories : ∀ base,
  mjoin (mapValues <$> passMaps base categories)
  = seq base (levelBase base categories (length categories) - base).
Proof.
  induction categories as [|c cs IH]; intros base; simpl.
  { by rewrite Nat.sub_diag. }
  rewrite levelMap_values, IH.
  pose proof (levelBase_le cs (base + length (levelRows c)) (length cs)).
  replace (levelBase (base + length (levelRows c)) cs (length cs) - base)
    with (length (levelRows c)
          + (levelBase (base + length (levelRows c)) cs (length cs)
             - (base + length (levelRows c)))) by lia.
  by rewrite seq_app.
Qed.

Lemma passMaps_lookup_inv categories base i m :
  passMaps base categories !! i = Some m →
  ∃ c, categories !! i = Some c
       ∧ m = levelMap (levelBase base categories i) c.
Proof.
  intros Hm. destruct (categories !! i) as [c|] eqn:Ec.
  - rewrite (passMaps_lookup _ _ _ _ Ec) in Hm. injection Hm as <-. by exists c.
  - apply lookup_lt_Some in Hm. rewrite passMaps_length in Hm.
    apply lookup_ge_None in Ec. lia.
Qed.

Lemma level_member categories base i a :
  a ∈ mapValues (default [] (passMaps base categories !! i)) ↔
    ∃ m k, passMaps base categories !! i = Some m ∧ mapGet k m = Some a.
Proof.
  split.
  - destruct (passMaps base categories !! i) as [m|] eqn:Em.
    2: { intros Hin. by apply elem_of_nil in Hin. }
    simpl. unfold mapValues. intros ([k a'] & -> & Hin)%list_elem_of_fmap.
    exists m, k. split; [done|]. apply mapGet_NoDup; [|done].
    destruct (passMaps_lookup_inv _ _ _ _ Em) as (c & _ & ->).
    rewrite levelMap_keys. apply firstOccurrences_NoDup_keys.
  - intros (m & k & -> & Hk%mapGet_Some). simpl. unfold mapValues.
    apply list_elem_of_fmap. by exists (k, a).
Qed.

Lemma level_key_values (h : Heap) (m : JsMap Addr) :
  (∀ k a, (k, a) ∈ m → valueAt h a = Some k) →
  valueAt h <$> mapValues m = Some <$> m.*1.
Proof.
  induction m as [|[k a] m IH]; intros Hall; [done|]. unfold mapValues in *.
  simpl. rewrite (Hall k a) by (by left). f_equal. apply IH.
  intros ???. apply Hall. by right.
Qed.

Lemma lastParent_Some E k pk : lastParent E k = Some pk → (pk, k) ∈ E.
Proof.
  unfold lastParent. intros Hl.
  destruct (last (filter (λ e, e.2 = k) E)) as [[pk' k']|] eqn:El;
    simplify_eq/=.
  apply last_Some_elem_of, list_elem_of_filter in El as [Hk Hin].
  simpl in Hk. by subst.
Qed.

(** The levels that [buildHierarchy] stores are well formed in the heap
    it leaves. *)
Lemma buildHierarchy_wf categories (h0 : Heap) :
  wfHierarchy
    (secondPass categories (passMaps (length h0) categories)
       (h0 ++ mjoin (levelNodes <$> categories)))
    (thirdPass categories (passMaps (length h0) categories)) = true.
Proof.
  set (vbl := passMaps (length h0) categories).
  set (h2 := secondPass categories vbl (h0 ++ mjoin (levelNodes <$> categories))).
  destruct (secondPass_linked categories vbl
              (h0 ++ mjoin (levelNodes <$> categories))) as [Lv Lk].
  { apply passMaps_levelled. }
  { apply passMaps_linked. }
  fold h2 in Lv, Lk.
  assert (length vbl = length categories) as Hlen by apply passMaps_length.
  assert (∀ i a, a ∈ levelValues (thirdPass categories vbl) i ↔
            ∃ m k, vbl !! i = Some m ∧ mapGet k m = Some a) as Mem.
  { intros i a. rewrite thirdPass_levelValues by done. apply level_member. }
  apply wfHierarchy_intro.
  - rewrite thirdPass_values by done. unfold vbl.
    rewrite passMaps_addresses. apply NoDup_seq.
  - intros i. rewrite thirdPass_levelValues by done.
    destruct (vbl !! i) as [m|] eqn:Em; [|constructor]. simpl.
    rewrite (level_key_values h2 m).
    + apply (NoDup_fmap_2 Some).
      destruct (passMaps_lookup_inv _ _ _ _ Em) as (c & _ & ->).
      rewrite levelMap_keys. apply firstOccurrences_NoDup_keys.
    + intros k a Hin. apply (levelled_value _ _ _ Lv i m k a Em).
      apply mapGet_NoDup; [|done].
      destruct (passMaps_lookup_inv _ _ _ _ Em) as (c & _ & ->).
      rewrite levelMap_keys. apply firstOccurrences_NoDup_keys.
  - intros i a (m & k & Hm & Hk)%Mem. apply lookup_lt_is_Some.
    pose proof (levelled_value _ _ _ Lv _ _ _ _ Hm Hk) as Hv.
    apply valueAt_Some in Hv as (v & -> & _). by eexists.
  - intros i a c (m & k & Hm & Hk)%Mem Hc. apply Mem.
    rewrite (linked_children _ _ _ _ Lk _ _ _ _ Hm Hk) in Hc.
    apply addressesOf_elem in Hc as (ck & cm & _ & Hcm & Hget).
    by exists cm, ck.
  - intros i a pk (m & k & Hm & Hk)%Mem Hpar.
    destruct i as [|i'].
    { by rewrite (linked_root _ _ _ _ Lk _ _ _ Hm Hk) in Hpar. }
    rewrite (linked_parent _ _ _ _ Lk _ _ _ _ Hm Hk) in Hpar.
    apply lastParent_Some in Hpar.
    destruct (passMaps_lookup_inv _ _ _ _ Hm) as (cc & Hcc & _).
    destruct (categories !! i') as [pc|] eqn:Hpc.
    2: { apply lookup_ge_None in Hpc. apply lookup_lt_Some in Hcc. lia. }
    destruct (vbl !! i') as [pm|] eqn:Hpm.
    2: { apply lookup_ge_None in Hpm. apply lookup_lt_Some in Hpc. lia. }
    pose proof (edges_linkable _ _ _ _ _ _ Hpc Hcc Hpar) as [Hlp _].
    apply (levelled_keys _ _ _ Lv _ _ _ _ Hpm Hpc) in Hlp as [p Hp].
    exists i', p. split_and!; [done| | |].
    + apply Mem. by exists pm, pk.
    + exact (levelled_value _ _ _ Lv _ _ _ _ Hpm Hp).
    + rewrite (linked_children _ _ _ _ Lk _ _ _ _ Hpm Hp).
      apply addressesOf_elem. exists k, m. split; [|done].
      by apply childKeys_elem.
Qed.

Lemma processItems_wf collapsedStates (items : list OrderItem) : ∀ i vis,
  (∀ cat levels, cat ∈ filterCategories vis →
     hierarchyLevels cat = Some levels →
     wfHierarchy (heap vis) levels = true) →
  let vis' :=
    forEachFrom (λ vis orderIndex item,
        match item with
        | Hierarchy itemName _ cats =>
            buildHierarchy collapsedStates itemName cats orderIndex vis
        | Single _ _ category =>
            buildSingle collapsedStates category orderIndex vis
        end) i items vis in
  ∀ cat levels, cat ∈ filterCategories vis' →
    hierarchyLevels cat = Some levels →
    wfHierarchy (heap vis') levels = true.
Proof.
  induction items as [|item items IH]; intros i vis Inv; [done|].
  cbn [forEachFrom]. apply IH. clear IH. intros cat levels Hin Hl.
  destruct item as [itemName idx cats|itemName idx category].
  - assert (cat ∈ filterCategories vis
            ∨ levels = thirdPass cats (passMaps (length (heap vis)) cats))
      as [Hold| ->].
    { unfold buildHierarchy in Hin. rewrite firstPass_spec in Hin.
      simpl in Hin. apply elem_of_app in Hin as [?|Hnew]; [by left|].
      apply list_elem_of_singleton in Hnew. subst cat. simpl in Hl.
      right. congruence. }
    + eapply wfHierarchy_extend; [by eapply Inv|].
      intros a Ha. by apply buildHierarchy_old.
    + unfold buildHierarchy. rewrite firstPass_spec. simpl.
      apply buildHierarchy_wf.
  - assert (cat ∈ filterCategories vis) as Hold.
    { unfold buildSingle, singleValues in Hin.
      rewrite singleValues_spec in Hin. simpl in Hin.
      apply elem_of_app in Hin as [?|Hnew]; [done|].
      apply list_elem_of_singleton in Hnew. by subst cat. }
    eapply wfHierarchy_extend; [by eapply Inv|].
    intros a Ha. by apply buildSingle_old.
Qed.

(** X1.  Every hierarchy that [processData] stores is well formed in
    the heap it leaves: no node is held twice, the keys of a level are
    pairwise distinct, the children of a node are nodes of the next
    level, and a [parentValue] is the key of a node of the previous
    level that holds the node among its children. *)
Theorem processData_wellFormed categories vis cat levels :
  cat ∈ filterCategories (processData categories vis) →
  hierarchyLevels cat = Some levels →
  wfHierarchy (heap (processData categories vis)) levels = true.
Proof.
  unfold processData. destruct categories as [categories|].
  - apply processItems_wf. intros ? ? Hin. by apply elem_of_nil in Hin.
  - intros Hin. by apply elem_of_nil in Hin.
Qed.

(** The theorem for the fruit hierarchy of the sample. *)
Lemma processData_wellFormed_witness :
  wfHierarchy
    (heap (processData (Some [Sample.kind; Sample.item; Sample.shop])
             Sample.empty))
    Sample.foodLevels
  = true.
Proof.
  apply (processData_wellFormed
           (Some [Sample.kind; Sample.item; Sample.shop]) Sample.empty
           Sample.food Sample.foodLevels).
  - vm_compute. repeat constructor.
  - reflexivity.
Defined.

(** ** The selection operations write flags only *)

Lemma clearValues_sameShape vals : ∀ h, sameShape h (clearValues vals h).
Proof.
  unfold clearValues. induction vals as [|a vals IH]; intros h; [done|].
  simpl. eapply sameShape_trans; [|apply IH]. by apply sameShape_alter.
Qed.

Lemma toggleHierarchyHeap_sameShape fuel a hierarchy h h' :
  toggleHierarchyHeap fuel a hierarchy h = Ok h' → sameShape h h'.
Proof.
  unfold toggleHierarchyHeap. destruct (h !! a) as [v|]; [|done].
  destruct (cascadeSelectionToDescendants _ _ _ _) as [h2| |] eqn:Ec;
    [|done..].
  simpl. intros Run.
  assert (sameShape h h2) as E2.
  { eapply sameShape_trans;
      [by apply (sameShape_alter (withSelected (negb (selected v))) a)|].
    eapply cascaded_sameShape, cascade_spec, Ec. }
  destruct (parentValueAt h2 a) as [k|]; [|by simplify_eq].
  destruct (truthy k); [|by simplify_eq].
  destruct hierarchy as [levels|]; [|done].
  apply update_recomputeAll in Run. subst h'.
  eapply sameShape_trans; [done|]. apply recomputeAll_sameShape.
Qed.

(** X2.  No selection operation changes the groups or, on any node,
    anything but the two flags: the keys, identity tokens, children and
    parent keys stay as [processData] left them, hence every hierarchy
    stays well formed. *)
Theorem selection_keeps_wellFormed vis vis' :
  (∃ fuel a category, toggleHierarchyValue fuel a category vis = Ok vis')
  ∨ (∃ a category, toggleSelection a category vis = Ok vis')
  ∨ (∃ category, clearCategorySelection category vis = Ok vis')
  ∨ (∃ category, clearHierarchySelection category vis = Ok vis') →
  filterCategories vis' = filterCategories vis
  ∧ sameShape (heap vis) (heap vis')
  ∧ ∀ levels, wfHierarchy (heap vis') levels = wfHierarchy (heap vis) levels.
Proof.
  intros Op.
  assert (filterCategories vis' = filterCategories vis
          ∧ sameShape (heap vis) (heap vis')) as [Hc Hs].
  { destruct Op as [(fuel & a & category & Run)|[(a & category & Run)|
      [(category & Run)|(category & Run)]]].
    - unfold toggleHierarchyValue in Run.
      destruct (toggleHierarchyHeap _ _ _ _) as [h'| |] eqn:Eh; [|done..].
      simpl in Run. destruct (hierarchyLevels category); [|done].
      injection Run as <-. split; [done|].
      by eapply toggleHierarchyHeap_sameShape.
    - unfold toggleSelection in Run.
      destruct (heap vis !! a) as [v|]; [|done]. injection Run as <-.
      split; [done|]. by apply sameShape_alter.
    - unfold clearCategorySelection in Run. injection Run as <-.
      split; [done|]. apply clearValues_sameShape.
    - unfold clearHierarchySelection in Run.
      destruct (hierarchyLevels category) as [levels|]; [|done].
      injection Run as <-. split; [done|]. simpl.
      generalize (heap vis). induction levels as [|lv levels IH]; intros h;
        [done|].
      simpl. eapply sameShape_trans; [|apply IH].
      apply clearValues_sameShape. }
  split_and!; [done..|]. intros levels. symmetry.
  by apply sameShape_wfHierarchy.
Qed.

(** The theorem for a clear of the standalone filter of the sample. *)
Lemma selection_keeps_wellFormed_witness :
  filterCategories Session.cleared = filterCategories Sample.built
  ∧ sameShape (heap Sample.built) (heap Session.cleared)
  ∧ ∀ levels,
      wfHierarchy (heap Session.cleared) levels
      = wfHierarchy (heap Sample.built) levels.
Proof.
  apply (selection_keeps_wellFormed Sample.built Session.cleared).
  right. right. left. exists Sample.shopFilter. vm_compute. reflexivity.
Defined.
(** ** Search over a hierarchy *)

Lemma someM_spec {A} (body : A → outcome bool) (P : A → Prop) (l : list A) :
  (∀ x, x ∈ l → ∃ b, body x = Ok b ∧ (b = true ↔ P x)) →
  ∃ b, someM body l = Ok b ∧ (b = true ↔ ∃ x, x ∈ l ∧ P x).
Proof.
  induction l as [|x l IH]; intros Hb; simpl.
  - exists false. split; [done|]. split; [done|].
    intros (x & Hx & _). by apply elem_of_nil in Hx.
  - destruct (Hb x) as (b & -> & Hx); [by left|]. simpl.
    destruct b.
    + exists true. split; [done|]. split; [|done].
      intros _. exists x. split; [by left|]. by apply Hx.
    + destruct IH as (b & -> & Hl).
      { intros y Hy. apply Hb. by right. }
      exists b. split; [done|]. rewrite Hl. split.
      * intros (y & Hy & Py). exists y. split; [by right|done].
      * intros (y & Hy & Py). apply elem_of_cons in Hy as [->|Hy].
        -- apply Hx in Py. discriminate.
        -- by exists y.
Qed.

Lemma descendant_trans h a b c :
  descendant h a b → descendant h b c → descendant h a c.
Proof.
  induction 1 as [a b Hb|a b b' Hb _ IH]; intros D.
  - by eapply descendant_step.
  - eapply descendant_step; [done|]. by apply IH.
Qed.

Lemma descendant_inv h a d :
  descendant h a d ↔ ∃ c, c ∈ kids h a ∧ (d = c ∨ descendant h c d).
Proof.
  split.
  - intros D. inversion D as [? ? Hc|? c ? Hc D']; subst.
    + exists d. split; [done|by left].
    + exists c. split; [done|by right].
  - intros (c & Hc & [->|D]).
    + by apply descendant_child.
    + by eapply descendant_step.
Qed.

Section Matching.

Variable toLowerCase : string → string.
Variables (h : Heap) (searchTerm : string).

Lemma matchesBelow_unfold a :
  matchesBelow toLowerCase h searchTerm a
  ↔ keyMatches toLowerCase h searchTerm a
    ∨ ∃ c, c ∈ kids h a ∧ matchesBelow toLowerCase h searchTerm c.
Proof.
  unfold matchesBelow. split.
  - intros [K|(d & D & K)]; [by left|]. right.
    apply descendant_inv in D as (c & Hc & [->|D]).
    + exists c. split; [done|by left].
    + exists c. split; [done|]. right. by exists d.
  - intros [K|(c & Hc & [K|(d & D & K)])]; [by left| |].
    + right. exists c. split; [by apply descendant_child|done].
    + right. exists d. split; [by eapply descendant_step|done].
Qed.

(** A node with a match below it has a match below each of its
    ancestors. *)
Lemma matchesBelow_up a d :
  descendant h a d → matchesBelow toLowerCase h searchTerm d →
  matchesBelow toLowerCase h searchTerm a.
Proof.
  intros D [K|(x & Dx & K)]; right.
  - by exists d.
  - exists x. split; [by eapply descendant_trans|done].
Qed.

Variable levels : list HierarchyLevel.
Hypothesis wf : wfHierarchy h levels = true.

(** The matcher returns on every node of a well-formed hierarchy, and
    returns [true] exactly for an empty term or a match at or below the
    node. *)
Lemma matches_spec fuel : ∀ i a,
  a ∈ levelValues levels i → length levels ≤ i + fuel →
  ∃ b, matchesSearchRecursive toLowerCase fuel h a searchTerm = Ok b
       ∧ (b = true
          ↔ searchTerm = "" ∨ matchesBelow toLowerCase h searchTerm a).
Proof.
  induction fuel as [|fuel IH]; intros i a Ha Hfuel.
  { apply levelValues_lt in Ha. lia. }
  simpl. unfold truthy. rewrite negb_involutive.
  case_bool_decide as Et.
  { exists true. split; [done|]. split; [by left|done]. }
  destruct (lookup_lt_is_Some_2 h a) as [v Hv]; [by eapply wf_valid|].
  rewrite Hv.
  destruct (includes (toLowerCase (value v)) (toLowerCase searchTerm)) eqn:Ei.
  { exists true. split; [done|]. split; [|done]. intros _. right. left.
    by exists v. }
  assert (kids h a = childrenOf v) as Hk by (unfold kids; by rewrite Hv).
  rewrite <- Hk.
  destruct (someM_spec
              (λ child, matchesSearchRecursive toLowerCase fuel h child searchTerm)
              (matchesBelow toLowerCase h searchTerm) (kids h a))
    as (b & -> & Hb).
  { intros c Hc. destruct (IH (S i) c) as (b & Eb & Hb); [|lia|].
    - by eapply wf_kids.
    - exists b. split; [done|]. rewrite Hb. split; [|by right].
      by intros [?|?]. }
  exists b. split; [done|]. rewrite Hb, matchesBelow_unfold. split.
  - intros ?. right. by right.
  - intros [?|[(v' & Hv' & K)|?]]; [done| |done]. congruence.
Qed.

End Matching.

(** X3.  On a node of a well-formed hierarchy the search matcher
    returns, and it returns [true] exactly when the term is empty, or
    the lower-cased key of the node contains the lower-cased term, or
    the key of some node below it does. *)
Theorem search_matches_node_or_descendant (toLowerCase : string → string)
  fuel h levels L a searchTerm :
  wfHierarchy h levels = true → a ∈ levelValues levels L →
  length levels ≤ fuel →
  ∃ b, matchesSearchRecursive toLowerCase fuel h a searchTerm = Ok b
       ∧ (b = true
          ↔ searchTerm = "" ∨ matchesBelow toLowerCase h searchTerm a).
Proof.
  intros wf Ha Hfuel. apply (matches_spec toLowerCase h searchTerm levels wf
                               fuel L a Ha). lia.
Qed.

(** The theorem for a search for APP on the node of Fruit. *)
Lemma search_matches_node_or_descendant_witness :
  ∃ b, matchesSearchRecursive Session.lower 2 (heap Sample.built) 0 "APP" = Ok b
       ∧ (b = true
          ↔ "APP" = ""
            ∨ matchesBelow Session.lower (heap Sample.built) "APP" 0).
Proof.
  apply (search_matches_node_or_descendant Session.lower 2 (heap Sample.built)
           Sample.foodLevels 0 0 "APP").
  - vm_compute. reflexivity.
  - vm_compute. constructor.
  - simpl. lia.
Defined.

(** X4.  Search is monotone along [children]: when a node matches a
    term, every node above it matches the term as well. *)
Theorem search_match_reaches_ancestors (toLowerCase : string → string)
  fuel h levels L a d searchTerm :
  wfHierarchy h levels = true → a ∈ levelValues levels L →
  length levels ≤ fuel → descendant h a d →
  matchesSearchRecursive toLowerCase fuel h d searchTerm = Ok true →
  matchesSearchRecursive toLowerCase fuel h a searchTerm = Ok true.
Proof.
  intros wf Ha Hfuel D Md.
  destruct (wf_descendant_level h levels wf a d D L Ha) as (j & Hj & Hd).
  destruct (matches_spec toLowerCase h searchTerm levels wf fuel j d Hd)
    as (bd & Ebd & Hbd); [lia|].
  destruct (matches_spec toLowerCase h searchTerm levels wf fuel L a Ha)
    as (ba & -> & Hba); [lia|].
  f_equal. apply Hba.
  assert (bd = true) as Hbt by congruence.
  apply Hbd in Hbt as [?|Hm]; [by left|]. right.
  by eapply matchesBelow_up.
Qed.

(** The theorem for Apple below Fruit and a search for app. *)
Lemma search_match_reaches_ancestors_witness :
  matchesSearchRecursive Session.lower 2 (heap Sample.built) 0 "app" = Ok true.
Proof.
  apply (search_match_reaches_ancestors Session.lower 2 (heap Sample.built)
           Sample.foodLevels 0 0 2 "app").
  - vm_compute. reflexivity.
  - vm_compute. constructor.
  - simpl. lia.
  - apply descendant_child. vm_compute. constructor.
  - vm_compute. reflexivity.
Defined.
(** ** The tree shown under a search term *)

Lemma forEachM_cons {A St} (body : A → St → outcome St) x l s :
  forEachM body (x :: l) s = (s' ← body x s; forEachM body l s').
Proof. done. Qed.

Lemma bind_Ok {A B} (f : A → outcome B) a : (Ok a ≫= f) = f a.
Proof. done. Qed.

(** The loop that both [renderTree] and [createHierarchyNode] run over
    a list of nodes: a node that is not skipped contributes the nodes
    of its element. *)
Lemma showLoop_spec (skip : Addr → outcome bool)
  (sub : Addr → outcome (list (nat * Addr))) (M : Addr → Prop)
  (Q : Addr → nat * Addr → Prop) (cs : list Addr) : ∀ acc,
  (∀ c, c ∈ cs → ∃ b, skip c = Ok b ∧ (b = false ↔ M c)) →
  (∀ c, c ∈ cs → M c → ∃ rows, sub c = Ok rows ∧ ∀ y, y ∈ rows ↔ Q c y) →
  ∃ rows,
    forEachM (λ c nodes,
        skip c ≫= λ s : bool,
        if s then Ok nodes else r ← sub c; Ok (nodes ++ r)) cs acc
    = Ok rows
    ∧ ∀ y, y ∈ rows ↔ y ∈ acc ∨ ∃ c, c ∈ cs ∧ M c ∧ Q c y.
Proof.
  induction cs as [|c cs IH]; intros acc Hs Hr.
  - exists acc. split; [done|]. intros y. split; [by left|].
    intros [?|(c & Hc & _)]; [done|by apply elem_of_nil in Hc].
  - rewrite forEachM_cons. cbv beta.
    destruct (Hs c) as (b & Eb & Hb); [by left|]. rewrite Eb, bind_Ok.
    assert (∀ c', c' ∈ cs → ∃ b, skip c' = Ok b ∧ (b = false ↔ M c')) as Hs'.
    { intros c' Hc'. apply Hs. by right. }
    assert (∀ c', c' ∈ cs → M c' →
              ∃ rows, sub c' = Ok rows ∧ ∀ y, y ∈ rows ↔ Q c' y) as Hr'.
    { intros c' Hc'. apply Hr. by right. }
    destruct b.
    + rewrite bind_Ok.
      destruct (IH acc Hs' Hr') as (rows & -> & Hrows).
      exists rows. split; [done|]. intros y. rewrite Hrows. split.
      * intros [?|(c' & Hc' & ?)]; [by left|]. right. exists c'.
        split; [by right|done].
      * intros [?|(c' & Hc' & Mc & Qy)]; [by left|].
        apply elem_of_cons in Hc' as [->|Hc'].
        -- apply Hb in Mc. discriminate.
        -- right. by exists c'.
    + assert (M c) as Mc by by apply Hb.
      destruct (Hr c) as (rc & Erc & Hrc); [by left|done|].
      rewrite Erc, !bind_Ok.
      destruct (IH (acc ++ rc) Hs' Hr') as (rows & -> & Hrows).
      exists rows. split; [done|]. intros y.
      rewrite Hrows, elem_of_app, Hrc. split.
      * intros [[?|Qy]|(c' & Hc' & ?)]; [by left| |].
        -- right. exists c. split; [by left|done].
        -- right. exists c'. split; [by right|done].
      * intros [?|(c' & Hc' & Mc' & Qy)]; [left; by left|].
        apply elem_of_cons in Hc' as [->|Hc'].
        -- left. by right.
        -- right. by exists c'.
Qed.

(** One call of [createHierarchyNode] on an allocated node. *)
Lemma createHierarchyNode_S (toLowerCase : string → string) fuel h
  expandedNodes category a level searchTerm v :
  h !! a = Some v →
  createHierarchyNode toLowerCase (S fuel) h expandedNodes category a level
    searchTerm
  = (childNodes ←
       (if negb (bool_decide (childrenOf v = []))
           && match expandedNodes !! name category with
              | Some expanded =>
                  bool_decide
                    (nodeKey (name category) level (value v) ∈ expanded)
              | None => false
              end
        then
          forEachM (λ c nodes,
              skipped toLowerCase fuel h c searchTerm ≫= λ s : bool,
              if s then Ok nodes
              else
                r ← createHierarchyNode toLowerCase fuel h expandedNodes
                      category c (level + 1) searchTerm;
                Ok (nodes ++ r))
            (childrenOf v) []
        else Ok []);
     Ok ((level, a) :: childNodes)).
Proof. intros Hv. cbn [createHierarchyNode]. by rewrite Hv. Qed.

(** Under a search term a node is skipped exactly when there is no
    match at or below it. *)
Lemma skipped_spec (toLowerCase : string → string) h levels searchTerm fuel
  i a :
  wfHierarchy h levels = true → truthy searchTerm = true →
  a ∈ levelValues levels i → length levels ≤ i + fuel →
  ∃ b, skipped toLowerCase fuel h a searchTerm = Ok b
       ∧ (b = false ↔ matchesBelow toLowerCase h searchTerm a).
Proof.
  intros wf term Ha Hfuel. unfold skipped. rewrite term.
  destruct (matches_spec toLowerCase h searchTerm levels wf fuel i a Ha Hfuel)
    as (b & -> & Hb).
  exists (negb b). split; [done|].
  assert (searchTerm ≠ "") as Ht.
  { intros ->. by vm_compute in term. }
  rewrite negb_false_iff, Hb. split; [|by right]. by intros [?|?].
Qed.

Section Shown.

Variable toLowerCase : string → string.
Variables (h : Heap) (levels : list HierarchyLevel) (searchTerm : string).
Variables (category : FilterCategory) (expandedNodes : ExpandedNodes).

Hypothesis wf : wfHierarchy h levels = true.
Hypothesis term : truthy searchTerm = true.

Hypothesis expanded :
  matchesExpanded toLowerCase h levels searchTerm category expandedNodes.

Lemma node_spec fuel : ∀ i a,
  a ∈ levelValues levels i → length levels ≤ i + fuel →
  matchesBelow toLowerCase h searchTerm a →
  ∃ rows,
    createHierarchyNode toLowerCase fuel h expandedNodes category a i searchTerm
    = Ok rows
    ∧ ∀ y, y ∈ rows ↔ y = (i, a) ∨ shownBelow toLowerCase h levels searchTerm a y.
Proof.
  induction fuel as [|fuel IH]; intros i a Ha Hfuel Ma.
  { apply levelValues_lt in Ha. lia. }
  destruct (lookup_lt_is_Some_2 h a) as [v Hv]; [by eapply wf_valid|].
  rewrite (createHierarchyNode_S toLowerCase fuel h expandedNodes category a
             i searchTerm v Hv).
  assert (kids h a = childrenOf v) as Hk by (unfold kids; by rewrite Hv).
  destruct expanded as (s & -> & Hs).
  rewrite (bool_decide_eq_true_2 _ (Hs i a v Ha Hv Ma)), andb_true_r.
  rewrite <- Hk. case_bool_decide as Ek; cbn [negb].
  - rewrite bind_Ok. exists [(i, a)]. split; [done|]. intros y.
    rewrite list_elem_of_singleton. split; [by left|].
    intros [?|(D & _)]; [done|].
    apply descendant_inv in D as (c & Hc & _). rewrite Ek in Hc.
    by apply elem_of_nil in Hc.
  - destruct (showLoop_spec
                (λ c, skipped toLowerCase fuel h c searchTerm)
                (λ c, createHierarchyNode toLowerCase fuel h expandedNodes
                        category c (i + 1) searchTerm)
                (matchesBelow toLowerCase h searchTerm)
                (λ c y, y = (S i, c) ∨ shownBelow toLowerCase h levels searchTerm c y)
                (kids h a) [])
      as (rows & -> & Hrows).
    + intros c Hc.
      apply (skipped_spec toLowerCase h levels searchTerm fuel (S i));
        [done..| |lia].
      by eapply wf_kids.
    + intros c Hc Mc. rewrite Nat.add_1_r. apply IH; [|lia|done].
      by eapply wf_kids.
    + rewrite bind_Ok. exists ((i, a) :: rows). split; [done|]. intros y.
      rewrite elem_of_cons, Hrows. unfold shownBelow. split.
      * intros [?|[Hn|(c & Hc & Mc & [->|(D & Hl & My)])]]; [by left| |right..].
        -- by apply elem_of_nil in Hn.
        -- simpl. split_and!; [by apply descendant_child| |done].
           by eapply wf_kids.
        -- split_and!; [by eapply descendant_step|done..].
      * intros [?|(D & Hl & My)]; [by left|]. right. right.
        apply descendant_inv in D as (c & Hc & Hy). exists c.
        split; [done|]. destruct Hy as [Ey|D].
        -- split; [by rewrite <- Ey|]. left.
           destruct y as [l x]. simpl in *. subst x. f_equal.
           eapply wf_level_unique; [done..|]. by eapply wf_kids.
        -- split; [by eapply matchesBelow_up|]. by right.
Qed.

End Shown.
(** ** Expansion under a search term *)

Section AutoExpand.

Variable toLowerCase : string → string.
Variables (h : Heap) (levels : list HierarchyLevel) (searchTerm : string).
Variable category : FilterCategory.

Hypothesis wf : wfHierarchy h levels = true.
Hypothesis term : truthy searchTerm = true.

Lemma expandLevel_spec fuel idx (vals : list Addr) :
  ∀ (en : ExpandedNodes) (s : gset string),
  (∀ a, a ∈ vals → a ∈ levelValues levels idx) →
  length levels ≤ idx + fuel →
  en !! name category = Some s →
  ∃ en' s',
    forEachM (λ filterValue expandedNodes,
        matchesSearchRecursive toLowerCase fuel h filterValue searchTerm
        ≫= λ b : bool,
        if b then
          match h !! filterValue, expandedNodes !! name category with
          | Some v, Some expandedSet =>
              Ok (<[name category :=
                     {[nodeKey (name category) idx (value v)]} ∪ expandedSet]>
                    expandedNodes)
          | _, _ => TypeError
          end
        else Ok expandedNodes) vals en
    = Ok en'
    ∧ en' !! name category = Some s'
    ∧ (∀ n, n ≠ name category → en' !! n = en !! n)
    ∧ ∀ k, k ∈ s'
        ↔ k ∈ s
          ∨ matchingKey toLowerCase h searchTerm (name category) idx vals k.
Proof.
  induction vals as [|a vals IH]; intros en s Hin Hfuel Hs.
  - exists en, s. split_and!; [done..|]. intros k. split; [by left|].
    intros [?|(a & v & Ha & _)]; [done|by apply elem_of_nil in Ha].
  - rewrite forEachM_cons. cbv beta.
    assert (a ∈ levelValues levels idx) as Ha by (apply Hin; by left).
    destruct (matches_spec toLowerCase h searchTerm levels wf fuel idx a Ha
                Hfuel) as (b & Eb & Hb).
    assert (b = true ↔ matchesBelow toLowerCase h searchTerm a) as Hb'.
    { rewrite Hb. split; [|by right]. intros [->|?]; [|done].
      by vm_compute in term. }
    clear Hb. rewrite Eb, bind_Ok.
    destruct (lookup_lt_is_Some_2 h a) as [v Hv]; [by eapply wf_valid|].
    assert (∀ a', a' ∈ vals → a' ∈ levelValues levels idx) as Hin'.
    { intros a' Ha'. apply Hin. by right. }
    destruct b.
    + rewrite Hv, Hs, bind_Ok.
      destruct (IH (<[name category :=
                       {[nodeKey (name category) idx (value v)]} ∪ s]> en)
                  ({[nodeKey (name category) idx (value v)]} ∪ s) Hin' Hfuel)
        as (en' & s' & -> & Hs' & Hother & Hk).
      { apply lookup_insert_eq. }
      exists en', s'. split_and!; [done..| |].
      * intros n Hn. rewrite Hother by done. by apply lookup_insert_ne.
      * intros k. rewrite Hk, elem_of_union, elem_of_singleton. split.
        -- intros [[->|?]|(a' & v' & Ha' & ?)]; [|by left|].
           ++ right. exists a, v. split_and!; [by left|done| |done].
              by apply Hb'.
           ++ right. exists a', v'. split; [by right|done].
        -- intros [?|(a' & v' & Ha' & Hv' & Ma' & ->)]; [left; by right|].
           apply elem_of_cons in Ha' as [->|Ha'].
           ++ left. left. congruence.
           ++ right. by exists a', v'.
    + rewrite bind_Ok.
      destruct (IH en s Hin' Hfuel Hs) as (en' & s' & -> & Hs' & Hother & Hk).
      exists en', s'. split_and!; [done..|].
      intros k. rewrite Hk. split.
      * intros [?|(a' & v' & Ha' & ?)]; [by left|]. right.
        exists a', v'. split; [by right|done].
      * intros [?|(a' & v' & Ha' & Hv' & Ma' & ->)]; [by left|].
        apply elem_of_cons in Ha' as [->|Ha'].
        -- apply Hb' in Ma'. discriminate.
        -- right. by exists a', v'.
Qed.

Lemma expandLevels_spec fuel (ps : list (nat * HierarchyLevel)) :
  ∀ (en : ExpandedNodes) (s : gset string),
  (∀ i lv, (i, lv) ∈ ps → levels !! i = Some lv) →
  length levels ≤ fuel →
  en !! name category = Some s →
  ∃ en' s',
    forEachM (λ '(idx, level) expandedNodes,
        forEachM (λ filterValue expandedNodes,
            matchesSearchRecursive toLowerCase fuel h filterValue searchTerm
            ≫= λ b : bool,
            if b then
              match h !! filterValue, expandedNodes !! name category with
              | Some v, Some expandedSet =>
                  Ok (<[name category :=
                         {[nodeKey (name category) idx (value v)]}
                         ∪ expandedSet]> expandedNodes)
              | _, _ => TypeError
              end
            else Ok expandedNodes)
          (hl_values level) expandedNodes) ps en
    = Ok en'
    ∧ en' !! name category = Some s'
    ∧ (∀ n, n ≠ name category → en' !! n = en !! n)
    ∧ ∀ k, k ∈ s'
        ↔ k ∈ s
          ∨ ∃ i lv, (i, lv) ∈ ps
              ∧ matchingKey toLowerCase h searchTerm (name category) i
                  (hl_values lv) k.
Proof.
  induction ps as [|[i lv] ps IH]; intros en s Hps Hfuel Hs.
  - exists en, s. split_and!; [done..|]. intros k. split; [by left|].
    intros [?|(i & lv & Hi & _)]; [done|by apply elem_of_nil in Hi].
  - rewrite forEachM_cons. cbv beta iota.
    assert (levels !! i = Some lv) as Hi by (apply Hps; by left).
    destruct (expandLevel_spec fuel i (hl_values lv) en s)
      as (en1 & s1 & -> & Hs1 & Hother1 & Hk1); [|lia|done|].
    { intros a Ha. unfold levelValues. by rewrite Hi. }
    rewrite bind_Ok.
    destruct (IH en1 s1) as (en' & s' & -> & Hs' & Hother & Hk);
      [|done..|].
    { intros i' lv' Hin. apply Hps. by right. }
    exists en', s'. split_and!; [done..| |].
    + intros n Hn. by rewrite Hother, Hother1.
    + intros k. rewrite Hk, Hk1. split.
      * intros [[?|?]|(i' & lv' & Hin & ?)]; [by left| |].
        -- right. exists i, lv. split; [by left|done].
        -- right. exists i', lv'. split; [by right|done].
      * intros [?|(i' & lv' & Hin & K)]; [left; by left|].
        apply elem_of_cons in Hin as [[= -> ->]|Hin].
        -- left. by right.
        -- right. by exists i', lv'.
Qed.

Hypothesis Hl : hierarchyLevels category = Some levels.

(** What [autoExpand] leaves: the set of the group has grown by the
    keys of the nodes with a match at or below them, and the sets of
    the other groups are as before. *)
Lemma autoExpand_spec fuel (en : ExpandedNodes) (s : gset string) :
  length levels ≤ fuel → en !! name category = Some s →
  ∃ en' s',
    autoExpand toLowerCase fuel h category searchTerm en = Ok en'
    ∧ en' !! name category = Some s'
    ∧ (∀ n, n ≠ name category → en' !! n = en !! n)
    ∧ ∀ k, k ∈ s'
        ↔ k ∈ s
          ∨ ∃ i a v, a ∈ levelValues levels i ∧ h !! a = Some v
              ∧ matchesBelow toLowerCase h searchTerm a
              ∧ k = nodeKey (name category) i (value v).
Proof.
  intros Hfuel Hs. unfold autoExpand. rewrite term, Hl.
  case_bool_decide as Hlen.
  2: { exists en, s. split_and!; [done..|]. intros k. split; [by left|].
       intros [?|(i & a & v & Ha & _)]; [done|].
       apply levelValues_lt in Ha. lia. }
  destruct (expandLevels_spec fuel (imap pair levels) en s)
    as (en' & s' & E & Hs' & Hother & Hk); [|done..|].
  { intros i lv Hin. apply elem_of_lookup_imap in Hin as (j & y & [= -> ->] & ?).
    done. }
  exists en', s'. split_and!; [exact E|done..|].
  intros k. rewrite Hk. split.
  - intros [?|(i & lv & Hin & a & v & Ha & Hv & Ma & ->)]; [by left|].
    right. exists i, a, v. split_and!; [|done..].
    apply elem_of_lookup_imap in Hin as (j & y & [= -> ->] & Hj).
    unfold levelValues. by rewrite Hj.
  - intros [?|(i & a & v & Ha & Hv & Ma & ->)]; [by left|]. right.
    unfold levelValues in Ha.
    destruct (levels !! i) as [lv|] eqn:Hi; [|by apply elem_of_nil in Ha].
    exists i, lv. split; [by apply elem_of_lookup_imap_2|].
    by exists a, v.
Qed.

End AutoExpand.

(** What a search shows. *)
Lemma renderTree_search (toLowerCase : string → string)
  fuel h category levels searchTerm expandedNodes :
  hierarchyLevels category = Some levels →
  wfHierarchy h levels = true → length levels ≤ fuel →
  truthy searchTerm = true →
  is_Some (expandedNodes !! name category) →
  ∃ expandedNodes' nodes,
    renderTree toLowerCase fuel h category searchTerm expandedNodes
    = Ok (expandedNodes', nodes)
    ∧ matchesExpanded toLowerCase h levels searchTerm category expandedNodes'
    ∧ ∀ l x, (l, x) ∈ nodes
        ↔ x ∈ levelValues levels l ∧ underRoot h levels x
          ∧ matchesBelow toLowerCase h searchTerm x.
Proof.
  intros Hl wf Hfuel term [s Hs]. unfold renderTree.
  destruct (autoExpand_spec toLowerCase h levels searchTerm category wf term
              Hl fuel expandedNodes s Hfuel Hs)
    as (en' & s' & -> & Hs' & _ & Hk).
  rewrite bind_Ok, Hl.
  assert (matchesExpanded toLowerCase h levels searchTerm category en')
    as Hexp.
  { exists s'. split; [done|]. intros i a v Ha Hv Ma. apply Hk. right.
    by exists i, a, v. }
  destruct levels as [|firstLevel rest] eqn:El.
  { rewrite bind_Ok. exists en', []. split_and!; [done..|]. intros l x.
    split; [by intros ?%elem_of_nil|].
    intros (Hx & _). unfold levelValues in Hx. rewrite lookup_nil in Hx.
    by apply elem_of_nil in Hx. }
  rewrite <- El in *.
  assert (hl_values firstLevel = levelValues levels 0) as E0
    by (by rewrite El).
  rewrite E0.
  destruct (showLoop_spec
              (λ c, skipped toLowerCase fuel h c searchTerm)
              (λ c, createHierarchyNode toLowerCase fuel h en' category c 0
                      searchTerm)
              (matchesBelow toLowerCase h searchTerm)
              (λ c y, y = (0, c) ∨ shownBelow toLowerCase h levels searchTerm c y)
              (levelValues levels 0) [])
    as (rows & -> & Hrows).
  - intros c Hc.
    by apply (skipped_spec toLowerCase h levels searchTerm fuel 0).
  - intros c Hc Mc.
    by apply (node_spec toLowerCase h levels searchTerm category en' wf term
                Hexp fuel 0).
  - rewrite bind_Ok. exists en', rows. split_and!; [done..|]. intros l x.
    rewrite Hrows. unfold shownBelow, underRoot, reached. simpl. split.
    + intros [Hn|(c & Hc & Mc & [[= -> ->]|(D & Hx & Mx)])].
      * by apply elem_of_nil in Hn.
      * split_and!; [done|by left|done].
      * split_and!; [done| |done]. right. by exists c.
    + intros (Hx & [H0|(r & Hr & D)] & Mx); right.
      * exists x. split_and!; [done..|]. left. f_equal.
        by eapply wf_level_unique.
      * exists r. split_and!; [done|by eapply matchesBelow_up|].
        by right.
Qed.

(** X5.  A search in a hierarchy section shows exactly the nodes that
    are reachable from the first level and have a match at or below
    them, each at its own level: a match is never hidden behind a
    node that is not expanded. *)
Theorem search_shows_matches_under_roots (toLowerCase : string → string)
  fuel h category levels searchTerm expandedNodes :
  hierarchyLevels category = Some levels →
  wfHierarchy h levels = true → length levels ≤ fuel →
  truthy searchTerm = true →
  is_Some (expandedNodes !! name category) →
  ∃ expandedNodes' nodes,
    renderTree toLowerCase fuel h category searchTerm expandedNodes
    = Ok (expandedNodes', nodes)
    ∧ ∀ l x, (l, x) ∈ nodes
        ↔ x ∈ levelValues levels l ∧ underRoot h levels x
          ∧ matchesBelow toLowerCase h searchTerm x.
Proof.
  intros Hl wf Hfuel term Hs.
  destruct (renderTree_search toLowerCase fuel h category levels searchTerm
              expandedNodes Hl wf Hfuel term Hs) as (en' & nodes & E & _ & Hn).
  by exists en', nodes.
Qed.

(** The theorem for a search for app in the fruit hierarchy. *)
Lemma search_shows_matches_under_roots_witness :
  ∃ expandedNodes' nodes,
    renderTree Session.lower 2 (heap Sample.built) Sample.food "app"
      Session.sets
    = Ok (expandedNodes', nodes)
    ∧ ∀ l x, (l, x) ∈ nodes
        ↔ x ∈ levelValues Sample.foodLevels l
          ∧ underRoot (heap Sample.built) Sample.foodLevels x
          ∧ matchesBelow Session.lower (heap Sample.built) "app" x.
Proof.
  apply (search_shows_matches_under_roots Session.lower 2 (heap Sample.built)
           Sample.food Sample.foodLevels "app" Session.sets).
  - reflexivity.
  - vm_compute. reflexivity.
  - simpl. lia.
  - reflexivity.
  - exists Session.nothing. vm_compute. reflexivity.
Defined.

(** X6.  A search only ever adds to the expanded set registered under
    the name of its group, and what it adds are the keys of the nodes
    with a match at or below them, each key being the group name, the
    level index in decimal and the key of the node, joined by
    underscores; the sets registered under other names stay as they
    are. *)
Theorem search_expands_matching_nodes (toLowerCase : string → string)
  fuel h category levels searchTerm expandedNodes expanded :
  hierarchyLevels category = Some levels →
  wfHierarchy h levels = true → length levels ≤ fuel →
  truthy searchTerm = true →
  expandedNodes !! name category = Some expanded →
  ∃ expandedNodes' expanded',
    autoExpand toLowerCase fuel h category searchTerm expandedNodes
    = Ok expandedNodes'
    ∧ expandedNodes' !! name category = Some expanded'
    ∧ (∀ n, n ≠ name category → expandedNodes' !! n = expandedNodes !! n)
    ∧ ∀ k, k ∈ expanded'
        ↔ k ∈ expanded
          ∨ ∃ i a v, a ∈ levelValues levels i ∧ h !! a = Some v
              ∧ matchesBelow toLowerCase h searchTerm a
              ∧ k = name category +:+ "_"
                    +:+ NilEmpty.string_of_uint (Nat.to_uint i) +:+ "_"
                    +:+ value v.
Proof.
  intros Hl wf Hfuel term Hs.
  by apply (autoExpand_spec toLowerCase h levels searchTerm category wf term Hl).
Qed.

(** The theorem for a search for app in the fruit hierarchy. *)
Lemma search_expands_matching_nodes_witness :
  ∃ expandedNodes' expanded',
    autoExpand Session.lower 2 (heap Sample.built) Sample.food "app"
      Session.sets
    = Ok expandedNodes'
    ∧ expandedNodes' !! name Sample.food = Some expanded'
    ∧ (∀ n, n ≠ name Sample.food → expandedNodes' !! n = Session.sets !! n)
    ∧ ∀ k, k ∈ expanded'
        ↔ k ∈ Session.nothing
          ∨ ∃ i a v, a ∈ levelValues Sample.foodLevels i
              ∧ heap Sample.built !! a = Some v
              ∧ matchesBelow Session.lower (heap Sample.built) "app" a
              ∧ k = name Sample.food +:+ "_"
                    +:+ NilEmpty.string_of_uint (Nat.to_uint i) +:+ "_"
                    +:+ value v.
Proof.
  apply (search_expands_matching_nodes Session.lower 2 (heap Sample.built)
           Sample.food Sample.foodLevels "app" Session.sets Session.nothing).
  - reflexivity.
  - vm_compute. reflexivity.
  - simpl. lia.
  - reflexivity.
  - vm_compute. reflexivity.
Defined.
(** ** Expanding by hand, and what a search leaves expanded *)

(** X7.  A click on the expand icon of a node removes the key of the
    node from the expanded set of its group name when the icon was
    rendered as expanded, and adds it when the icon was rendered as
    collapsed, whatever the set holds by now; no other key and no set
    of another name changes.  When the icon was in step with the set,
    the click flips the node, and a second click, on the icon that the
    re-rendering has put in its place, brings back the expanded sets as
    they were; when the icon was stale, the click changes nothing. *)
Theorem expand_click_round_trip category (key : string) (isExpanded : bool)
  (expandedNodes : ExpandedNodes) (expanded : gset string) :
  expandedNodes !! name category = Some expanded →
  ∃ after expanded',
    expandIconClick isExpanded category key expandedNodes = Ok after
    ∧ after !! name category = Some expanded'
    ∧ (key ∈ expanded' ↔ isExpanded = false)
    ∧ (∀ k, k ≠ key → k ∈ expanded' ↔ k ∈ expanded)
    ∧ (∀ n, n ≠ name category → after !! n = expandedNodes !! n)
    ∧ (isExpanded = bool_decide (key ∈ expanded) →
       (key ∈ expanded' ↔ key ∉ expanded)
       ∧ expandIconClick (bool_decide (key ∈ expanded')) category key after
         = Ok expandedNodes)
    ∧ (isExpanded ≠ bool_decide (key ∈ expanded) → after = expandedNodes).
Proof.
  intros Hs. unfold expandIconClick at 1. rewrite Hs.
  eexists _, _. split; [done|]. rewrite lookup_insert_eq.
  split; [done|].
  assert (∀ n, n ≠ name category →
            <[name category :=
                if isExpanded then expanded ∖ {[key]}
                else {[key]} ∪ expanded]> expandedNodes !! n
            = expandedNodes !! n) as Hother.
  { intros n Hn. by apply lookup_insert_ne. }
  unfold expandIconClick. rewrite lookup_insert_eq, insert_insert_eq.
  destruct isExpanded.
  - split_and!; [|..|done| |].
    + rewrite elem_of_difference, elem_of_singleton.
      split; [tauto|done].
    + intros k Hne. rewrite elem_of_difference, elem_of_singleton. tauto.
    + intros Hk. symmetry in Hk. apply bool_decide_eq_true in Hk.
      rewrite bool_decide_eq_false_2
        by (rewrite elem_of_difference, elem_of_singleton; tauto).
      split.
      * rewrite elem_of_difference, elem_of_singleton. tauto.
      * f_equal. apply insert_id. rewrite Hs. f_equal.
        apply set_eq. intros k.
        rewrite elem_of_union, elem_of_difference, elem_of_singleton.
        destruct (decide (k = key)) as [->|Hne]; tauto.
    + intros Hk. apply insert_id. rewrite Hs. f_equal.
      apply set_eq. intros k.
      rewrite elem_of_difference, elem_of_singleton.
      split; [|tauto]. intros Hin. split; [done|]. intros ->.
      apply Hk. symmetry. by apply bool_decide_eq_true.
  - split_and!; [|..|done| |].
    + rewrite elem_of_union, elem_of_singleton. tauto.
    + intros k Hne. rewrite elem_of_union, elem_of_singleton. tauto.
    + intros Hk. symmetry in Hk. apply bool_decide_eq_false in Hk.
      rewrite bool_decide_eq_true_2
        by (rewrite elem_of_union, elem_of_singleton; tauto).
      split.
      * rewrite elem_of_union, elem_of_singleton. tauto.
      * f_equal. apply insert_id. rewrite Hs. f_equal.
        apply set_eq. intros k.
        rewrite elem_of_difference, elem_of_union, elem_of_singleton.
        destruct (decide (k = key)) as [->|Hne]; tauto.
    + intros Hk. apply insert_id. rewrite Hs. f_equal.
      apply set_eq. intros k.
      rewrite elem_of_union, elem_of_singleton.
      split; [tauto|]. intros [->|Hin]; [|done].
      destruct (decide (key ∈ expanded)) as [Hin|Hout]; [done|].
      exfalso. apply Hk. symmetry. by apply bool_decide_eq_false.
Qed.

(** The theorem for a click on the icon of Fruit, rendered as
    collapsed. *)
Lemma expand_click_round_trip_witness :
  ∃ after expanded',
    expandIconClick false Sample.food "Food_0_Fruit" Session.sets = Ok after
    ∧ after !! name Sample.food = Some expanded'
    ∧ ("Food_0_Fruit" ∈ expanded' ↔ false = false)
    ∧ (∀ k, k ≠ "Food_0_Fruit" → k ∈ expanded' ↔ k ∈ Session.nothing)
    ∧ (∀ n, n ≠ name Sample.food → after !! n = Session.sets !! n)
    ∧ (false = bool_decide ("Food_0_Fruit" ∈ Session.nothing) →
       ("Food_0_Fruit" ∈ expanded' ↔ "Food_0_Fruit" ∉ Session.nothing)
       ∧ expandIconClick (bool_decide ("Food_0_Fruit" ∈ expanded'))
           Sample.food "Food_0_Fruit" after
         = Ok Session.sets)
    ∧ (false ≠ bool_decide ("Food_0_Fruit" ∈ Session.nothing) →
       after = Session.sets).
Proof.
  apply (expand_click_round_trip Sample.food "Food_0_Fruit" false
           Session.sets Session.nothing).
  vm_compute. reflexivity.
Defined.

Section Plain.

Variable toLowerCase : string → string.
Variables (h : Heap) (levels : list HierarchyLevel) (searchTerm : string).
Variables (category : FilterCategory) (expandedNodes : ExpandedNodes).

Hypothesis wf : wfHierarchy h levels = true.

(** Without a search term a node is always shown, what is shown with it
    lies below it, and once the nodes with a match below them are
    expanded, whatever a search for the term shows below the node is
    shown. *)
Lemma node_plain fuel : ∀ i a,
  a ∈ levelValues levels i → length levels ≤ i + fuel →
  ∃ rows,
    createHierarchyNode toLowerCase fuel h expandedNodes category a i ""
    = Ok rows
    ∧ (i, a) ∈ rows
    ∧ (∀ y, y ∈ rows →
         y = (i, a) ∨ (descendant h a y.2 ∧ y.2 ∈ levelValues levels y.1))
    ∧ (matchesExpanded toLowerCase h levels searchTerm category expandedNodes →
       matchesBelow toLowerCase h searchTerm a →
       ∀ y, shownBelow toLowerCase h levels searchTerm a y → y ∈ rows).
Proof.
  induction fuel as [|fuel IH]; intros i a Ha Hfuel.
  { apply levelValues_lt in Ha. lia. }
  destruct (lookup_lt_is_Some_2 h a) as [v Hv]; [by eapply wf_valid|].
  rewrite (createHierarchyNode_S toLowerCase fuel h expandedNodes category a
             i "" v Hv).
  assert (kids h a = childrenOf v) as Hk by (unfold kids; by rewrite Hv).
  rewrite <- Hk.
  destruct (showLoop_spec
              (λ c, skipped toLowerCase fuel h c "")
              (λ c, createHierarchyNode toLowerCase fuel h expandedNodes
                      category c (i + 1) "")
              (λ _, True)
              (λ c y, ∃ rows,
                 createHierarchyNode toLowerCase fuel h expandedNodes category
                   c (S i) "" = Ok rows ∧ y ∈ rows)
              (kids h a) [])
    as (rows & Er & Hrows).
  { intros c Hc. by exists false. }
  { intros c Hc _. rewrite Nat.add_1_r.
    destruct (IH (S i) c) as (rc & Erc & _); [by eapply wf_kids|lia|].
    exists rc. split; [done|]. intros y. split.
    - intros Hy. by exists rc.
    - intros (rc' & Erc' & Hy). congruence. }
  destruct (negb (bool_decide (kids h a = []))
            && match expandedNodes !! name category with
               | Some expanded =>
                   bool_decide (nodeKey (name category) i (value v) ∈ expanded)
               | None => false
               end) eqn:Eopen.
  - rewrite Er, bind_Ok. exists ((i, a) :: rows).
    split_and!; [done|by left| |].
    + intros y [?|Hy]%elem_of_cons; [by left|]. right.
      apply Hrows in Hy as [Hy|(c & Hc & _ & rc & Erc & Hy)];
        [by apply elem_of_nil in Hy|].
      assert (c ∈ levelValues levels (S i)) as Hci by by eapply wf_kids.
      destruct (IH (S i) c) as (rc' & Erc' & _ & Hsub & _); [done|lia|].
      assert (rc' = rc) as -> by congruence.
      destruct (Hsub y Hy) as [->|[D Hl]].
      * split; [by apply descendant_child|done].
      * split; [by eapply descendant_step|done].
    + intros Hexp Ma y (D & Hl & My). right. apply Hrows. right.
      apply descendant_inv in D as (c & Hc & Hy). exists c.
      split_and!; [done..|].
      assert (c ∈ levelValues levels (S i)) as Hci by by eapply wf_kids.
      destruct (IH (S i) c) as (rc & Erc & Hself & _ & Hbelow); [done|lia|].
      exists rc. split; [done|]. destruct Hy as [Ey|D].
      * destruct y as [l x]. simpl in *. subst x.
        by rewrite (wf_level_unique h levels wf l (S i) c).
      * apply Hbelow; [done|by eapply matchesBelow_up|]. done.
  - rewrite bind_Ok. exists [(i, a)]. split_and!; [done|by left| |].
    + intros y Hy%list_elem_of_singleton. by left.
    + intros Hexp Ma y (D & _). exfalso.
      apply descendant_inv in D as (c & Hc & _).
      destruct Hexp as (s & Es & Hs). rewrite Es in Eopen.
      rewrite (bool_decide_eq_true_2 _ (Hs i a v Ha Hv Ma)), andb_true_r
        in Eopen.
      apply negb_false_iff, bool_decide_eq_true in Eopen.
      rewrite Eopen in Hc. by apply elem_of_nil in Hc.
Qed.

End Plain.

(** The tree for the empty search term: the expanded sets are left as
    they are and every first-level node is shown. *)
Lemma renderTree_plain (toLowerCase : string → string) h levels searchTerm
  category (expandedNodes : ExpandedNodes) fuel :
  wfHierarchy h levels = true →
  hierarchyLevels category = Some levels → length levels ≤ fuel →
  ∃ shown,
    renderTree toLowerCase fuel h category "" expandedNodes
    = Ok (expandedNodes, shown)
    ∧ (∀ r, r ∈ levelValues levels 0 → (0, r) ∈ shown)
    ∧ (∀ l x, (l, x) ∈ shown →
         x ∈ levelValues levels l ∧ underRoot h levels x)
    ∧ (matchesExpanded toLowerCase h levels searchTerm category expandedNodes →
       ∀ l x, x ∈ levelValues levels l → underRoot h levels x →
         matchesBelow toLowerCase h searchTerm x → (l, x) ∈ shown).
Proof.
  intros wf Hl Hfuel. unfold renderTree, autoExpand.
  change (truthy "") with false. cbv iota. rewrite bind_Ok, Hl.
  destruct levels as [|firstLevel rest] eqn:El.
  { rewrite bind_Ok. exists []. split_and!; [done|..].
    - intros r Hr. unfold levelValues in Hr. rewrite lookup_nil in Hr.
      by apply elem_of_nil in Hr.
    - by intros l x ?%elem_of_nil.
    - intros _ l x Hx. unfold levelValues in Hx. rewrite lookup_nil in Hx.
      by apply elem_of_nil in Hx. }
  rewrite <- El in *.
  assert (hl_values firstLevel = levelValues levels 0) as E0
    by (by rewrite El).
  rewrite E0.
  destruct (showLoop_spec
              (λ c, skipped toLowerCase fuel h c "")
              (λ c, createHierarchyNode toLowerCase fuel h expandedNodes
                      category c 0 "")
              (λ _, True)
              (λ c y, ∃ rows,
                 createHierarchyNode toLowerCase fuel h expandedNodes category
                   c 0 "" = Ok rows ∧ y ∈ rows)
              (levelValues levels 0) [])
    as (shown & -> & Hshown).
  { intros c Hc. by exists false. }
  { intros c Hc _.
    destruct (node_plain toLowerCase h levels searchTerm category expandedNodes
                wf fuel 0 c) as (rc & Erc & _); [done|lia|].
    exists rc. split; [done|]. intros y. split.
    - intros Hy. by exists rc.
    - intros (rc' & Erc' & Hy). congruence. }
  rewrite bind_Ok. exists shown. split_and!; [done|..].
  - intros r Hr. apply Hshown. right. exists r. split_and!; [done..|].
    destruct (node_plain toLowerCase h levels searchTerm category expandedNodes
                wf fuel 0 r) as (rc & Erc & Hself & _); [done|lia|].
    by exists rc.
  - intros l x Hy.
    apply Hshown in Hy as [Hy|(r & Hr & _ & rc & Erc & Hy)];
      [by apply elem_of_nil in Hy|].
    destruct (node_plain toLowerCase h levels searchTerm category expandedNodes
                wf fuel 0 r) as (rc' & Erc' & _ & Hsub & _);
      [done|lia|].
    assert (rc' = rc) as -> by congruence.
    destruct (Hsub _ Hy) as [[= -> ->]|[D Hx]]; simpl in *.
    + split; [done|by left].
    + split; [done|]. right. by exists r.
  - intros Hexp l x Hx [H0|(r & Hr & D)] Mx; apply Hshown; right.
    + exists x. split_and!; [done..|].
      destruct (node_plain toLowerCase h levels searchTerm category expandedNodes
                  wf fuel 0 x) as (rc & Erc & Hself & _); [done|lia|].
      exists rc. split; [done|].
      by rewrite (wf_level_unique h levels wf l 0 x).
    + exists r. split_and!; [done..|].
      destruct (node_plain toLowerCase h levels searchTerm category expandedNodes
                wf fuel 0 r) as (rc & Erc & _ & _ & Hbelow);
        [done|lia|].
      exists rc. split; [done|]. apply Hbelow; [done| |].
      * by eapply matchesBelow_up.
      * by split_and!.
Qed.


(** X8.  What a search has expanded stays expanded: when the search box
    is emptied again, the tree shows every first-level node and, with
    them, every node that the search showed. *)
Theorem search_expansion_persists (toLowerCase : string → string)
  fuel h category levels searchTerm expandedNodes :
  hierarchyLevels category = Some levels →
  wfHierarchy h levels = true → length levels ≤ fuel →
  truthy searchTerm = true →
  is_Some (expandedNodes !! name category) →
  ∃ expandedNodes' found shown,
    renderTree toLowerCase fuel h category searchTerm expandedNodes
    = Ok (expandedNodes', found)
    ∧ renderTree toLowerCase fuel h category "" expandedNodes'
      = Ok (expandedNodes', shown)
    ∧ (∀ r, r ∈ levelValues levels 0 → (0, r) ∈ shown)
    ∧ ∀ y, y ∈ found → y ∈ shown.
Proof.
  intros Hl wf Hfuel term Hs.
  destruct (renderTree_search toLowerCase fuel h category levels searchTerm
              expandedNodes Hl wf Hfuel term Hs)
    as (en' & found & E1 & Hexp & Hfound).
  destruct (renderTree_plain toLowerCase h levels searchTerm category en' fuel
              wf Hl Hfuel) as (shown & E2 & Hroots & _ & Hall).
  exists en', found, shown. split_and!; [done..|].
  intros [l x] Hy. apply Hfound in Hy as (Hx & Hr & Mx). by apply Hall.
Qed.

(** The theorem for a search for app in the fruit hierarchy. *)
Lemma search_expansion_persists_witness :
  ∃ expandedNodes' found shown,
    renderTree Session.lower 2 (heap Sample.built) Sample.food "app"
      Session.sets
    = Ok (expandedNodes', found)
    ∧ renderTree Session.lower 2 (heap Sample.built) Sample.food ""
        expandedNodes'
      = Ok (expandedNodes', shown)
    ∧ (∀ r, r ∈ levelValues Sample.foodLevels 0 → (0, r) ∈ shown)
    ∧ ∀ y, y ∈ found → y ∈ shown.
Proof.
  apply (search_expansion_persists Session.lower 2 (heap Sample.built)
           Sample.food Sample.foodLevels "app" Session.sets).
  - reflexivity.
  - vm_compute. reflexivity.
  - simpl. lia.
  - reflexivity.
  - exists Session.nothing. vm_compute. reflexivity.
Defined.

(** X9.  A hierarchy section registers an expanded set for its group
    and keeps a set that is there; collapsed, it shows no node, and
    open, it shows every node of the first level, and every node it
    shows lies on its level at or below a node of the first level. *)
Theorem section_shows_roots_unless_collapsed (toLowerCase : string → string)
  fuel h category levels expandedNodes :
  hierarchyLevels category = Some levels →
  wfHierarchy h levels = true → length levels ≤ fuel →
  ∃ nodes,
    createHierarchySection toLowerCase fuel h category expandedNodes
    = Ok (initExpanded category expandedNodes, nodes)
    ∧ initExpanded category expandedNodes !! name category
      = Some (default ∅ (expandedNodes !! name category))
    ∧ (if collapsed category then nodes = []
       else ∀ r, r ∈ levelValues levels 0 → (0, r) ∈ nodes)
    ∧ ∀ l x, (l, x) ∈ nodes →
        x ∈ levelValues levels l ∧ underRoot h levels x.
Proof.
  intros Hl wf Hfuel. unfold createHierarchySection.
  assert (initExpanded category expandedNodes !! name category
          = Some (default ∅ (expandedNodes !! name category))) as Hinit.
  { unfold initExpanded.
    destruct (expandedNodes !! name category) as [s|] eqn:Es; [done|].
    apply lookup_insert_eq. }
  destruct (collapsed category).
  - exists []. split_and!; [done..|]. by intros l x ?%elem_of_nil.
  - destruct (renderTree_plain toLowerCase h levels "" category
                (initExpanded category expandedNodes) fuel wf Hl Hfuel)
      as (shown & -> & Hroots & Hsound & _).
    by exists shown.
Qed.

(** The theorem for the section of the fruit hierarchy. *)
Lemma section_shows_roots_unless_collapsed_witness :
  ∃ nodes,
    createHierarchySection Session.lower 2 (heap Sample.built) Sample.food ∅
    = Ok (initExpanded Sample.food ∅, nodes)
    ∧ initExpanded Sample.food ∅ !! name Sample.food
      = Some (default ∅ ((∅ : ExpandedNodes) !! name Sample.food))
    ∧ (if collapsed Sample.food then nodes = []
       else ∀ r, r ∈ levelValues Sample.foodLevels 0 → (0, r) ∈ nodes)
    ∧ ∀ l x, (l, x) ∈ nodes →
        x ∈ levelValues Sample.foodLevels l
        ∧ underRoot (heap Sample.built) Sample.foodLevels x.
Proof.
  apply (section_shows_roots_unless_collapsed Session.lower 2
           (heap Sample.built) Sample.food Sample.foodLevels ∅).
  - reflexivity.
  - vm_compute. reflexivity.
  - simpl. lia.
Defined.
(** ** Search in a standalone section *)

Lemma filterLoop_spec (toLowerCase : string → string) (h : Heap)
  (searchTerm : string) (vals : list Addr) : ∀ acc,
  (∀ a, a ∈ vals → is_Some (h !! a)) →
  ∃ kept,
    forEachM (λ a kept,
        match h !! a with
        | None => TypeError
        | Some v =>
            if includes (toLowerCase (value v)) (toLowerCase searchTerm)
            then Ok (kept ++ [a]) else Ok kept
        end) vals acc
    = Ok (acc ++ kept)
    ∧ sublist kept vals
    ∧ ∀ a, a ∈ kept ↔ a ∈ vals ∧ keyMatches toLowerCase h searchTerm a.
Proof.
  induction vals as [|a vals IH]; intros acc Hall.
  { exists []. rewrite app_nil_r. split_and!; [done..|]. intros a.
    split; [by intros ?%elem_of_nil|]. by intros [?%elem_of_nil _]. }
  rewrite forEachM_cons. cbv beta.
  destruct (Hall a) as [v Hv]; [by left|]. rewrite Hv.
  assert (∀ a', a' ∈ vals → is_Some (h !! a')) as Hall'.
  { intros a' Ha'. apply Hall. by right. }
  destruct (includes (toLowerCase (value v)) (toLowerCase searchTerm)) eqn:Ei.
  - rewrite bind_Ok. destruct (IH (acc ++ [a]) Hall') as (kept & -> & Hsub & Hk).
    exists (a :: kept). rewrite <- (assoc_L (++)).
    split_and!; [done|by constructor|]. intros x.
    rewrite !elem_of_cons, Hk. split.
    + intros [->|[? ?]]; [|by split; [right|]].
      split; [by left|]. by exists v.
    + intros [[->|?] K]; [by left|by right].
  - rewrite bind_Ok. destruct (IH acc Hall') as (kept & -> & Hsub & Hk).
    exists kept. split_and!; [done|by constructor|]. intros x.
    rewrite elem_of_cons, Hk. split.
    + intros [? ?]. by split; [right|].
    + intros [[->|?] K]; [|done].
      destruct K as (v' & Hv' & K). congruence.
Qed.

(** X10.  The search box of a standalone section keeps, in their
    order, exactly the values whose lower-cased key contains the
    lower-cased term; an empty term keeps every value. *)
Theorem standalone_search_keeps_matching_values
  (toLowerCase : string → string) (h : Heap) category searchTerm :
  Forall (λ a, is_Some (h !! a)) (values category) →
  ∃ kept,
    filteredValues toLowerCase h category searchTerm = Ok kept
    ∧ sublist kept (values category)
    ∧ ∀ a, a ∈ kept
        ↔ a ∈ values category
          ∧ (searchTerm = "" ∨ keyMatches toLowerCase h searchTerm a).
Proof.
  intros Hall. rewrite Forall_forall in Hall. unfold filteredValues, truthy.
  case_bool_decide as Et; simpl.
  - exists (values category). split_and!; [done..|]. intros a.
    split; [|by intros [? _]]. intros ?. split; [done|by left].
  - destruct (filterLoop_spec toLowerCase h searchTerm (values category) []
                Hall) as (kept & -> & Hsub & Hk).
    exists kept. split_and!; [done..|]. intros a. rewrite Hk.
    split; [intros [? ?]; split; [done|by right]|].
    intros [? [?|?]]; done.
Qed.

(** The theorem for a search for NOR in the standalone filter. *)
Lemma standalone_search_keeps_matching_values_witness :
  ∃ kept,
    filteredValues Session.lower (heap Sample.built) Sample.shopFilter "NOR"
    = Ok kept
    ∧ sublist kept (values Sample.shopFilter)
    ∧ ∀ a, a ∈ kept
        ↔ a ∈ values Sample.shopFilter
          ∧ ("NOR" = ""
             ∨ keyMatches Session.lower (heap Sample.built) "NOR" a).
Proof.
  apply (standalone_search_keeps_matching_values Session.lower
           (heap Sample.built) Sample.shopFilter "NOR").
  apply (bool_decide_unpack _). vm_compute. exact I.
Defined.
(** ** What a selection operation writes and what it emits *)

Lemma flat_map_elem {A B} (f : A → list B) (l : list A) y :
  y ∈ flat_map f l ↔ ∃ x, x ∈ l ∧ y ∈ f x.
Proof.
  rewrite list_elem_of_In, in_flat_map. split.
  - intros (x & Hx & Hy). exists x. by rewrite !list_elem_of_In.
  - intros (x & Hx & Hy). exists x. by rewrite <- !list_elem_of_In.
Qed.

Lemma selectedIds_elem h vals id :
  id ∈ selectedIds h vals
  ↔ ∃ a v, a ∈ vals ∧ h !! a = Some v ∧ selected v = true ∧ identity v = id.
Proof.
  unfold selectedIds. rewrite list_elem_of_omap. split.
  - intros (a & Ha & E). destruct (h !! a) as [v|] eqn:Hv; [|done].
    simpl in E. destruct (selected v) eqn:Es; [|done].
    injection E as <-. by exists a, v.
  - intros (a & v & Ha & Hv & Es & <-). exists a. split; [done|].
    rewrite Hv. simpl. by rewrite Es.
Qed.

Lemma selectedInLevels_elem h levels id :
  id ∈ selectedInLevels h levels
  ↔ ∃ i a v, a ∈ levelValues levels i ∧ h !! a = Some v
      ∧ selected v = true ∧ identity v = id.
Proof.
  unfold selectedInLevels. rewrite flat_map_elem. split.
  - intros (lv & Hlv & Hid). apply selectedIds_elem in Hid as (a & v & Ha & ?).
    apply list_elem_of_lookup in Hlv as [i Hi]. exists i, a, v.
    split; [|done]. unfold levelValues. by rewrite Hi.
  - intros (i & a & v & Ha & ?). unfold levelValues in Ha.
    destruct (levels !! i) as [lv|] eqn:Hi; [|by apply elem_of_nil in Ha].
    exists lv. split; [by eapply list_elem_of_lookup_2|].
    apply selectedIds_elem. by exists a, v.
Qed.

Lemma applySelection_Select ids (id : ISelectionId) :
  id ∈ ids → applySelection ids = Select ids.
Proof. destruct ids; [by intros ?%elem_of_nil|done]. Qed.

Lemma levelValues_mjoin levels i a :
  a ∈ levelValues levels i → a ∈ mjoin (hl_values <$> levels).
Proof.
  unfold levelValues. intros Ha.
  destruct (levels !! i) as [lv|] eqn:Hi; [|by apply elem_of_nil in Ha].
  apply list_elem_of_join. exists (hl_values lv). split; [done|].
  apply list_elem_of_fmap. exists lv. split; [done|].
  by eapply list_elem_of_lookup_2.
Qed.

Lemma mjoin_levelValues levels a :
  a ∈ mjoin (hl_values <$> levels) → ∃ i, a ∈ levelValues levels i.
Proof.
  intros (l & Ha & Hl)%list_elem_of_join.
  apply list_elem_of_fmap in Hl as (lv & -> & Hlv).
  apply list_elem_of_lookup in Hlv as [i Hi]. exists i.
  unfold levelValues. by rewrite Hi.
Qed.

(** The visual that a toggle returns, from the heap it leaves. *)
Lemma toggleHierarchyValue_run fuel a category levels vis h' :
  hierarchyLevels category = Some levels →
  toggleHierarchyHeap fuel a (Some levels) (heap vis) = Ok h' →
  toggleHierarchyValue fuel a category vis
  = Ok (mkVisual h' (filterCategories vis)
          (hostCalls vis ++
             [applySelection
                (selectedInLevels h' levels ++
                 flat_map (λ cat,
                     if bool_decide (name cat ≠ name category)
                     then selectedIds h' (values cat) else [])
                   (filterCategories vis))])).
Proof.
  intros Hl Run. unfold toggleHierarchyValue. by rewrite Hl, Run.
Qed.

(** Nothing outside the hierarchy is the toggled node, below it, or on
    the chain above it. *)
Lemma outside_untouched h levels L a fuel x :
  wfHierarchy h levels = true → a ∈ levelValues levels L →
  x ∉ mjoin (hl_values <$> levels) →
  x ≠ a ∧ ¬ descendant h a x ∧ x ∉ ancestorChain fuel h levels a.
Proof.
  intros wf Ha Hx. split_and!.
  - intros ->. by eapply Hx, levelValues_mjoin.
  - intros D. destruct (wf_descendant_level h levels wf a x D L Ha)
      as (j & _ & Hj).
    by eapply Hx, levelValues_mjoin.
  - intros Hc.
    destruct (descending_level levels L _ x
                (ancestorChain_descending h levels fuel L a wf Ha) Hc)
      as (j & _ & Hj).
    by eapply Hx, levelValues_mjoin.
Qed.

(** X11.  A toggle of a hierarchy node writes nothing but the node, the
    nodes below it and the chain of parents that the upward lookup
    locates: every other node is left as it is, the groups are left as
    they are, and exactly one call goes to the host.  On the node
    itself only [selected] changes. *)
Theorem toggle_writes_node_subtree_and_chain fuel a L category levels vis :
  hierarchyLevels category = Some levels →
  wfHierarchy (heap vis) levels = true →
  a ∈ levelValues levels L →
  length levels ≤ fuel →
  ∃ vis' ids,
    toggleHierarchyValue fuel a category vis = Ok vis'
    ∧ filterCategories vis' = filterCategories vis
    ∧ hostCalls vis' = hostCalls vis ++ [applySelection ids]
    ∧ heap vis' !! a
      = withSelected (negb (selectedAt (heap vis) a)) <$> heap vis !! a
    ∧ ∀ x, x ≠ a → ¬ descendant (heap vis) a x →
        x ∉ ancestorChain fuel (heap vis) levels a →
        heap vis' !! x = heap vis !! x.
Proof.
  intros Hl wf Ha Hfuel.
  destruct (lookup_lt_is_Some_2 (heap vis) a) as [v Hv];
    [by eapply wf_valid|].
  destruct (toggle_flags _ _ _ _ _ _ wf Ha Hfuel Hv)
    as (h' & Run & _ & Hv' & _ & _ & Hframe).
  rewrite (toggleHierarchyValue_run _ _ _ _ _ _ Hl Run).
  eexists _, _. split; [done|]. simpl. split_and!; [done|done| |done].
  rewrite Hv', Hv. unfold selectedAt. by rewrite Hv.
Qed.

(** The theorem for a toggle of Apple in the fruit hierarchy. *)
Lemma toggle_writes_node_subtree_and_chain_witness :
  ∃ vis' ids,
    toggleHierarchyValue 2 2 Sample.food Sample.built = Ok vis'
    ∧ filterCategories vis' = filterCategories Sample.built
    ∧ hostCalls vis' = hostCalls Sample.built ++ [applySelection ids]
    ∧ heap vis' !! 2
      = withSelected (negb (selectedAt (heap Sample.built) 2))
          <$> heap Sample.built !! 2
    ∧ ∀ x, x ≠ 2 → ¬ descendant (heap Sample.built) 2 x →
        x ∉ ancestorChain 2 (heap Sample.built) Sample.foodLevels 2 →
        heap vis' !! x = heap Sample.built !! x.
Proof.
  apply (toggle_writes_node_subtree_and_chain 2 2 1 Sample.food
           Sample.foodLevels Sample.built).
  - reflexivity.
  - vm_compute. reflexivity.
  - vm_compute. constructor.
  - simpl. lia.
Defined.

(** X12.  Selecting a hierarchy node always emits a [select] call, never
    [clear], and the identity of the node is among the identities
    passed. *)
Theorem toggle_on_emits_identity fuel a L category levels vis v :
  hierarchyLevels category = Some levels →
  wfHierarchy (heap vis) levels = true →
  a ∈ levelValues levels L →
  length levels ≤ fuel →
  heap vis !! a = Some v → selected v = false →
  ∃ vis' ids,
    toggleHierarchyValue fuel a category vis = Ok vis'
    ∧ hostCalls vis' = hostCalls vis ++ [Select ids]
    ∧ identity v ∈ ids.
Proof.
  intros Hl wf Ha Hfuel Hv Hs.
  destruct (toggle_flags _ _ _ _ _ _ wf Ha Hfuel Hv)
    as (h' & Run & _ & Hv' & _).
  rewrite (toggleHierarchyValue_run _ _ _ _ _ _ Hl Run).
  eexists _, _. split; [done|]. simpl.
  assert (identity v ∈ selectedInLevels h' levels) as Hid.
  { apply selectedInLevels_elem.
    exists L, a, (withSelected (negb (selected v)) v).
    split_and!; [done|done| |done]. simpl. by rewrite Hs. }
  split.
  - f_equal. f_equal. apply (applySelection_Select _ (identity v)).
    apply elem_of_app. by left.
  - apply elem_of_app. by left.
Qed.

(** The theorem for selecting Apple in the fruit hierarchy. *)
Lemma toggle_on_emits_identity_witness :
  ∃ vis' ids,
    toggleHierarchyValue 2 2 Sample.food Sample.built = Ok vis'
    ∧ hostCalls vis' = hostCalls Sample.built ++ [Select ids]
    ∧ identity Session.apple ∈ ids.
Proof.
  apply (toggle_on_emits_identity 2 2 1 Sample.food Sample.foodLevels
           Sample.built Session.apple).
  - reflexivity.
  - vm_compute. reflexivity.
  - vm_compute. constructor.
  - simpl. lia.
  - vm_compute. reflexivity.
  - reflexivity.
Defined.

(** X13.  A toggle in a hierarchy keeps the standalone selection of the
    other groups: a selected value of a group with another name is left
    selected, and its identity is passed to the host again. *)
Theorem toggle_keeps_other_groups_selected fuel a L category levels vis
  other x vx :
  hierarchyLevels category = Some levels →
  wfHierarchy (heap vis) levels = true →
  a ∈ levelValues levels L →
  length levels ≤ fuel →
  other ∈ filterCategories vis → name other ≠ name category →
  x ∈ values other → x ∉ mjoin (hl_values <$> levels) →
  heap vis !! x = Some vx → selected vx = true →
  ∃ vis' ids,
    toggleHierarchyValue fuel a category vis = Ok vis'
    ∧ heap vis' !! x = Some vx
    ∧ hostCalls vis' = hostCalls vis ++ [Select ids]
    ∧ identity vx ∈ ids.
Proof.
  intros Hl wf Ha Hfuel Ho Hn Hx Hout Hvx Hs.
  destruct (lookup_lt_is_Some_2 (heap vis) a) as [v Hv];
    [by eapply wf_valid|].
  destruct (toggle_flags _ _ _ _ _ _ wf Ha Hfuel Hv)
    as (h' & Run & _ & _ & _ & _ & Hframe).
  destruct (outside_untouched (heap vis) levels L a fuel x wf Ha Hout)
    as (Hxa & Hxd & Hxc).
  assert (h' !! x = Some vx) as Hx' by (by rewrite Hframe).
  rewrite (toggleHierarchyValue_run _ _ _ _ _ _ Hl Run).
  eexists _, _. split; [done|]. simpl. split; [done|].
  assert (identity vx
          ∈ flat_map (λ cat,
                if bool_decide (name cat ≠ name category)
                then selectedIds h' (values cat) else [])
              (filterCategories vis)) as Hid.
  { apply flat_map_elem. exists other. split; [done|].
    rewrite bool_decide_eq_true_2 by done.
    apply selectedIds_elem. by exists x, vx. }
  split.
  - f_equal. f_equal. apply (applySelection_Select _ (identity vx)).
    apply elem_of_app. by right.
  - apply elem_of_app. by right.
Qed.

(** The theorem for a toggle of Apple while North is selected. *)
Lemma toggle_keeps_other_groups_selected_witness :
  ∃ vis' ids,
    toggleHierarchyValue 2 2 Sample.food Session.northSelected = Ok vis'
    ∧ heap vis' !! 5 = Some (withSelected true Session.north)
    ∧ hostCalls vis' = hostCalls Session.northSelected ++ [Select ids]
    ∧ identity (withSelected true Session.north) ∈ ids.
Proof.
  apply (toggle_keeps_other_groups_selected 2 2 1 Sample.food Sample.foodLevels
           Session.northSelected Sample.shopFilter 5
           (withSelected true Session.north)).
  - reflexivity.
  - vm_compute. reflexivity.
  - vm_compute. constructor.
  - simpl. lia.
  - vm_compute. repeat constructor.
  - by vm_compute.
  - vm_compute. constructor.
  - apply (bool_decide_eq_false_1 (5 ∈ mjoin (hl_values <$> Sample.foodLevels))).
    vm_compute. reflexivity.
  - vm_compute. reflexivity.
  - reflexivity.
Defined.
(** ** Standalone toggles and the two clear operations *)

Lemma withSelected_same v : withSelected (selected v) v = v.
Proof. by destruct v. Qed.

Lemma withSelected_twice b b' v :
  withSelected b (withSelected b' v) = withSelected b v.
Proof. done. Qed.

(** X14.  A toggle of a standalone value flips [selected] of that value
    and writes nothing else; a second toggle of the same value brings
    back the heap as it was. *)
Theorem toggleSelection_flips_one_value a category vis v :
  heap vis !! a = Some v →
  ∃ vis1 vis2,
    toggleSelection a category vis = Ok vis1
    ∧ heap vis1 = <[a := withSelected (negb (selected v)) v]> (heap vis)
    ∧ filterCategories vis1 = filterCategories vis
    ∧ toggleSelection a category vis1 = Ok vis2
    ∧ heap vis2 = heap vis.
Proof.
  intros Hv. unfold toggleSelection at 1. rewrite Hv.
  eexists _, _. split; [done|]. simpl.
  assert (alter (withSelected (negb (selected v))) a (heap vis)
          = <[a := withSelected (negb (selected v)) v]> (heap vis)) as E.
  { apply list_eq. intros x. destruct (decide (x = a)) as [->|Hx].
    - rewrite list_lookup_alter_eq, Hv, list_lookup_insert_eq; [done|].
      by eapply lookup_lt_Some.
    - by rewrite list_lookup_alter_ne, list_lookup_insert_ne. }
  split_and!; [done|done| |].
  - unfold toggleSelection. simpl. rewrite list_lookup_alter_eq, Hv. done.
  - simpl. apply list_eq. intros x. destruct (decide (x = a)) as [->|Hx].
    + rewrite !list_lookup_alter_eq, Hv. simpl.
      by rewrite negb_involutive, withSelected_twice, withSelected_same.
    + by rewrite !list_lookup_alter_ne.
Qed.

(** The theorem for a toggle of North in the standalone filter. *)
Lemma toggleSelection_flips_one_value_witness :
  ∃ vis1 vis2,
    toggleSelection 5 Sample.shopFilter Sample.built = Ok vis1
    ∧ heap vis1
      = <[5 := withSelected (negb (selected Session.north)) Session.north]>
          (heap Sample.built)
    ∧ filterCategories vis1 = filterCategories Sample.built
    ∧ toggleSelection 5 Sample.shopFilter vis1 = Ok vis2
    ∧ heap vis2 = heap Sample.built.
Proof.
  apply (toggleSelection_flips_one_value 5 Sample.shopFilter Sample.built
           Session.north).
  vm_compute. reflexivity.
Defined.

(** X15.  Selecting a standalone value of one of the groups always emits
    a [select] call, and the identity of the value is among the
    identities passed. *)
Theorem toggleSelection_on_emits_identity a category vis v cat :
  heap vis !! a = Some v → selected v = false →
  cat ∈ filterCategories vis → a ∈ values cat →
  ∃ vis' ids,
    toggleSelection a category vis = Ok vis'
    ∧ hostCalls vis' = hostCalls vis ++ [Select ids]
    ∧ identity v ∈ ids.
Proof.
  intros Hv Hs Hc Ha. unfold toggleSelection. rewrite Hv.
  eexists _, _. split; [done|]. simpl.
  set (h := alter (withSelected (negb (selected v))) a (heap vis)).
  assert (identity v
          ∈ flat_map (λ cat, selectedIds h (values cat)) (filterCategories vis))
    as Hid.
  { apply flat_map_elem. exists cat. split; [done|].
    apply selectedIds_elem. exists a, (withSelected (negb (selected v)) v).
    split_and!; [done| |by rewrite Hs|done].
    unfold h. by rewrite list_lookup_alter_eq, Hv. }
  split; [|done]. f_equal. f_equal.
  by apply (applySelection_Select _ (identity v)).
Qed.

(** The theorem for selecting North in the standalone filter. *)
Lemma toggleSelection_on_emits_identity_witness :
  ∃ vis' ids,
    toggleSelection 5 Sample.shopFilter Sample.built = Ok vis'
    ∧ hostCalls vis' = hostCalls Sample.built ++ [Select ids]
    ∧ identity Session.north ∈ ids.
Proof.
  apply (toggleSelection_on_emits_identity 5 Sample.shopFilter Sample.built
           Session.north Sample.shopFilter).
  - vm_compute. reflexivity.
  - reflexivity.
  - vm_compute. repeat constructor.
  - vm_compute. constructor.
Defined.

(** Where [clearValues] writes: the nodes of the list, and on them only
    [selected]. *)
Lemma clearValues_lookup vals : ∀ (h : Heap) x,
  clearValues vals h !! x
  = if decide (x ∈ vals) then withSelected false <$> h !! x else h !! x.
Proof.
  unfold clearValues.
  induction vals as [|a vals IH]; intros h x; cbn [foldl].
  { case_decide as Hin; [by apply elem_of_nil in Hin|done]. }
  rewrite IH. destruct (decide (x = a)) as [->|Hx].
  - rewrite list_lookup_alter_eq.
    destruct (decide (a ∈ a :: vals)) as [_|Hn]; [|exfalso; apply Hn; by left].
    case_decide; [|done]. by destruct (h !! a).
  - rewrite list_lookup_alter_ne by done.
    destruct (decide (x ∈ vals)) as [Hin|Hin],
             (decide (x ∈ a :: vals)) as [Hin'|Hin']; try done.
    + exfalso. apply Hin'. by right.
    + apply elem_of_cons in Hin' as [?|?]; done.
Qed.

Lemma clearValues_twice vals (h : Heap) :
  clearValues vals (clearValues vals h) = clearValues vals h.
Proof.
  apply list_eq. intros x. rewrite !clearValues_lookup.
  case_decide; [|done]. by destruct (h !! x).
Qed.

Lemma clearValues_app l1 l2 (h : Heap) :
  clearValues (l1 ++ l2) h = clearValues l2 (clearValues l1 h).
Proof. unfold clearValues. by rewrite foldl_app. Qed.

Lemma clearLevels_join levels : ∀ (h : Heap),
  foldl (λ h level, clearValues (hl_values level) h) h levels
  = clearValues (mjoin (hl_values <$> levels)) h.
Proof.
  induction levels as [|lv levels IH]; intros h; [done|].
  simpl. by rewrite IH, clearValues_app.
Qed.

(** X16.  Clearing a standalone group leaves every value of the group
    unselected and every other node as it was; clearing it again
    changes nothing and passes the same selection to the host. *)
Theorem clearCategorySelection_clears_its_values category vis :
  ∃ vis' call,
    clearCategorySelection category vis = Ok vis'
    ∧ filterCategories vis' = filterCategories vis
    ∧ hostCalls vis' = hostCalls vis ++ [call]
    ∧ (∀ x, heap vis' !! x
            = if decide (x ∈ values category)
              then withSelected false <$> heap vis !! x
              else heap vis !! x)
    ∧ clearCategorySelection category vis'
      = Ok (mkVisual (heap vis') (filterCategories vis')
              (hostCalls vis' ++ [call])).
Proof.
  unfold clearCategorySelection. eexists _, _. split; [done|]. simpl.
  split_and!; [done|done| |].
  - intros x. apply clearValues_lookup.
  - by rewrite clearValues_twice.
Qed.

(** X17.  Clearing a hierarchy leaves every node of every level
    unselected and every node outside the hierarchy as it was, and on
    the nodes it writes only [selected] changes; clearing it again
    changes nothing and passes the same selection to the host. *)
Theorem clearHierarchySelection_clears_its_levels category levels vis :
  hierarchyLevels category = Some levels →
  ∃ vis' call,
    clearHierarchySelection category vis = Ok vis'
    ∧ filterCategories vis' = filterCategories vis
    ∧ hostCalls vis' = hostCalls vis ++ [call]
    ∧ (∀ x, heap vis' !! x
            = if decide (x ∈ mjoin (hl_values <$> levels))
              then withSelected false <$> heap vis !! x
              else heap vis !! x)
    ∧ clearHierarchySelection category vis'
      = Ok (mkVisual (heap vis') (filterCategories vis')
              (hostCalls vis' ++ [call])).
Proof.
  intros Hl. unfold clearHierarchySelection. rewrite Hl.
  eexists _, _. split; [done|]. simpl.
  split_and!; [done|done| |].
  - intros x. rewrite clearLevels_join. apply clearValues_lookup.
  - by rewrite !clearLevels_join, clearValues_twice.
Qed.

(** The theorem for a clear of the fruit hierarchy. *)
Lemma clearHierarchySelection_clears_its_levels_witness :
  ∃ vis' call,
    clearHierarchySelection Sample.food Sample.built = Ok vis'
    ∧ filterCategories vis' = filterCategories Sample.built
    ∧ hostCalls vis' = hostCalls Sample.built ++ [call]
    ∧ (∀ x, heap vis' !! x
            = if decide (x ∈ mjoin (hl_values <$> Sample.foodLevels))
              then withSelected false <$> heap Sample.built !! x
              else heap Sample.built !! x)
    ∧ clearHierarchySelection Sample.food vis'
      = Ok (mkVisual (heap vis') (filterCategories vis')
              (hostCalls vis' ++ [call])).
Proof.
  apply (clearHierarchySelection_clears_its_levels Sample.food
           Sample.foodLevels Sample.built).
  reflexivity.
Defined.

(** ** Running a traversal twice *)

Lemma recompute_consistent h p v :
  h !! p = Some v → consistentWithChildren h p → recompute h p v = v.
Proof.
  intros Hv (v' & Hv' & C). assert (v' = v) as -> by congruence.
  unfold recompute. simpl in C.
  destruct (forallb _ _).
  - destruct C as [C1 C2]. destruct v; simpl in *. by subst.
  - destruct (existsb _ _); simpl in *;
      destruct C as [C1 C2]; destruct v; simpl in *; by subst.
Qed.

Lemma recomputeAll_fixed chain : ∀ h,
  (∀ p, p ∈ chain → consistentWithChildren h p) → recomputeAll chain h = h.
Proof.
  induction chain as [|p chain IH]; intros h C; [done|]. simpl.
  assert (alter (recompute h p) p h = h) as ->.
  { destruct (C p) as (v & Hv & Cv); [by left|].
    apply list_eq. intros x. destruct (decide (x = p)) as [->|Hx].
    - rewrite list_lookup_alter_eq, Hv. simpl. f_equal.
      apply recompute_consistent; [done|]. by exists v.
    - by rewrite list_lookup_alter_ne. }
  apply IH. intros q Hq. apply C. by right.
Qed.

(** X18.  The upward recomputation is idempotent: on a well-formed
    hierarchy it returns for every parent key, and running it again
    with the same key on its result changes nothing. *)
Theorem upward_recomputation_idempotent fuel levels key h :
  wfHierarchy h levels = true → length levels < fuel →
  ∃ h1,
    updateParentSelectionRecursive fuel levels key h = Ok h1
    ∧ updateParentSelectionRecursive fuel levels key h1 = Ok h1.
Proof.
  intros wf Hfuel.
  destruct (findParent h levels key) as [p|] eqn:F.
  - apply findParent_Some in F as (j & Hp & Hk & Hc).
    assert (j < fuel) as Hj by (apply levelValues_lt in Hp; lia).
    destruct (update_total levels fuel h key j p wf Hp Hj Hk Hc) as [h1 Run].
    exists h1. split; [done|].
    pose proof (update_recomputeAll _ _ _ _ _ Run) as E1.
    assert (sameShape h h1) as E by (subst h1; apply recomputeAll_sameShape).
    assert (wfHierarchy h1 levels = true) as wf1
      by by rewrite <- (sameShape_wfHierarchy _ _ _ E).
    destruct (update_total levels fuel h1 key j p wf1 Hp Hj) as [h2 Run2].
    { by rewrite <- (sameShape_valueAt _ _ _ E). }
    { by rewrite <- (sameShape_kids _ _ _ E). }
    rewrite Run2. f_equal.
    apply update_recomputeAll in Run2.
    rewrite <- (sameShape_parentChain _ _ _ _ _ E) in Run2. subst h2.
    apply recomputeAll_fixed. intros q Hq. rewrite E1.
    apply recomputeAll_consistent; [|done].
    eapply (descending_separated h levels (S j)); [done|].
    by apply (parentChain_descending h levels fuel wf key (S j) j p);
      [|lia|..].
  - destruct fuel as [|fuel]; [lia|]. exists h. simpl. by rewrite F.
Qed.

(** The theorem for the parent key Fruit in the fruit hierarchy. *)
Lemma upward_recomputation_idempotent_witness :
  ∃ h1,
    updateParentSelectionRecursive 3 Sample.foodLevels "Fruit"
      (heap Sample.built) = Ok h1
    ∧ updateParentSelectionRecursive 3 Sample.foodLevels "Fruit" h1 = Ok h1.
Proof.
  apply (upward_recomputation_idempotent 3 Sample.foodLevels "Fruit"
           (heap Sample.built)).
  - vm_compute. reflexivity.
  - simpl. lia.
Defined.

(** X19.  The downward cascade writes the nodes below the node it is
    started on and no other node, and is idempotent: running it again
    with the same state changes nothing. *)
Theorem cascade_marks_descendants_once fuel levels L a s h :
  wfHierarchy h levels = true → a ∈ levelValues levels L →
  length levels ≤ fuel →
  ∃ h1,
    cascadeSelectionToDescendants fuel a s h = Ok h1
    ∧ (∀ x, descendant h a x → h1 !! x = cascadeMark s <$> h !! x)
    ∧ (∀ x, ¬ descendant h a x → h1 !! x = h !! x)
    ∧ cascadeSelectionToDescendants fuel a s h1 = Ok h1.
Proof.
  intros wf Ha Hfuel.
  assert (depthWithin h fuel a) as Hd.
  { eapply (wf_depthWithin h levels wf fuel L); [done|lia]. }
  destruct (cascade_total fuel s a h Hd) as [h1 Run].
  pose proof (cascade_spec _ _ _ _ _ Run) as C.
  assert (sameShape h h1) as E by by eapply cascaded_sameShape.
  assert (∀ x, descendant h a x → h1 !! x = cascadeMark s <$> h !! x) as Hin.
  { intros x D. by destruct (C x) as [[_ ?]|[N _]]. }
  assert (∀ x, ¬ descendant h a x → h1 !! x = h !! x) as Hout.
  { intros x N. by destruct (C x) as [[D _]|[_ ?]]. }
  exists h1. split_and!; [done..|].
  destruct (cascade_total fuel s a h1) as [h2 Run2].
  { by eapply sameShape_depthWithin. }
  rewrite Run2. f_equal. apply list_eq. intros x.
  destruct (cascade_spec _ _ _ _ _ Run2 x) as [[D ->]|[_ ->]]; [|done].
  apply (sameShape_descendant h1 h) in D; [|by apply sameShape_sym].
  by rewrite (Hin x D), cascadeMark_twice.
Qed.

(** The theorem for a cascade from Fruit in the fruit hierarchy. *)
Lemma cascade_marks_descendants_once_witness :
  ∃ h1,
    cascadeSelectionToDescendants 2 0 true (heap Sample.built) = Ok h1
    ∧ (∀ x, descendant (heap Sample.built) 0 x →
         h1 !! x = cascadeMark true <$> heap Sample.built !! x)
    ∧ (∀ x, ¬ descendant (heap Sample.built) 0 x →
         h1 !! x = heap Sample.built !! x)
    ∧ cascadeSelectionToDescendants 2 0 true h1 = Ok h1.
Proof.
  apply (cascade_marks_descendants_once 2 Sample.foodLevels 0 0 true
           (heap Sample.built)).
  - vm_compute. reflexivity.
  - vm_compute. constructor.
  - simpl. lia.
Defined.
(** ** When the host is told the whole selection *)

Lemma selectedInCategory_elem h cat id :
  id ∈ selectedInCategory h cat
  ↔ ∃ a v, a ∈ groupNodes cat ∧ h !! a = Some v ∧ selected v = true
           ∧ identity v = id.
Proof.
  unfold selectedInCategory, groupNodes.
  rewrite elem_of_app, selectedIds_elem. split.
  - intros [(a & v & Ha & ?)|Hid].
    + exists a, v. split; [|done]. apply elem_of_app. by left.
    + destruct (hierarchyLevels cat) as [levels|];
        [|by apply elem_of_nil in Hid].
      apply selectedInLevels_elem in Hid as (i & a & v & Ha & ?).
      exists a, v. split; [|done]. apply elem_of_app. right.
      by eapply levelValues_mjoin.
  - intros (a & v & [Ha|Ha]%elem_of_app & ?).
    + left. by exists a, v.
    + right. destruct (hierarchyLevels cat) as [levels|];
        [|by apply elem_of_nil in Ha].
      apply mjoin_levelValues in Ha as [i Ha].
      apply selectedInLevels_elem. by exists i, a, v.
Qed.

(** X20.  After a clear of a standalone group the host is told the
    whole selection: the identities passed are exactly the identities
    of the nodes, standalone or of a hierarchy level, that are selected
    in some group. *)
Theorem clearCategorySelection_emits_whole_selection category vis :
  ∃ vis' ids,
    clearCategorySelection category vis = Ok vis'
    ∧ hostCalls vis' = hostCalls vis ++ [applySelection ids]
    ∧ ∀ id, id ∈ ids ↔ selectedNode (heap vis') (filterCategories vis') id.
Proof.
  unfold clearCategorySelection. eexists _, _. split; [done|]. simpl.
  split; [done|]. intros id. rewrite flat_map_elem. unfold selectedNode.
  split.
  - intros (cat & Hc & Hid). apply selectedInCategory_elem in Hid
      as (a & v & ?). by exists cat, a, v.
  - intros (cat & a & v & Hc & ?). exists cat. split; [done|].
    apply selectedInCategory_elem. by exists a, v.
Qed.

(** X21.  After a clear of a hierarchy the host is told the whole
    selection, as long as every group that bears the name of the
    hierarchy holds nodes of the hierarchy only. *)
Theorem clearHierarchySelection_emits_whole_selection category levels vis :
  hierarchyLevels category = Some levels →
  Forall (λ cat, name cat = name category →
                 Forall (λ a, a ∈ mjoin (hl_values <$> levels)) (groupNodes cat))
    (filterCategories vis) →
  ∃ vis' ids,
    clearHierarchySelection category vis = Ok vis'
    ∧ hostCalls vis' = hostCalls vis ++ [applySelection ids]
    ∧ ∀ id, id ∈ ids ↔ selectedNode (heap vis') (filterCategories vis') id.
Proof.
  intros Hl Hown. rewrite Forall_forall in Hown.
  unfold clearHierarchySelection. rewrite Hl.
  eexists _, _. split; [done|]. simpl. split; [done|].
  intros id. rewrite flat_map_elem. unfold selectedNode. split.
  - intros (cat & Hc & Hid). case_bool_decide; [|by apply elem_of_nil in Hid].
    apply selectedInCategory_elem in Hid as (a & v & ?). by exists cat, a, v.
  - intros (cat & a & v & Hc & Ha & Hv & Hs & Hid). exists cat.
    split; [done|]. case_bool_decide as Hn.
    + apply selectedInCategory_elem. by exists a, v.
    + exfalso.
      pose proof (Hown cat Hc Hn) as Hin. rewrite Forall_forall in Hin.
      specialize (Hin a Ha).
      rewrite clearLevels_join, clearValues_lookup, decide_True in Hv by done.
      destruct (heap vis !! a) as [v0|]; [|done]. simpl in Hv.
      injection Hv as <-. done.
Qed.

(** The theorem for a clear of the fruit hierarchy of the sample. *)
Lemma clearHierarchySelection_emits_whole_selection_witness :
  ∃ vis' ids,
    clearHierarchySelection Sample.food Session.northSelected = Ok vis'
    ∧ hostCalls vis' = hostCalls Session.northSelected ++ [applySelection ids]
    ∧ ∀ id, id ∈ ids ↔ selectedNode (heap vis') (filterCategories vis') id.
Proof.
  apply (clearHierarchySelection_emits_whole_selection Sample.food
           Sample.foodLevels Session.northSelected).
  - reflexivity.
  - apply (bool_decide_unpack _). vm_compute. exact I.
Defined.

(** X22.  After a toggle in a hierarchy the host is told the whole
    selection, as long as the hierarchy is one of the groups and every
    other group is a standalone filter with another name. *)
Theorem toggle_emits_whole_selection fuel a L category levels vis :
  hierarchyLevels category = Some levels →
  wfHierarchy (heap vis) levels = true →
  a ∈ levelValues levels L →
  length levels ≤ fuel →
  category ∈ filterCategories vis → values category = [] →
  Forall (λ cat, cat = category
                 ∨ (hierarchyLevels cat = None ∧ name cat ≠ name category))
    (filterCategories vis) →
  ∃ vis' ids,
    toggleHierarchyValue fuel a category vis = Ok vis'
    ∧ hostCalls vis' = hostCalls vis ++ [applySelection ids]
    ∧ ∀ id, id ∈ ids ↔ selectedNode (heap vis') (filterCategories vis') id.
Proof.
  intros Hl wf Ha Hfuel Hin Hvals Hothers. rewrite Forall_forall in Hothers.
  destruct (lookup_lt_is_Some_2 (heap vis) a) as [v Hv];
    [by eapply wf_valid|].
  destruct (toggle_flags _ _ _ _ _ _ wf Ha Hfuel Hv) as (h' & Run & _).
  rewrite (toggleHierarchyValue_run _ _ _ _ _ _ Hl Run).
  eexists _, _. split; [done|]. simpl. split; [done|].
  intros id. rewrite elem_of_app, selectedInLevels_elem, flat_map_elem.
  unfold selectedNode. split.
  - intros [(i & x & vx & Hx & ?)|(cat & Hc & Hid)].
    + exists category, x, vx. split; [done|]. split; [|done].
      unfold groupNodes. rewrite Hvals, Hl. simpl.
      by eapply levelValues_mjoin.
    + case_bool_decide; [|by apply elem_of_nil in Hid].
      apply selectedIds_elem in Hid as (x & vx & Hx & ?).
      exists cat, x, vx. split; [done|]. split; [|done].
      unfold groupNodes. apply elem_of_app. by left.
  - intros (cat & x & vx & Hc & Hx & ?).
    destruct (Hothers cat Hc) as [->|[Hnone Hn]].
    + left. unfold groupNodes in Hx. rewrite Hvals, Hl in Hx. simpl in Hx.
      apply mjoin_levelValues in Hx as [i Hx]. by exists i, x, vx.
    + right. exists cat. split; [done|].
      rewrite bool_decide_eq_true_2 by done.
      apply selectedIds_elem. exists x, vx. split; [|done].
      unfold groupNodes in Hx. rewrite Hnone in Hx. simpl in Hx.
      by rewrite app_nil_r in Hx.
Qed.

(** The theorem for a toggle of Apple while North is selected. *)
Lemma toggle_emits_whole_selection_witness :
  ∃ vis' ids,
    toggleHierarchyValue 2 2 Sample.food Session.northSelected = Ok vis'
    ∧ hostCalls vis' = hostCalls Session.northSelected ++ [applySelection ids]
    ∧ ∀ id, id ∈ ids ↔ selectedNode (heap vis') (filterCategories vis') id.
Proof.
  apply (toggle_emits_whole_selection 2 2 1 Sample.food Sample.foodLevels
           Session.northSelected).
  - reflexivity.
  - vm_compute. reflexivity.
  - vm_compute. constructor.
  - simpl. lia.
  - vm_compute. constructor.
  - reflexivity.
  - vm_compute. apply Forall_cons. split; [left; reflexivity|].
    apply Forall_cons. split; [|constructor].
    right. split; [reflexivity|discriminate].
Defined.
(** ** Every column lands in exactly one group *)

Lemma filter_ext_in {A} (P Q : A → Prop) `{!∀ x, Decision (P x)}
  `{!∀ x, Decision (Q x)} (l : list A) :
  (∀ x, x ∈ l → P x ↔ Q x) → filter P l = filter Q l.
Proof.
  induction l as [|x l IH]; intros Hext; [done|].
  rewrite !filter_cons. rewrite IH by (intros y Hy; apply Hext; by right).
  destruct (decide (P x)) as [HP|HP], (decide (Q x)) as [HQ|HQ]; try done.
  - exfalso. apply HQ, Hext; [by left|done].
  - exfalso. apply HP, Hext; [by left|done].
Qed.

Lemma filter_split {A} (P Q R : A → Prop) `{!∀ x, Decision (P x)}
  `{!∀ x, Decision (Q x)} `{!∀ x, Decision (R x)} (l : list A) :
  (∀ x, x ∈ l → R x ↔ P x ∨ Q x) → (∀ x, x ∈ l → P x → Q x → False) →
  filter R l ≡ₚ filter P l ++ filter Q l.
Proof.
  induction l as [|x l IH]; intros HR HD; [done|].
  rewrite !filter_cons.
  assert (filter R l ≡ₚ filter P l ++ filter Q l) as IH'.
  { apply IH; intros y Hy; [apply HR|apply HD]; by right. }
  assert (x ∈ x :: l) as Hx by by left.
  destruct (decide (P x)) as [HP|HP], (decide (Q x)) as [HQ|HQ],
           (decide (R x)) as [Hr|Hr]; try done.
  - exfalso. by eapply HD.
  - exfalso. by eapply HD.
  - simpl. by f_equiv.
  - exfalso. apply Hr, HR; [done|by left].
  - rewrite IH'. apply Permutation_middle.
  - exfalso. apply Hr, HR; [done|by right].
  - exfalso. apply HR in Hr as [?|?]; done.
Qed.

Lemma related_single categories b cat :
  cat ∈ categories → lineage cat = Some b →
  ¬ 1 < length (related categories b) → related categories b = [cat].
Proof.
  intros Hin Hb Hlen.
  assert (cat ∈ related categories b) as Hr
    by (by apply list_elem_of_filter).
  destruct (related categories b) as [|c [|c' r]]; simpl in *.
  - by apply elem_of_nil in Hr.
  - by apply list_elem_of_singleton in Hr as ->.
  - lia.
Qed.

Lemma keyed_nil (l : list DataViewCategoryColumn) : filter (keyed []) l = [].
Proof.
  induction l as [|c l IH]; [done|].
  rewrite filter_cons_False; [done|].
  intros [_ Hin]. by apply elem_of_nil in Hin.
Qed.

(** The columns held by the groups that the first fields open. *)
Lemma groupsSpec_columns categories (pre rest : list DataViewCategoryColumn) :
  categories = pre ++ rest →
  mjoin (itemColumns
           <$> omap (λ '(idx, cat), groupOf categories idx cat) (imap pair pre))
  ≡ₚ filter (λ c, lineage c = None) pre
     ++ filter (keyed (lineage <$> pre)) categories.
Proof.
  revert rest. induction pre as [|cat pre IH] using rev_ind; intros rest Hcat.
  { simpl. by rewrite keyed_nil. }
  assert (categories = pre ++ cat :: rest) as Hcat'
    by (by rewrite Hcat, <- (assoc_L (++))).
  specialize (IH _ Hcat').
  assert (take (length pre) categories = pre) as Htake
    by (by rewrite Hcat', take_app_length).
  assert (cat ∈ categories) as Hin.
  { rewrite Hcat. apply elem_of_app. left. apply elem_of_app. right.
    by apply list_elem_of_singleton. }
  rewrite groupsSpec_snoc, fmap_app, join_app, IH, filter_app, fmap_app.
  change (lineage <$> [cat]) with [lineage cat].
  unfold groupOf. rewrite Htake.
  destruct (lineage cat) as [b|] eqn:Hb.
  - rewrite (filter_cons_False (λ c, lineage c = None)), app_nil_r
      by (by rewrite Hb).
    case_bool_decide as Hseen.
    + simpl. rewrite app_nil_r.
      assert (filter (keyed ((lineage <$> pre) ++ [Some b])) categories
              = filter (keyed (lineage <$> pre)) categories) as ->; [|done].
      apply filter_ext_in. intros c _. unfold keyed.
      rewrite elem_of_app, list_elem_of_singleton.
      split; [|tauto]. intros [? [?|E]]; [done|]. by rewrite E.
    + assert (filter (keyed ((lineage <$> pre) ++ [Some b])) categories
              ≡ₚ filter (keyed (lineage <$> pre)) categories
                 ++ related categories b) as Hsplit.
      { apply filter_split.
        - intros c _. unfold keyed.
          rewrite elem_of_app, list_elem_of_singleton. split.
          + intros [? [?|?]]; [by left|by right].
          + intros [[? ?]|E]; [split; [done|by left]|].
            rewrite E. split; [done|by right].
        - intros c _ [_ Hc] E. rewrite E in Hc. done. }
      rewrite Hsplit.
      assert (mjoin (itemColumns
                <$> from_option (λ item, [item]) []
                      (if bool_decide (1 < length (related categories b))
                       then Some (Hierarchy (hierarchyNameOf cat b)
                                    (length pre) (related categories b))
                       else Some (Single (src_displayName (source cat))
                                    (length pre) cat)))
              = related categories b) as ->.
      { case_bool_decide as Hlen; simpl; rewrite ?app_nil_r; [done|].
        symmetry. by apply related_single. }
      by rewrite (assoc_L (++)).
  - rewrite (filter_cons_True (λ c, lineage c = None)) by done.
    simpl. rewrite ?app_nil_r.
    assert (filter (keyed ((lineage <$> pre) ++ [None])) categories
            = filter (keyed (lineage <$> pre)) categories) as ->.
    { apply filter_ext_in. intros c _. unfold keyed.
      rewrite elem_of_app, list_elem_of_singleton. split; [|tauto].
      intros [[x Hx] [?|E]]; [done|]. congruence. }
    rewrite <- !(assoc_L (++)). f_equiv. apply Permutation_app_comm.
Qed.

(** X23.  The grouping is a partition of the input columns: every
    column is held by exactly one group, and a hierarchy holds at least
    two columns. *)
Theorem grouping_partitions_columns (categories : list DataViewCategoryColumn) :
  mjoin (itemColumns <$> groupCategories categories) ≡ₚ categories
  ∧ Forall (λ item,
        match item with
        | Hierarchy _ _ cols => 1 < length cols
        | Single _ _ _ => True
        end) (groupCategories categories).
Proof.
  rewrite groupCategories_spec. split.
  - unfold groupsSpec.
    rewrite (groupsSpec_columns categories categories []) by by rewrite app_nil_r.
    rewrite (filter_ext_in (keyed (lineage <$> categories))
               (λ c, ¬ lineage c = None)).
    + apply filter_app_complement.
    + intros c Hc. unfold keyed. split.
      * intros [[b Hb] _]. by rewrite Hb.
      * intros Hn. split.
        -- by destruct (lineage c).
        -- apply list_elem_of_fmap. by exists c.
  - apply Forall_forall. intros item Hin.
    apply list_elem_of_omap in Hin as ([idx cat] & _ & E).
    unfold groupOf in E.
    destruct (lineage cat) as [b|]; [|by simplify_eq].
    case_bool_decide; [done|].
    case_bool_decide; by simplify_eq.
Qed.
(** ** What a refresh keeps: the collapsed flags *)

Lemma collapsedStatesOf_snoc cats cat :
  collapsedStatesOf (cats ++ [cat])
  = <[name cat := collapsed cat]> (collapsedStatesOf cats).
Proof. unfold collapsedStatesOf. by rewrite foldl_app. Qed.

(** The saved flag of a name is the flag of the last group with this
    name. *)
Lemma collapsedStatesOf_lookup cats n :
  collapsedStatesOf cats !! n
  = collapsed <$> last (filter (λ c, name c = n) cats).
Proof.
  induction cats as [|cat cats IH] using rev_ind; [done|].
  rewrite collapsedStatesOf_snoc, filter_app.
  destruct (decide (name cat = n)) as [E|E].
  - rewrite filter_cons_True by done. rewrite filter_nil, last_snoc.
    subst n. by rewrite lookup_insert_eq.
  - rewrite filter_cons_False by done.
    rewrite filter_nil, app_nil_r, lookup_insert_ne by done. apply IH.
Qed.

Lemma buildHierarchy_collapsed collapsedStates itemName categories orderIndex
  vis :
  ∃ cat,
    filterCategories
      (buildHierarchy collapsedStates itemName categories orderIndex vis)
    = filterCategories vis ++ [cat]
    ∧ collapsed cat = default false (collapsedStates !! name cat).
Proof. unfold buildHierarchy. rewrite firstPass_spec. by eexists. Qed.

Lemma buildSingle_collapsed collapsedStates category orderIndex vis :
  ∃ cat,
    filterCategories (buildSingle collapsedStates category orderIndex vis)
    = filterCategories vis ++ [cat]
    ∧ collapsed cat = default false (collapsedStates !! name cat).
Proof.
  unfold buildSingle, singleValues. rewrite singleValues_spec. by eexists.
Qed.

Lemma processItems_collapsed collapsedStates (items : list OrderItem) :
  ∀ i vis,
    Forall (λ cat, collapsed cat = default false (collapsedStates !! name cat))
      (filterCategories vis) →
    Forall (λ cat, collapsed cat = default false (collapsedStates !! name cat))
      (filterCategories
         (forEachFrom (λ vis orderIndex item,
              match item with
              | Hierarchy itemName _ cats =>
                  buildHierarchy collapsedStates itemName cats orderIndex vis
              | Single _ _ category =>
                  buildSingle collapsedStates category orderIndex vis
              end) i items vis)).
Proof.
  induction items as [|item items IH]; intros i vis Inv; [done|].
  cbn [forEachFrom]. apply IH.
  destruct item as [itemName idx cats|itemName idx category].
  - destruct (buildHierarchy_collapsed collapsedStates itemName cats i vis)
      as (cat & -> & Hc).
    apply Forall_app. split; [done|]. by apply Forall_singleton.
  - destruct (buildSingle_collapsed collapsedStates category i vis)
      as (cat & -> & Hc).
    apply Forall_app. split; [done|]. by apply Forall_singleton.
Qed.

Lemma processData_collapsed categories vis :
  Forall (λ cat,
      collapsed cat
      = from_option collapsed false
          (last (filter (λ c, name c = name cat) (filterCategories vis))))
    (filterCategories (processData categories vis)).
Proof.
  unfold processData. destruct categories as [categories|]; [|done].
  eapply Forall_impl.
  - apply (processItems_collapsed (collapsedStatesOf (filterCategories vis))).
    simpl. constructor.
  - intros cat ->. rewrite collapsedStatesOf_lookup.
    by destruct (last _).
Qed.

(** X24.  A refresh carries the collapsed flag over by group name: a
    rebuilt group is collapsed exactly when the last group that had its
    name before the refresh was, and a group with a new name is open. *)
Theorem refresh_carries_collapsed_by_name categories vis :
  Forall (λ cat,
      collapsed cat
      = from_option collapsed false
          (last (filter (λ c, name c = name cat) (filterCategories vis))))
    (filterCategories (processData categories vis)).
Proof. apply processData_collapsed. Qed.

Lemma filter_name_absent (cats : list FilterCategory) n :
  n ∉ name <$> cats → filter (λ c, name c = n) cats = [].
Proof.
  induction cats as [|c cats IH]; intros Hn; [done|].
  rewrite fmap_cons in Hn. apply not_elem_of_cons in Hn as [Hc Hn].
  rewrite filter_cons_False by done. by apply IH.
Qed.

Lemma filter_name_unique (cats : list FilterCategory) i cat :
  NoDup (name <$> cats) → cats !! i = Some cat →
  filter (λ c, name c = name cat) cats = [cat].
Proof.
  revert i. induction cats as [|c cats IH]; intros i ND Hi; [done|].
  rewrite fmap_cons in ND. apply NoDup_cons in ND as [Hc ND].
  destruct i as [|i]; simpl in Hi.
  - injection Hi as ->. rewrite filter_cons_True by done. f_equal.
    by apply filter_name_absent.
  - rewrite filter_cons_False; [by eapply IH|].
    intros E. apply Hc. rewrite E. apply list_elem_of_fmap.
    exists cat. split; [done|]. by eapply list_elem_of_lookup_2.
Qed.

(** When a refresh yields the group names that were there before, and
    these are pairwise distinct, every group keeps its flag. *)
Lemma refresh_same_names categories vis :
  NoDup (name <$> filterCategories vis) →
  name <$> filterCategories (processData categories vis)
  = name <$> filterCategories vis →
  collapsed <$> filterCategories (processData categories vis)
  = collapsed <$> filterCategories vis.
Proof.
  intros ND Hn. apply list_eq. intros i. rewrite !list_lookup_fmap.
  assert (name <$> filterCategories (processData categories vis) !! i
          = name <$> filterCategories vis !! i) as Hi
    by (by rewrite <- !list_lookup_fmap, Hn).
  destruct (filterCategories (processData categories vis) !! i) as [new|] eqn:En;
    destruct (filterCategories vis !! i) as [old|] eqn:Eo; try done.
  simpl in *. injection Hi as Hi. f_equal.
  pose proof (processData_collapsed categories vis) as F.
  rewrite Forall_forall in F. rewrite (F new) by by eapply list_elem_of_lookup_2.
  by rewrite Hi, (filter_name_unique _ i old).
Qed.

(** The group names after a refresh are given by the columns alone. *)
Lemma processData_names categories vis vis' :
  name <$> filterCategories (processData (Some categories) vis)
  = name <$> filterCategories (processData (Some categories) vis').
Proof.
  assert (∀ v, name <$> filterCategories (processData (Some categories) v)
               = (imap (λ n item, (groupName n item, n))
                    (groupCategories categories)).*1) as Hn.
  { intros v.
    assert ((λ c, (name c, order c))
              <$> filterCategories (processData (Some categories) v)
            = imap (λ n item, (groupName n item, n))
                (groupCategories categories)) as <-.
    { unfold processData. by rewrite processItems_names. }
    by rewrite <- list_fmap_compose. }
  by rewrite !Hn.
Qed.

(** X25.  Collapsing or opening a group survives a refresh: after a
    click on the header of the [i]-th group and a refresh with the same
    columns, the flag of that group is flipped and the flags of the
    other groups are as before, as long as no two groups share a
    name. *)
Theorem collapse_survives_refresh categories vis i :
  NoDup (name <$> filterCategories (processData (Some categories) vis)) →
  collapsed
    <$> filterCategories
          (processData (Some categories)
             (headerClick i (processData (Some categories) vis)))
  = alter negb i
      (collapsed <$> filterCategories (processData (Some categories) vis)).
Proof.
  intros ND. set (vis1 := processData (Some categories) vis) in *.
  assert (name <$> filterCategories (headerClick i vis1)
          = name <$> filterCategories vis1) as Hn.
  { unfold headerClick. simpl. by apply fmap_alter_same. }
  rewrite refresh_same_names.
  - unfold headerClick. simpl. apply list_eq. intros j.
    rewrite list_lookup_fmap.
    destruct (decide (j = i)) as [->|Hj].
    + rewrite !list_lookup_alter_eq, list_lookup_fmap.
      by destruct (filterCategories vis1 !! i).
    + by rewrite !list_lookup_alter_ne, list_lookup_fmap.
  - by rewrite Hn.
  - rewrite Hn. apply processData_names.
Qed.

(** The theorem for a click on the header of the fruit hierarchy. *)
Lemma collapse_survives_refresh_witness :
  collapsed
    <$> filterCategories
          (processData (Some [Sample.kind; Sample.item; Sample.shop])
             (headerClick 0
                (processData (Some [Sample.kind; Sample.item; Sample.shop])
                   Sample.empty)))
  = alter negb 0
      (collapsed
         <$> filterCategories
               (processData (Some [Sample.kind; Sample.item; Sample.shop])
                  Sample.empty)).
Proof.
  apply (collapse_survives_refresh [Sample.kind; Sample.item; Sample.shop]
           Sample.empty 0).
  apply (bool_decide_unpack _). vm_compute. exact I.
Defined.
(** ** What a refresh resets: the selection *)

(** The second pass writes [children] and [parentValue] only. *)
Lemma secondPass_fmap {B} (f : FilterValue → B) categories valuesByLevel h :
  (∀ cs v, f (withChildren cs v) = f v) →
  (∀ p v, f (withParentValue p v) = f v) →
  f <$> secondPass categories valuesByLevel h = f <$> h.
Proof.
  intros Hc Hp. rewrite secondPass_rows.
  generalize (seq 0 (rowCount categories)). intros rows.
  revert h. induction rows as [|r rows IH]; intros h; [done|].
  cbn [foldl]. rewrite IH. clear IH.
  generalize (seq 0 (length categories - 1)). intros pairs.
  revert h. induction pairs as [|i pairs IH]; intros h; [done|].
  cbn [foldl]. rewrite IH. clear IH.
  unfold linkPair. repeat case_match; try done.
  by rewrite !fmap_alter_same.
Qed.

Lemma secondPass_length categories valuesByLevel (h : Heap) :
  length (secondPass categories valuesByLevel h) = length h.
Proof.
  rewrite <- (length_fmap value), (secondPass_fmap value) by done.
  apply length_fmap.
Qed.

(** The flags of a node, as the object literals of the build set them. *)
Lemma secondPass_flags categories valuesByLevel (h : Heap) a v :
  secondPass categories valuesByLevel h !! a = Some v →
  ∃ v0, h !! a = Some v0 ∧ selected v = selected v0
        ∧ indeterminate v = indeterminate v0.
Proof.
  intros Hv.
  pose proof (secondPass_fmap (λ v, (selected v, indeterminate v)) categories
                valuesByLevel h (λ _ _, eq_refl) (λ _ _, eq_refl)) as E.
  apply (f_equal (λ l, l !! a)) in E. rewrite !list_lookup_fmap, Hv in E.
  destruct (h !! a) as [v0|]; [|done]. simpl in E. injection E as E1 E2.
  by exists v0.
Qed.

Lemma levelNodes_fresh categories v :
  v ∈ mjoin (levelNodes <$> categories) →
  selected v = false ∧ indeterminate v = None.
Proof.
  intros (l & Hv & Hl)%list_elem_of_join.
  apply list_elem_of_fmap in Hl as (c & -> & _).
  unfold levelNodes in Hv.
  by apply list_elem_of_fmap in Hv as ([k i] & -> & _).
Qed.

(** The three parts of the visual after the build of a hierarchy. *)
Lemma buildHierarchy_parts collapsedStates itemName categories orderIndex vis :
  let maps := passMaps (length (heap vis)) categories in
  heap (buildHierarchy collapsedStates itemName categories orderIndex vis)
  = secondPass categories maps (heap vis ++ mjoin (levelNodes <$> categories))
  ∧ hostCalls (buildHierarchy collapsedStates itemName categories orderIndex vis)
    = hostCalls vis ++ mjoin (levelMints <$> categories)
  ∧ ∃ cat,
      filterCategories
        (buildHierarchy collapsedStates itemName categories orderIndex vis)
      = filterCategories vis ++ [cat]
      ∧ groupNodes cat
        = seq (length (heap vis))
            (length (mjoin (levelNodes <$> categories))).
Proof.
  unfold buildHierarchy. rewrite firstPass_spec. simpl.
  split_and!; [done..|]. eexists. split; [done|].
  unfold groupNodes. simpl.
  rewrite thirdPass_values by apply passMaps_length.
  rewrite passMaps_addresses. f_equal.
  rewrite <- passHeap_length, length_app. lia.
Qed.

(** The three parts of the visual after the build of a standalone
    filter. *)
Lemma buildSingle_parts collapsedStates category orderIndex vis :
  let rows := levelRows category in
  heap (buildSingle collapsedStates category orderIndex vis)
  = heap vis
    ++ ((λ '(k, i), newSingleValue k (mkSelectionId category i)) <$> rows)
  ∧ hostCalls (buildSingle collapsedStates category orderIndex vis)
    = hostCalls vis ++ ((λ '(k, i), CreateSelectionId category i) <$> rows)
  ∧ ∃ cat,
      filterCategories (buildSingle collapsedStates category orderIndex vis)
      = filterCategories vis ++ [cat]
      ∧ groupNodes cat = seq (length (heap vis)) (length rows).
Proof.
  unfold buildSingle, singleValues.
  rewrite singleValues_spec, firstIndices_spec. simpl.
  split_and!; [done..|]. eexists. split; [done|].
  unfold groupNodes. simpl. by rewrite app_nil_r.
Qed.

Lemma buildHierarchy_fresh base collapsedStates itemName categories orderIndex
  vis :
  freshFrom base vis →
  freshFrom base
    (buildHierarchy collapsedStates itemName categories orderIndex vis).
Proof.
  intros (Hb & Hf & Hg).
  destruct (buildHierarchy_parts collapsedStates itemName categories orderIndex
              vis) as (Eh & _ & cat & Ec & En).
  unfold freshFrom. rewrite Ec, Eh, secondPass_length, length_app.
  split_and!; [lia| |].
  - intros a v Ha Hv. apply secondPass_flags in Hv as (v0 & Hv0 & -> & ->).
    apply lookup_app_Some in Hv0 as [Hv0|[_ Hv0]]; [by eapply Hf|].
    eapply levelNodes_fresh, list_elem_of_lookup_2, Hv0.
  - intros c a [Hc| ->%list_elem_of_singleton]%elem_of_app Ha.
    + apply Hg in Ha; [lia|done].
    + rewrite En in Ha. apply elem_of_seq in Ha. lia.
Qed.

Lemma buildSingle_fresh base collapsedStates category orderIndex vis :
  freshFrom base vis →
  freshFrom base (buildSingle collapsedStates category orderIndex vis).
Proof.
  intros (Hb & Hf & Hg).
  destruct (buildSingle_parts collapsedStates category orderIndex vis)
    as (Eh & _ & cat & Ec & En).
  unfold freshFrom. rewrite Ec, Eh, length_app, length_fmap.
  split_and!; [lia| |].
  - intros a v Ha Hv.
    apply lookup_app_Some in Hv as [Hv|[_ Hv]]; [by eapply Hf|].
    apply list_elem_of_lookup_2, list_elem_of_fmap in Hv as ([k i] & -> & _).
    done.
  - intros c a [Hc| ->%list_elem_of_singleton]%elem_of_app Ha.
    + apply Hg in Ha; [lia|done].
    + rewrite En in Ha. apply elem_of_seq in Ha. lia.
Qed.

Lemma processItems_fresh base collapsedStates (items : list OrderItem) :
  ∀ i vis,
    freshFrom base vis →
    freshFrom base
      (forEachFrom (λ vis orderIndex item,
           match item with
           | Hierarchy itemName _ cats =>
               buildHierarchy collapsedStates itemName cats orderIndex vis
           | Single _ _ category =>
               buildSingle collapsedStates category orderIndex vis
           end) i items vis).
Proof.
  induction items as [|item items IH]; intros i vis Inv; [done|].
  cbn [forEachFrom]. apply IH.
  destruct item as [itemName idx cats|itemName idx category].
  - by apply buildHierarchy_fresh.
  - by apply buildSingle_fresh.
Qed.

(** X26.  A refresh resets the selection: every value node of every
    group after [processData] is a freshly allocated object (its address
    lies past the heap the refresh started from), unselected and without
    an [indeterminate] flag, whatever was selected before. *)
Theorem refresh_resets_selection categories vis cat a :
  cat ∈ filterCategories (processData categories vis) →
  a ∈ groupNodes cat →
  length (heap vis) ≤ a
  ∧ ∃ v, heap (processData categories vis) !! a = Some v
         ∧ selected v = false ∧ indeterminate v = None.
Proof.
  intros Hc Ha.
  assert (freshFrom (length (heap vis)) (processData categories vis))
    as (_ & Hf & Hg).
  { unfold processData. destruct categories as [categories|].
    - apply processItems_fresh. split_and!; simpl; [done| |].
      + intros x v Hx Hv. apply lookup_lt_Some in Hv. lia.
      + intros c x Hin. by apply elem_of_nil in Hin.
    - by apply elem_of_nil in Hc. }
  destruct (Hg cat a Hc Ha) as [Hlo Hhi].
  destruct (lookup_lt_is_Some_2 _ _ Hhi) as [v Hv].
  split; [done|]. exists v. split; [done|]. by eapply Hf.
Qed.

(** The theorem for a refresh while North is selected. *)
Lemma refresh_resets_selection_witness :
  length (heap Session.northSelected) ≤ 12
  ∧ ∃ v, heap (processData (Some [Sample.kind; Sample.item; Sample.shop])
                 Session.northSelected) !! 12 = Some v
         ∧ selected v = false ∧ indeterminate v = None.
Proof.
  apply (refresh_resets_selection (Some [Sample.kind; Sample.item; Sample.shop])
           Session.northSelected
           (mkFilterCategory "Shop" "Shop" [12; 13] false None 1 false) 12).
  - vm_compute. repeat constructor.
  - vm_compute. constructor.
Defined.

(** ** The calls a refresh makes on the host *)

Lemma levelMints_length (categories : list DataViewCategoryColumn) :
  length (mjoin (levelNodes <$> categories))
  = length (mjoin (levelMints <$> categories)).
Proof.
  induction categories as [|c cs IH]; [done|]. csimpl.
  rewrite !length_app, IH. unfold levelNodes, levelMints.
  by rewrite !length_fmap.
Qed.

Lemma processItems_mints collapsedStates (items : list OrderItem) :
  ∀ i vis,
    let vis' :=
      forEachFrom (λ vis orderIndex item,
          match item with
          | Hierarchy itemName _ cats =>
              buildHierarchy collapsedStates itemName cats orderIndex vis
          | Single _ _ category =>
              buildSingle collapsedStates category orderIndex vis
          end) i items vis in
    ∃ mints,
      hostCalls vis' = hostCalls vis ++ mints
      ∧ forallb isMint mints = true
      ∧ length (heap vis') = length (heap vis) + length mints.
Proof.
  induction items as [|item items IH]; intros i vis.
  { exists []. simpl. rewrite app_nil_r. split_and!; [done..|lia]. }
  cbn [forEachFrom]. cbv zeta.
  match goal with
  | |- context [forEachFrom ?f (S i) items ?v] =>
      destruct (IH (S i) v) as (mints & -> & Hm & ->);
      assert (∃ first, hostCalls v = hostCalls vis ++ first
                       ∧ forallb isMint first = true
                       ∧ length (heap v) = length (heap vis) + length first)
        as (first & -> & Hf & ->)
  end.
  { destruct item as [itemName idx cats|itemName idx category].
    - destruct (buildHierarchy_parts collapsedStates itemName cats i vis)
        as (-> & -> & _).
      eexists. split; [done|].
      rewrite secondPass_length, length_app, levelMints_length.
      split; [|done].
      apply forallb_forall. intros call Hin.
      apply list_elem_of_In, list_elem_of_join in Hin as (l & Hin & Hl).
      apply list_elem_of_fmap in Hl as (c & -> & _).
      unfold levelMints in Hin.
      by apply list_elem_of_fmap in Hin as ([k r] & -> & _).
    - destruct (buildSingle_parts collapsedStates category i vis)
        as (-> & -> & _).
      eexists. split; [done|].
      rewrite length_app, !length_fmap. split; [|done].
      apply forallb_forall. intros call Hin.
      by apply list_elem_of_In, list_elem_of_fmap in Hin as ([k r] & -> & _). }
  exists (first ++ mints). rewrite (assoc_L (++)), forallb_app, length_app.
  split_and!; [done| |lia]. by rewrite Hf, Hm.
Qed.

(** X27.  The only calls that a refresh makes on the host mint identity
    tokens, one for each value node it allocates: it never touches the
    selection that the host holds. *)
Theorem refresh_only_mints_tokens categories vis :
  ∃ mints,
    hostCalls (processData categories vis) = hostCalls vis ++ mints
    ∧ forallb isMint mints = true
    ∧ length (heap (processData categories vis))
      = length (heap vis) + length mints.
Proof.
  unfold processData. destruct categories as [categories|].
  - apply (processItems_mints (collapsedStatesOf (filterCategories vis))
             (groupCategories categories) 0
             (mkVisual (heap vis) [] (hostCalls vis))).
  - exists []. simpl. rewrite app_nil_r. split_and!; [done..|lia].
Qed.

(** ** What [update] shows *)

Lemma groupCategories_nil categories :
  groupCategories categories = [] ↔ categories = [].
Proof.
  split; [|by intros ->].
  rewrite groupCategories_spec. destruct categories as [|c cs]; [done|].
  unfold groupsSpec.
  assert (∃ item, groupOf (c :: cs) 0 c = Some item) as [item E].
  { unfold groupOf. destruct (lineage c) as [b|]; [|by eexists].
    change (take 0 (c :: cs)) with (@nil DataViewCategoryColumn).
    rewrite fmap_nil.
    rewrite bool_decide_eq_false_2 by apply not_elem_of_nil.
    case_bool_decide; by eexists. }
  cbn [imap omap list_omap]. by rewrite E.
Qed.

Lemma processData_groups categories vis :
  length (filterCategories (processData (Some categories) vis))
  = length (groupCategories categories).
Proof.
  rewrite <- (length_fmap (λ c, (name c, order c))).
  unfold processData. rewrite processItems_names. simpl.
  by rewrite length_imap.
Qed.

(** X28.  [update] shows the empty state exactly when the data view
    carries no column, be it that the view, its categorical part or the
    column list is missing or that the list is empty; when one of the
    three is missing the model is left as it was, and otherwise it is
    rebuilt and one section is shown per group. *)
Theorem update_shows_empty_state_without_columns dataView vis :
  (snd (update dataView vis) = EmptyState
   ↔ default [] (columnsOf dataView) = [])
  ∧ match columnsOf dataView with
    | None => fst (update dataView vis) = vis
    | Some categories =>
        fst (update dataView vis) = processData (Some categories) vis
        ∧ (categories ≠ [] →
           snd (update dataView vis)
           = FilterSections
               (filterCategories (processData (Some categories) vis)))
    end.
Proof.
  destruct dataView as [[[[[categories|]]|]]|]; [|done..].
  change (update _ vis)
    with (processData (Some categories) vis,
          renderFilters (processData (Some categories) vis)).
  change (columnsOf _) with (Some categories).
  cbn [fst snd default from_option].
  assert (filterCategories (processData (Some categories) vis) = []
          ↔ categories = []) as Hnil.
  { rewrite <- groupCategories_nil, <- !length_zero_iff_nil.
    by rewrite processData_groups. }
  unfold renderFilters.
  destruct (filterCategories (processData (Some categories) vis)) as [|c cs]
    eqn:E.
  - assert (categories = []) as -> by (by apply Hnil).
    split; [done|]. split; [done|]. by intros Hn.
  - assert (categories ≠ []) as Hne.
    { intros Hc. by apply Hnil in Hc. }
    split; [|done]. split; [done|]. intros Hc. by destruct Hne.
Qed.
